(** * mpmc_ptr_ring.h: a multi-producer/multi-consumer pointer ring

    A shallow embedding of [src/mpmc_ptr_ring.h] and the properties of its
    operations.

    Conventions of the embedding (LP64 kernel):
    - [size_t] and [atomic_long_t] are 64-bit words, modelled as [Z] in
      [0, 2^64) with the wrap-around of [+] and [-] written out ([wadd],
      [wsub]).  [atomic_long_t] is signed in C; the conversions between
      [long] and [size_t] are bijections that preserve [==], [+1] and the
      bit pattern, so the unsigned representative is stored.
    - [void *] is a 64-bit word; [NULL] is [0].
    - the backing array [r->queue] lives in a heap ([gmap] from addresses to
      arrays); an access outside a live array is undefined behaviour and is
      reported as [Undefined].
    - memory barriers ([mb], [rmb], [smp_mb__*]) and [cpu_relax] have no
      effect on a sequentially consistent store and are omitted.
    - loops take a [fuel] bound on their number of iterations; running out
      is reported as [OutOfFuel]. *)

From Stdlib Require Import ZArith Lia.
From stdpp Require Import base numbers option list gmap infinite.

Local Open Scope Z_scope.

(** ** Machine words *)

Definition wordsz : Z := 2 ^ 64.

Definition wrap (z : Z) : Z := z mod wordsz.
Definition wadd (a b : Z) : Z := wrap (a + b).
Definition wsub (a b : Z) : Z := wrap (a - b).

Definition is_word (z : Z) : Prop := 0 <= z < wordsz.

(** [int] arguments are 32-bit and signed; converting one to [size_t] or
    [unsigned long] sign-extends, i.e. reduces modulo [2^64]. *)
Definition int_range (z : Z) : Prop := - 2 ^ 31 <= z < 2 ^ 31.
Definition int_to_size_t (z : Z) : Z := wrap z.

Definition NULL : Z := 0.
Definition EINVAL : Z := 22.
Definition ENOMEM : Z := 12.
Definition ENOSPC : Z := 28.

(** Modelled from the spec: [is_power_of_2] is the kernel helper of
    <linux/log2.h>, not part of this header; the spec asks that construction
    "verify it is a power of two".  The kernel's definition is
    [n != 0 && ((n & (n - 1)) == 0)] on [unsigned long]. *)
Definition is_power_of_2 (n : Z) : bool :=
  negb (n =? 0) && (Z.land n (wsub n 1) =? 0).

(** ** The ring and the store *)

(** [struct mpmc_ptr_ring] *)
Record mpmc_ptr_ring : Type := Ring {
  queue : Z;           (* void **queue: address of the backing array *)
  size : Z;            (* size_t size *)
  consumer_head : Z;   (* updated in dequeue; read in enqueue *)
  producer_head : Z;   (* read and updated in enqueue *)
  producer_tail : Z;   (* updated in enqueue, read in dequeue *)
}.

(** What the ring does to the world outside the structure. *)
Inductive event : Type :=
  | EvKcalloc (n : Z) (res : Z)   (* kcalloc(n, sizeof(void * ), gfp) returned [res] *)
  | EvKfree (addr : Z)            (* kfree(addr) *)
  | EvDestroy (ptr : Z).          (* the caller's destroy(ptr) *)

Record world : Type := World {
  ring : mpmc_ptr_ring;          (* the structure [r] points to *)
  heap : gmap Z (list Z);        (* live arrays of pointers *)
  trace : list event;            (* allocator and callback calls, oldest first *)
}.

Inductive atomic : Type := ConsumerHead | ProducerHead | ProducerTail.

Definition load (a : atomic) (r : mpmc_ptr_ring) : Z :=
  match a with
  | ConsumerHead => consumer_head r
  | ProducerHead => producer_head r
  | ProducerTail => producer_tail r
  end.

Definition store (a : atomic) (v : Z) (r : mpmc_ptr_ring) : mpmc_ptr_ring :=
  match a with
  | ConsumerHead => Ring (queue r) (size r) v (producer_head r) (producer_tail r)
  | ProducerHead => Ring (queue r) (size r) (consumer_head r) v (producer_tail r)
  | ProducerTail => Ring (queue r) (size r) (consumer_head r) (producer_head r) v
  end.

Definition set_ring (r : mpmc_ptr_ring) (w : world) : world :=
  World r (heap w) (trace w).
Definition set_heap (h : gmap Z (list Z)) (w : world) : world :=
  World (ring w) h (trace w).
Definition log (e : event) (w : world) : world :=
  World (ring w) (heap w) (trace w ++ [e]).

(** ** A state monad with undefined behaviour and fuel *)

Inductive outcome (A : Type) : Type :=
  | Done (a : A) (w : world)
  | Undefined
  | OutOfFuel.
Arguments Done {A} a w.
Arguments Undefined {A}.
Arguments OutOfFuel {A}.

Definition M (A : Type) : Type := world -> outcome A.

Definition ret {A} (a : A) : M A := fun w => Done a w.
Definition bind {A B} (m : M A) (k : A -> M B) : M B :=
  fun w => match m w with
           | Done a w' => k a w'
           | Undefined => Undefined
           | OutOfFuel => OutOfFuel
           end.
Definition out_of_fuel {A} : M A := fun _ => OutOfFuel.

Notation "'let*' x ':=' m 'in' k" := (bind m (fun x => k))
  (at level 10, x name, m at level 99, k at level 200).
Notation "'run' m ';;' k" := (bind m (fun _ => k))
  (at level 10, m at level 99, k at level 200).

(** *** Primitives *)

Definition atomic_long_read (a : atomic) : M Z :=
  fun w => Done (load a (ring w)) w.

Definition atomic_long_set (a : atomic) (v : Z) : M unit :=
  fun w => Done tt (set_ring (store a v (ring w)) w).

(** Returns the value found; stores [new] only when that value is [old]. *)
Definition atomic_long_cmpxchg (a : atomic) (old new : Z) : M Z :=
  fun w =>
    let cur := load a (ring w) in
    if cur =? old then Done cur (set_ring (store a new (ring w)) w)
    else Done cur w.

Definition atomic_long_inc (a : atomic) : M unit :=
  fun w => Done tt (set_ring (store a (wadd (load a (ring w)) 1) (ring w)) w).

Definition read_size : M Z := fun w => Done (size (ring w)) w.

(** [READ_ONCE(r->queue[i])] *)
Definition READ_ONCE_queue (i : Z) : M Z :=
  fun w => match heap w !! queue (ring w) with
           | Some arr => match arr !! Z.to_nat i with
                         | Some v => Done v w
                         | None => Undefined
                         end
           | None => Undefined
           end.

(** [WRITE_ONCE(r->queue[i], ptr)] *)
Definition WRITE_ONCE_queue (i : Z) (ptr : Z) : M unit :=
  fun w => match heap w !! queue (ring w) with
           | Some arr =>
               if decide (Z.to_nat i < length arr)%nat
               then Done tt (set_heap (<[queue (ring w) := <[Z.to_nat i := ptr]> arr]> (heap w)) w)
               else Undefined
           | None => Undefined
           end.

(** The allocator.  Whether an allocation succeeds is the allocator's
    choice, passed as [ok]; a request whose byte size overflows [size_t]
    always fails.  A successful call returns a fresh non-null address of a
    zeroed array. *)
Definition fresh_addr (h : gmap Z (list Z)) : Z := fresh ({[NULL]} ∪ dom h).

Definition kcalloc (ok : bool) (n : Z) (elt : Z) : M Z :=
  fun w =>
    if ok && (n * elt <? wordsz) then
      let a := fresh_addr (heap w) in
      Done a (log (EvKcalloc n a)
                (set_heap (<[a := replicate (Z.to_nat n) NULL]> (heap w)) w))
    else Done NULL (log (EvKcalloc n NULL) w).

(** [kfree(NULL)] is a no-op; freeing anything that is not live is
    undefined. *)
Definition kfree (a : Z) : M unit :=
  fun w =>
    if a =? NULL then Done tt (log (EvKfree a) w)
    else match heap w !! a with
         | Some _ => Done tt (log (EvKfree a) (set_heap (delete a (heap w)) w))
         | None => Undefined
         end.

(** The caller's destructor is code outside the ring; a call is recorded. *)
Definition call_destroy (ptr : Z) : M unit :=
  fun w => Done tt (log (EvDestroy ptr) w).

Definition set_size (v : Z) : M unit :=
  fun w => Done tt (set_ring (Ring (queue (ring w)) v (consumer_head (ring w))
                                (producer_head (ring w)) (producer_tail (ring w))) w).
Definition set_queue (a : Z) : M unit :=
  fun w => Done tt (set_ring (Ring a (size (ring w)) (consumer_head (ring w))
                                (producer_head (ring w)) (producer_tail (ring w))) w).
Definition read_queue : M Z := fun w => Done (queue (ring w)) w.

(** ** The operations of the header *)

Definition mpmc_ptr_ring_empty : M bool :=
  let* ptail := atomic_long_read ProducerTail in
  let* chead := atomic_long_read ConsumerHead in
  ret (chead =? ptail).

(** The claim loop of [mpmc_ptr_ring_produce] (the [for (;;)]):
    [Some p] is the claimed index, [None] is the [-ENOSPC] exit. *)
Fixpoint produce_claim (fuel : nat) (mask p : Z) : M (option Z) :=
  match fuel with
  | O => out_of_fuel
  | S fuel' =>
      let* c := atomic_long_read ConsumerHead in
      if wsub p c <? mask then
        let* old := atomic_long_cmpxchg ProducerHead p (wadd p 1) in
        if old =? p then ret (Some p) else produce_claim fuel' mask p
      else
        let* new_p := atomic_long_read ProducerHead in
        if new_p =? p then ret None else produce_claim fuel' mask new_p
  end.

(** [while (atomic_long_read(&r->producer_tail) != p) cpu_relax();] *)
Fixpoint produce_wait (fuel : nat) (p : Z) : M unit :=
  match fuel with
  | O => out_of_fuel
  | S fuel' =>
      let* t := atomic_long_read ProducerTail in
      if t =? p then ret tt else produce_wait fuel' p
  end.

Definition mpmc_ptr_ring_produce (fuel : nat) (ptr : Z) : M Z :=
  let* sz := read_size in
  let mask := wsub sz 1 in
  let* p0 := atomic_long_read ProducerHead in
  let* claimed := produce_claim fuel mask p0 in
  match claimed with
  | None => ret (- ENOSPC)
  | Some p =>
      run WRITE_ONCE_queue (Z.land p mask) ptr ;;
      run produce_wait fuel p ;;
      run atomic_long_set ProducerTail (wadd p 1) ;;
      ret 0
  end.

Fixpoint consume_loop (fuel : nat) (mask : Z) : M Z :=
  match fuel with
  | O => out_of_fuel
  | S fuel' =>
      let* c := atomic_long_read ConsumerHead in
      let* p := atomic_long_read ProducerTail in
      if p =? c then ret NULL
      else
        let* element := READ_ONCE_queue (Z.land c mask) in
        let* old_c := atomic_long_cmpxchg ConsumerHead c (wadd c 1) in
        if old_c =? c then ret element else consume_loop fuel' mask
  end.

Definition mpmc_ptr_ring_consume (fuel : nat) : M Z :=
  let* sz := read_size in
  consume_loop fuel (wsub sz 1).

(** [size] is the [int] argument; [alloc_ok] is the allocator's answer to
    the [kcalloc] call ([gfp] only tunes the allocator).  [WARN_ONCE]
    evaluates to its condition; its kernel-log line is not tracked. *)
Definition mpmc_ptr_ring_init (size : Z) (alloc_ok : bool) : M Z :=
  if negb (is_power_of_2 (int_to_size_t size)) then ret (- EINVAL)
  else
    run set_size (int_to_size_t size) ;;
    run atomic_long_set ConsumerHead 0 ;;
    run atomic_long_set ProducerHead 0 ;;
    run atomic_long_set ProducerTail 0 ;;
    let* a := kcalloc alloc_ok (int_to_size_t size) 8 in
    run set_queue a ;;
    if a =? NULL then ret (- ENOMEM)
    else ret 0.

(** [while ((ptr = mpmc_ptr_ring_consume(r))) destroy(ptr);] *)
Fixpoint cleanup_loop (fuel : nat) (cfuel : nat) : M unit :=
  match fuel with
  | O => out_of_fuel
  | S fuel' =>
      let* ptr := mpmc_ptr_ring_consume cfuel in
      if ptr =? NULL then ret tt
      else run call_destroy ptr ;; cleanup_loop fuel' cfuel
  end.

(** [destroy] tells whether the function pointer is non-null. *)
Definition mpmc_ptr_ring_cleanup (fuel : nat) (destroy : bool) : M unit :=
  run (if destroy then cleanup_loop fuel fuel else ret tt) ;;
  let* q := read_queue in
  kfree q.

Definition __mpmc_ptr_ring_peek : M Z :=
  let* sz := read_size in
  let mask := wsub sz 1 in
  let* c := atomic_long_read ConsumerHead in
  let* p := atomic_long_read ProducerTail in
  if c =? p then ret NULL
  else READ_ONCE_queue (Z.land c mask).

Definition __mpmc_ptr_ring_discard_one : M unit :=
  atomic_long_inc ConsumerHead.

(** A world in which nothing has been allocated yet; the ring structure
    holds arbitrary (here zero) bits. *)
Definition blank : world := World (Ring 0 0 0 0 0) ∅ [].

(** ** The abstract view of a ring *)

(** Number of committed, not yet consumed elements. *)
Definition occupied (r : mpmc_ptr_ring) : Z :=
  wsub (producer_tail r) (consumer_head r).

(** The value stored for logical index [i], i.e. in slot [i & mask]. *)
Definition element (w : world) (i : Z) : Z :=
  default NULL
    (heap w !! queue (ring w) ≫=
       fun arr => arr !! Z.to_nat (Z.land i (wsub (size (ring w)) 1))).

(** The committed elements, oldest first. *)
Definition contents (w : world) : list Z :=
  map (fun k => element w (wadd (consumer_head (ring w)) (Z.of_nat k)))
      (seq 0 (Z.to_nat (occupied (ring w)))).

(** The storage of a properly initialised ring: the size is a power of two
    and [queue] is the non-null address of a live array of [size] entries. *)
Definition storage_ok (w : world) : bool :=
  let r := ring w in
  is_power_of_2 (size r) && (0 <=? size r) && (size r <? wordsz)
  && negb (queue r =? NULL)
  && match heap w !! queue r with
     | Some arr => Z.of_nat (length arr) =? size r
     | None => false
     end.

(** A properly initialised ring with no producer in flight: the storage is
    in order, the counters are words, [producer_head = producer_tail], and
    at most [size - 1] elements are held. *)
Definition ring_wf (w : world) : bool :=
  let r := ring w in
  storage_ok w
  && (0 <=? consumer_head r) && (consumer_head r <? wordsz)
  && (0 <=? producer_tail r) && (producer_tail r <? wordsz)
  && (producer_head r =? producer_tail r)
  && (occupied r <? size r).

(** The counters as the data model orders them. *)
Definition counters_ordered (r : mpmc_ptr_ring) : Prop :=
  0 <= consumer_head r /\ consumer_head r <= producer_tail r /\
  producer_tail r <= producer_head r /\ producer_head r < wordsz.

(** ** The states the operations lead to *)

(** State after a successful produce of [v]. *)
Definition enqueued (v : Z) (w : world) : world :=
  let r := ring w in
  let p := producer_head r in
  World (Ring (queue r) (size r) (consumer_head r) (wadd p 1) (wadd p 1))
        (alter (fun arr => <[Z.to_nat (Z.land p (wsub (size r) 1)) := v]> arr)
               (queue r) (heap w))
        (trace w).

(** State of a produce of [v] that has claimed its index and written its
    slot, and has not moved [producer_tail] yet. *)
Definition written (v : Z) (w : world) : world :=
  let r := ring w in
  let p := producer_head r in
  World (Ring (queue r) (size r) (consumer_head r) (wadd p 1) (producer_tail r))
        (alter (fun arr => <[Z.to_nat (Z.land p (wsub (size r) 1)) := v]> arr)
               (queue r) (heap w))
        (trace w).

(** State after a successful consume. *)
Definition dequeued (w : world) : world :=
  set_ring (store ConsumerHead (wadd (consumer_head (ring w)) 1) (ring w)) w.

(** State after a successful [mpmc_ptr_ring_init] with [n] slots. *)
Definition initialised (n : Z) (w : world) : world :=
  let a := fresh_addr (heap w) in
  World (Ring a n 0 0 0)
        (<[a := replicate (Z.to_nat n) NULL]> (heap w))
        (trace w ++ [EvKcalloc n a]).

(** State after an [mpmc_ptr_ring_init] whose allocation failed. *)
Definition init_failed (n : Z) (w : world) : world :=
  World (Ring NULL n 0 0 0) (heap w) (trace w ++ [EvKcalloc n NULL]).

(** ** Sequences of calls and the reference queue *)

Inductive call : Type :=
  | Produce (v : Z)
  | Consume
  | Peek.

Definition do_call (fuel : nat) (c : call) : M Z :=
  match c with
  | Produce v => mpmc_ptr_ring_produce fuel v
  | Consume => mpmc_ptr_ring_consume fuel
  | Peek => __mpmc_ptr_ring_peek
  end.

Fixpoint do_calls (fuel : nat) (cs : list call) : M (list Z) :=
  match cs with
  | [] => ret []
  | c :: cs' =>
      let* r := do_call fuel c in
      let* rs := do_calls fuel cs' in
      ret (r :: rs)
  end.

(** The reference: a first-in first-out queue (a list, oldest first) that
    holds at most [cap - 1] values.  [Produce] answers [0] or [-ENOSPC];
    [Consume] and [Peek] answer the oldest value, or [NULL] when there is
    none. *)
Definition fifo_call (cap : Z) (q : list Z) (c : call) : Z * list Z :=
  match c with
  | Produce v =>
      if Z.of_nat (length q) <? cap - 1 then (0, q ++ [v]) else (- ENOSPC, q)
  | Consume =>
      match q with
      | [] => (NULL, [])
      | x :: q' => (x, q')
      end
  | Peek =>
      match q with
      | [] => (NULL, [])
      | x :: _ => (x, q)
      end
  end.

Fixpoint fifo_calls (cap : Z) (q : list Z) (cs : list call) : list Z * list Z :=
  match cs with
  | [] => ([], q)
  | c :: cs' =>
      let '(r, q') := fifo_call cap q c in
      let '(rs, q'') := fifo_calls cap q' cs' in
      (r :: rs, q'')
  end.

(** ** Teardown *)

(** The world after the drain loop of [mpmc_ptr_ring_cleanup] on a ring
    whose elements are all non-null: the consumer has caught up with the
    producers and [destroy] was called on each element, oldest first. *)
Definition drained (w : world) : world :=
  World (store ConsumerHead (producer_tail (ring w)) (ring w))
        (heap w)
        (trace w ++ map EvDestroy (contents w)).

(** ** Concurrent consumers

    Threads running [mpmc_ptr_ring_consume] against one ring, interleaved
    step by step.  Every step is one access to the shared ring (the header
    places a full barrier around each, so the store is sequentially
    consistent); what a thread holds in its local variables between two
    accesses is its [consumer] state. *)

Inductive consumer : Type :=
  | CIdle                              (* not inside a call *)
  | CReadHead (mask : Z)               (* before [c = atomic_long_read(&r->consumer_head)] *)
  | CReadTail (mask c : Z)             (* before [p = atomic_long_read(&r->producer_tail)] *)
  | CReadSlot (mask c : Z)             (* before [element = READ_ONCE(r->queue[c & mask])] *)
  | CCas (mask c element : Z).         (* before [atomic_long_cmpxchg(&r->consumer_head, c, c + 1)] *)

(** The two [return] statements of [mpmc_ptr_ring_consume]. *)
Inductive consume_return : Type :=
  | RetEmpty                 (* [return NULL;] after [p == c] *)
  | RetElement (element : Z). (* [return element;] after the compare-and-swap *)

(** The pointer the caller receives. *)
Definition return_value (r : consume_return) : Z :=
  match r with
  | RetEmpty => NULL
  | RetElement element => element
  end.

(** One step of one thread: the new local state, the [return] taken if the
    call ends with this step, and the new shared world.  [None] is
    undefined behaviour.  An idle thread that is scheduled enters a new
    call. *)
Definition consume_step (t : consumer) (w : world)
  : option (consumer * option consume_return * world) :=
  match t with
  | CIdle =>
      match read_size w with
      | Done sz w' => Some (CReadHead (wsub sz 1), None, w')
      | _ => None
      end
  | CReadHead mask =>
      match atomic_long_read ConsumerHead w with
      | Done c w' => Some (CReadTail mask c, None, w')
      | _ => None
      end
  | CReadTail mask c =>
      match atomic_long_read ProducerTail w with
      | Done p w' =>
          if p =? c then Some (CIdle, Some RetEmpty, w')
          else Some (CReadSlot mask c, None, w')
      | _ => None
      end
  | CReadSlot mask c =>
      match READ_ONCE_queue (Z.land c mask) w with
      | Done element w' => Some (CCas mask c element, None, w')
      | _ => None
      end
  | CCas mask c element =>
      match atomic_long_cmpxchg ConsumerHead c (wadd c 1) w with
      | Done old_c w' =>
          if old_c =? c then Some (CIdle, Some (RetElement element), w')
          else Some (CReadHead mask, None, w')
      | _ => None
      end
  end.

(** The ring, the consumer threads, and the calls that have returned so far
    (thread and [return] taken, oldest first). *)
Record system : Type := System {
  shared : world;
  threads : list consumer;
  returned : list (nat * consume_return);
}.

Definition sched_step (tid : nat) (s : system) : option system :=
  match threads s !! tid with
  | Some t =>
      match consume_step t (shared s) with
      | Some (t', r, w') =>
          Some (System w' (<[tid := t']> (threads s))
                       (returned s ++ match r with
                                      | Some v => [(tid, v)]
                                      | None => []
                                      end))
      | None => None
      end
  | None => None
  end.

(** Runs a schedule: the list of thread identifiers in the order in which
    the threads take their steps. *)
Fixpoint run_schedule (sched : list nat) (s : system) : option system :=
  match sched with
  | [] => Some s
  | tid :: sched' =>
      match sched_step tid s with
      | Some s' => run_schedule sched' s'
      | None => None
      end
  end.

(** [n] idle consumer threads in front of the ring of [w]. *)
Definition consumers (n : nat) (w : world) : system :=
  System w (replicate n CIdle) [].

(** The elements handed out by successful consumes (those that won their
    compare-and-swap), in the order of these. *)
Definition successes (rs : list (nat * consume_return)) : list Z :=
  omap (fun r => match snd r with
                 | RetElement element => Some element
                 | RetEmpty => None
                 end) rs.

(** The world after [k] elements were consumed. *)
Definition advance (k : nat) (w : world) : world :=
  set_ring (store ConsumerHead (wadd (consumer_head (ring w)) (Z.of_nat k)) (ring w)) w.

(** What a thread of a system that has handed out [k] elements of the
    backlog of [w0] may hold in its local variables. *)
Definition thread_inv (w0 : world) (k : nat) (t : consumer) : Prop :=
  let c0 := consumer_head (ring w0) in
  let m := wsub (size (ring w0)) 1 in
  match t with
  | CIdle => True
  | CReadHead mask => mask = m
  | CReadTail mask c =>
      mask = m /\ exists j : nat, (j <= k)%nat /\ c = wadd c0 (Z.of_nat j)
  | CReadSlot mask c =>
      mask = m /\
      exists j : nat, (j <= k)%nat /\ (j < length (contents w0))%nat /\
                      c = wadd c0 (Z.of_nat j)
  | CCas mask c e =>
      mask = m /\
      exists j : nat, (j <= k)%nat /\ contents w0 !! j = Some e /\
                      c = wadd c0 (Z.of_nat j)
  end.

Record sys_inv (w0 : world) (s : system) : Prop := SysInv {
  inv_shared : shared s = advance (length (successes (returned s))) w0;
  inv_bound : (length (successes (returned s)) <= length (contents w0))%nat;
  inv_prefix : successes (returned s)
               = take (length (successes (returned s))) (contents w0);
  inv_threads : Forall (thread_inv w0 (length (successes (returned s)))) (threads s);
  inv_empty : In RetEmpty (map snd (returned s)) ->
              length (successes (returned s)) = length (contents w0);
}.

(** ** Steps and returned calls

    A count of the steps a system of consumers has behind it, read off its
    state: five for every call that has returned (at most five accesses
    lead to a [return]), the accesses a thread has made in its present
    pass through the loop, and four for every pass that ended in a lost
    compare-and-swap.  A pass is lost to the successful consume of another
    thread, and a thread whose [c] is no longer [consumer_head] is going to
    lose its pass; each successful consume is charged for the passes the
    other threads may lose to it. *)

(** The accesses made in the present pass. *)
Definition pass_steps (t : consumer) : Z :=
  match t with
  | CIdle => 0
  | CReadHead _ => 1
  | CReadTail _ _ => 2
  | CReadSlot _ _ => 3
  | CCas _ _ _ => 4
  end.

(** The value of [consumer_head] a thread holds in [c]. *)
Definition held_head (t : consumer) : option Z :=
  match t with
  | CReadTail _ c | CReadSlot _ c | CCas _ c _ => Some c
  | CIdle | CReadHead _ => None
  end.

(** The thread holds a [c] that [consumer_head] has moved away from. *)
Definition outdated (w : world) (t : consumer) : bool :=
  match held_head t with
  | Some c => negb (c =? consumer_head (ring w))
  | None => false
  end.

Definition weight (w : world) (t : consumer) : Z :=
  pass_steps t - (if outdated w t then 4 else 0).

Definition weights (w : world) (ts : list consumer) : Z :=
  foldr (fun t a => weight w t + a) 0 ts.

Definition step_count (s : system) : Z :=
  5 * Z.of_nat (length (returned s))
  + 4 * (Z.of_nat (length (threads s)) - 1)
      * Z.of_nat (length (successes (returned s)))
  + weights (shared s) (threads s).

(** ** Producers and consumers together

    The step-by-step model extended with threads running
    [mpmc_ptr_ring_produce], to follow the three counters through the
    states in which producers are between their claim and their commit. *)

Inductive producer : Type :=
  | PReadHead (mask ptr : Z)       (* before [p = atomic_long_read(&r->producer_head)] *)
  | PReadCons (mask ptr p : Z)     (* before [c = atomic_long_read(&r->consumer_head)] *)
  | PCas (mask ptr p : Z)          (* before [atomic_long_cmpxchg(&r->producer_head, p, p + 1)] *)
  | PRecheck (mask ptr p : Z)      (* before [new_p = atomic_long_read(&r->producer_head)] *)
  | PWrite (mask ptr p : Z)        (* before [WRITE_ONCE(r->queue[p & mask], ptr)] *)
  | PWait (mask ptr p : Z)         (* in [while (atomic_long_read(&r->producer_tail) != p)] *)
  | PSetTail (mask ptr p : Z).     (* before [atomic_long_set(&r->producer_tail, p + 1)] *)

(** One step of a thread inside [mpmc_ptr_ring_produce]; [inr rc] when the
    call returns [rc] with this step. *)
Definition produce_step (t : producer) (w : world)
  : option ((producer + Z) * world) :=
  match t with
  | PReadHead mask ptr =>
      match atomic_long_read ProducerHead w with
      | Done p w' => Some (inl (PReadCons mask ptr p), w')
      | _ => None
      end
  | PReadCons mask ptr p =>
      match atomic_long_read ConsumerHead w with
      | Done c w' =>
          if wsub p c <? mask then Some (inl (PCas mask ptr p), w')
          else Some (inl (PRecheck mask ptr p), w')
      | _ => None
      end
  | PCas mask ptr p =>
      match atomic_long_cmpxchg ProducerHead p (wadd p 1) w with
      | Done old w' =>
          if old =? p then Some (inl (PWrite mask ptr p), w')
          else Some (inl (PReadCons mask ptr p), w')
      | _ => None
      end
  | PRecheck mask ptr p =>
      match atomic_long_read ProducerHead w with
      | Done new_p w' =>
          if new_p =? p then Some (inr (- ENOSPC), w')
          else Some (inl (PReadCons mask ptr new_p), w')
      | _ => None
      end
  | PWrite mask ptr p =>
      match WRITE_ONCE_queue (Z.land p mask) ptr w with
      | Done _ w' => Some (inl (PWait mask ptr p), w')
      | _ => None
      end
  | PWait mask ptr p =>
      match atomic_long_read ProducerTail w with
      | Done t w' =>
          if t =? p then Some (inl (PSetTail mask ptr p), w')
          else Some (inl (PWait mask ptr p), w')
      | _ => None
      end
  | PSetTail mask ptr p =>
      match atomic_long_set ProducerTail (wadd p 1) w with
      | Done _ w' => Some (inr 0, w')
      | _ => None
      end
  end.

Inductive thread : Type :=
  | TIdle
  | TConsume (t : consumer)
  | TProduce (t : producer).

(** What a scheduled thread does: an idle one enters the given call, a busy
    one takes the next step of its call. *)
Inductive request : Type :=
  | ReqProduce (ptr : Z)
  | ReqConsume.

Definition thread_step (rq : request) (t : thread) (w : world)
  : option (thread * world) :=
  match t with
  | TIdle =>
      match read_size w with
      | Done sz w' =>
          match rq with
          | ReqProduce ptr => Some (TProduce (PReadHead (wsub sz 1) ptr), w')
          | ReqConsume => Some (TConsume (CReadHead (wsub sz 1)), w')
          end
      | _ => None
      end
  | TConsume c =>
      match consume_step c w with
      | Some (CIdle, _, w') => Some (TIdle, w')
      | Some (c', _, w') => Some (TConsume c', w')
      | None => None
      end
  | TProduce p =>
      match produce_step p w with
      | Some (inl p', w') => Some (TProduce p', w')
      | Some (inr _, w') => Some (TIdle, w')
      | None => None
      end
  end.

(** The shared world and the threads. *)
Definition pool : Type := world * list thread.

Definition pool_step (tid : nat) (rq : request) (s : pool) : option pool :=
  match snd s !! tid with
  | Some t =>
      match thread_step rq t (fst s) with
      | Some (t', w') => Some (w', <[tid := t']> (snd s))
      | None => None
      end
  | None => None
  end.

(** All the states a schedule goes through, the initial one first; [None]
    if some step is undefined. *)
Fixpoint pool_states (sched : list (nat * request)) (s : pool) : option (list pool) :=
  match sched with
  | [] => Some [s]
  | (tid, rq) :: sched' =>
      match pool_step tid rq s with
      | Some s' => option_map (cons s) (pool_states sched' s')
      | None => None
      end
  end.

(** The index a producer has claimed and not yet committed. *)
Definition claimed (t : thread) : option Z :=
  match t with
  | TProduce (PWrite _ _ p) | TProduce (PWait _ _ p) | TProduce (PSetTail _ _ p) => Some p
  | _ => None
  end.

(** What a thread may hold in its local variables, given the counters. *)
Definition local_inv (r : mpmc_ptr_ring) (t : thread) : Prop :=
  match t with
  | TConsume (CReadTail _ c) => c <= consumer_head r
  | TConsume (CReadSlot _ c) | TConsume (CCas _ c _) => c < producer_tail r
  | TProduce (PWrite _ _ p) | TProduce (PWait _ _ p) =>
      producer_tail r <= p < producer_head r
  | TProduce (PSetTail _ _ p) => producer_tail r = p /\ p < producer_head r
  | _ => True
  end.

Record pool_inv (s : pool) : Prop := PoolInv {
  pinv_counters : counters_ordered (ring (fst s));
  pinv_local : forall i t, snd s !! i = Some t -> local_inv (ring (fst s)) t;
  pinv_distinct : forall i j t t' p,
      i <> j -> snd s !! i = Some t -> snd s !! j = Some t' ->
      claimed t = Some p -> claimed t' = Some p -> False;
}.

(** The mask a thread computed on entry is [size - 1]. *)
Definition mask_ok (sz : Z) (t : thread) : Prop :=
  match t with
  | TIdle | TConsume CIdle => True
  | TConsume (CReadHead mask) | TConsume (CReadTail mask _)
  | TConsume (CReadSlot mask _) | TConsume (CCas mask _ _)
  | TProduce (PReadHead mask _) | TProduce (PReadCons mask _ _)
  | TProduce (PCas mask _ _) | TProduce (PRecheck mask _ _)
  | TProduce (PWrite mask _ _) | TProduce (PWait mask _ _)
  | TProduce (PSetTail mask _ _) => mask = wsub sz 1
  end.

(** The state a schedule ends in; [None] if some step is undefined. *)
Fixpoint pool_run (sched : list (nat * request)) (s : pool) : option pool :=
  match sched with
  | [] => Some s
  | (tid, rq) :: sched' =>
      match pool_step tid rq s with
      | Some s' => pool_run sched' s'
      | None => None
      end
  end.

(** The steps [thread_step] can take, one constructor per outcome of each
    shared access. *)
Inductive tstep (w : world) : thread -> thread -> world -> Prop :=
  | st_enter_produce ptr :
      tstep w TIdle (TProduce (PReadHead (wsub (size (ring w)) 1) ptr)) w
  | st_enter_consume :
      tstep w TIdle (TConsume (CReadHead (wsub (size (ring w)) 1))) w
  | st_c_enter :
      tstep w (TConsume CIdle) (TConsume (CReadHead (wsub (size (ring w)) 1))) w
  | st_c_head mask :
      tstep w (TConsume (CReadHead mask))
              (TConsume (CReadTail mask (consumer_head (ring w)))) w
  | st_c_empty mask c :
      producer_tail (ring w) = c ->
      tstep w (TConsume (CReadTail mask c)) TIdle w
  | st_c_tail mask c :
      producer_tail (ring w) <> c ->
      tstep w (TConsume (CReadTail mask c)) (TConsume (CReadSlot mask c)) w
  | st_c_slot mask c arr e :
      heap w !! queue (ring w) = Some arr ->
      arr !! Z.to_nat (Z.land c mask) = Some e ->
      tstep w (TConsume (CReadSlot mask c)) (TConsume (CCas mask c e)) w
  | st_c_win mask c e :
      consumer_head (ring w) = c ->
      tstep w (TConsume (CCas mask c e)) TIdle
              (set_ring (store ConsumerHead (wadd c 1) (ring w)) w)
  | st_c_lose mask c e :
      consumer_head (ring w) <> c ->
      tstep w (TConsume (CCas mask c e)) (TConsume (CReadHead mask)) w
  | st_p_head mask ptr :
      tstep w (TProduce (PReadHead mask ptr))
              (TProduce (PReadCons mask ptr (producer_head (ring w)))) w
  | st_p_room mask ptr p :
      wsub p (consumer_head (ring w)) < mask ->
      tstep w (TProduce (PReadCons mask ptr p)) (TProduce (PCas mask ptr p)) w
  | st_p_noroom mask ptr p :
      ~ wsub p (consumer_head (ring w)) < mask ->
      tstep w (TProduce (PReadCons mask ptr p)) (TProduce (PRecheck mask ptr p)) w
  | st_p_win mask ptr p :
      producer_head (ring w) = p ->
      tstep w (TProduce (PCas mask ptr p)) (TProduce (PWrite mask ptr p))
              (set_ring (store ProducerHead (wadd p 1) (ring w)) w)
  | st_p_lose mask ptr p :
      producer_head (ring w) <> p ->
      tstep w (TProduce (PCas mask ptr p)) (TProduce (PReadCons mask ptr p)) w
  | st_p_full mask ptr p :
      producer_head (ring w) = p ->
      tstep w (TProduce (PRecheck mask ptr p)) TIdle w
  | st_p_retry mask ptr p :
      producer_head (ring w) <> p ->
      tstep w (TProduce (PRecheck mask ptr p))
              (TProduce (PReadCons mask ptr (producer_head (ring w)))) w
  | st_p_write mask ptr p arr :
      heap w !! queue (ring w) = Some arr ->
      (Z.to_nat (Z.land p mask) < length arr)%nat ->
      tstep w (TProduce (PWrite mask ptr p)) (TProduce (PWait mask ptr p))
              (set_heap (<[queue (ring w) := <[Z.to_nat (Z.land p mask) := ptr]> arr]>
                           (heap w)) w)
  | st_p_wait mask ptr p :
      producer_tail (ring w) <> p ->
      tstep w (TProduce (PWait mask ptr p)) (TProduce (PWait mask ptr p)) w
  | st_p_turn mask ptr p :
      producer_tail (ring w) = p ->
      tstep w (TProduce (PWait mask ptr p)) (TProduce (PSetTail mask ptr p)) w
  | st_p_commit mask ptr p :
      tstep w (TProduce (PSetTail mask ptr p)) TIdle
              (set_ring (store ProducerTail (wadd p 1) (ring w)) w).

(** What the step a thread is about to take does to the queue of held
    elements: a producer's commit appends its pointer, a consumer's winning
    compare-and-swap removes the oldest element, nothing else changes it. *)
Definition step_effect (t : thread) (w : world) (q : list Z) : list Z :=
  match t with
  | TProduce (PSetTail _ ptr _) => q ++ [ptr]
  | TConsume (CCas _ c _) => if consumer_head (ring w) =? c then tl q else q
  | _ => q
  end.

(** What the local variables of a thread say about the slots. *)
Definition data_local (w : world) (t : thread) : Prop :=
  let r := ring w in
  match t with
  | TConsume (CReadSlot _ c) => c <= consumer_head r
  | TConsume (CCas _ c e) =>
      c <= consumer_head r /\ (c = consumer_head r -> element w c = e)
  | TProduce (PReadCons _ _ p) | TProduce (PRecheck _ _ p) =>
      0 <= p <= producer_head r
  | TProduce (PCas _ _ p) =>
      0 <= p <= producer_head r /\ p - consumer_head r < size r - 1
  | TProduce (PWait _ ptr p) | TProduce (PSetTail _ ptr p) => element w p = ptr
  | _ => True
  end.

(** The invariant of the pool that carries the data: the counters and
    claims are in order ([pool_inv]), the storage is, every thread has the
    right mask, at most [size - 1] indices are claimed or held, and the
    local variables fit the slots. *)
Record lin_inv (s : pool) : Prop := LinInv {
  linv_pool : pool_inv s;
  linv_storage : storage_ok (fst s) = true;
  linv_masks : Forall (mask_ok (size (ring (fst s)))) (snd s);
  linv_room : producer_head (ring (fst s)) - consumer_head (ring (fst s))
              <= size (ring (fst s)) - 1;
  linv_local : forall i t, snd s !! i = Some t -> data_local (fst s) t;
}.

(** ** Concrete worlds and schedules for the examples *)

(** A ring of four slots, freshly constructed in a blank world. *)
Definition demo_ring : world := initialised 4 blank.

(** The same ring after [produce(7)], [produce(8)]. *)
Definition demo_ring_78 : world := enqueued 8 (enqueued 7 demo_ring).

(** The empty ring on which a producer has claimed index 0 and not
    committed. *)
Definition lagging : world :=
  set_ring (store ProducerHead 1 (ring demo_ring)) demo_ring.

(** A blank world whose ring structure holds stale counters. *)
Definition stale : world := World (Ring 0 0 9 9 9) ∅ [].

(** A schedule for three threads: 0 and 1 produce, 2 consumes. *)
Definition race_schedule : list (nat * request) :=
  [(0, ReqProduce 7); (0, ReqProduce 7); (1, ReqProduce 8); (1, ReqProduce 8);
   (0, ReqProduce 7); (1, ReqProduce 8); (0, ReqProduce 7); (1, ReqProduce 8);
   (0, ReqProduce 7); (0, ReqProduce 7); (1, ReqProduce 8); (1, ReqProduce 8);
   (0, ReqProduce 7);
   (2, ReqConsume); (2, ReqConsume); (2, ReqConsume); (2, ReqConsume); (2, ReqConsume);
   (1, ReqProduce 8); (1, ReqProduce 8); (1, ReqProduce 8); (1, ReqProduce 8);
   (1, ReqProduce 8); (1, ReqProduce 8); (1, ReqProduce 8)]%nat.

(** * Proofs *)

(** ** Word arithmetic *)

Lemma wordsz_eq : wordsz = 18446744073709551616.
Proof. reflexivity. Qed.

Lemma wordsz_pos : 0 < wordsz.
Proof. rewrite wordsz_eq. lia. Qed.

Lemma wrap_word z : is_word (wrap z).
Proof. unfold is_word, wrap. apply Z.mod_pos_bound, wordsz_pos. Qed.

Lemma wrap_small z : 0 <= z < wordsz -> wrap z = z.
Proof. intros H. unfold wrap. now apply Z.mod_small. Qed.

Lemma wadd_small a b : 0 <= a + b < wordsz -> wadd a b = a + b.
Proof. apply wrap_small. Qed.

Lemma wsub_small a b : 0 <= a - b < wordsz -> wsub a b = a - b.
Proof. apply wrap_small. Qed.

Lemma wsub_diag a : wsub a a = 0.
Proof. unfold wsub. rewrite Z.sub_diag. reflexivity. Qed.

Lemma wadd_0_r a : is_word a -> wadd a 0 = a.
Proof. intros H. unfold wadd. rewrite Z.add_0_r. now apply wrap_small. Qed.

(** [c + (p - c) = p] on words. *)
Lemma wadd_wsub p c : is_word p -> wadd c (wsub p c) = p.
Proof.
  intros Hp. unfold wadd, wsub, wrap.
  rewrite Zplus_mod_idemp_r.
  replace (c + (p - c)) with p by lia.
  now apply Z.mod_small.
Qed.

(** [(c + j) - c = j] on words. *)
Lemma wsub_wadd c j : is_word j -> wsub (wadd c j) c = j.
Proof.
  intros Hj. unfold wadd, wsub, wrap.
  rewrite Zminus_mod_idemp_l.
  replace (c + j - c) with j by lia.
  now apply Z.mod_small.
Qed.

Lemma wadd_assoc c j k : wadd (wadd c j) k = wadd c (j + k).
Proof.
  unfold wadd, wrap. rewrite Zplus_mod_idemp_l. f_equal. lia.
Qed.

Lemma wsub_wadd_1 p c : wsub (wadd p 1) c = wrap (wsub p c + 1).
Proof.
  unfold wadd, wsub, wrap.
  rewrite Zminus_mod_idemp_l, Zplus_mod_idemp_l. f_equal. lia.
Qed.

Lemma wsub_wadd_1_r p c : wsub p (wadd c 1) = wrap (wsub p c - 1).
Proof.
  unfold wadd, wsub, wrap.
  rewrite Zminus_mod_idemp_r, Zminus_mod_idemp_l. f_equal. lia.
Qed.

(** Adding distinct small offsets to a word gives distinct words. *)
Lemma wadd_inj c j k : is_word j -> is_word k -> wadd c j = wadd c k -> j = k.
Proof.
  intros Hj Hk H.
  rewrite <- (wsub_wadd c j Hj), <- (wsub_wadd c k Hk). now rewrite H.
Qed.

(** ** Powers of two *)

Lemma is_power_of_2_pow2 k : 0 <= k -> is_power_of_2 (2 ^ k) = true.
Proof.
  intros Hk. unfold is_power_of_2.
  assert (0 < 2 ^ k) by (apply Z.pow_pos_nonneg; lia).
  apply andb_true_iff. split.
  - apply negb_true_iff, Z.eqb_neq. lia.
  - apply Z.eqb_eq. unfold wsub, wrap.
    apply Z.bits_inj'. intros n Hn.
    rewrite Z.land_spec, Z.bits_0, Z.pow2_bits_eqb by lia.
    destruct (Z.eqb_spec k n) as [->|Hne]; [|reflexivity].
    simpl.
    destruct (Z_lt_le_dec n 64) as [Hlt|Hge].
    + rewrite Z.mod_small.
      * change (2 ^ n - 1) with (Z.pred (2 ^ n)).
        rewrite <- Z.ones_equiv. apply Z.ones_spec_high. lia.
      * split; [lia|]. unfold wordsz.
        assert (2 ^ n < 2 ^ 64) by (apply Z.pow_lt_mono_r; lia). lia.
    + unfold wordsz. rewrite <- Z.land_ones by lia.
      rewrite Z.land_spec, Z.ones_spec_high by lia. apply andb_false_r.
Qed.

Lemma is_power_of_2_inv n :
  is_word n -> is_power_of_2 n = true -> exists k, 0 <= k < 64 /\ n = 2 ^ k.
Proof.
  intros [Hn0 Hn] H. unfold is_power_of_2 in H.
  apply andb_true_iff in H as [Hnz Hland].
  apply negb_true_iff, Z.eqb_neq in Hnz. apply Z.eqb_eq in Hland.
  assert (Hpos : 0 < n) by lia.
  rewrite wsub_small in Hland by lia.
  destruct (Z.log2_spec n Hpos) as [Hlo Hhi].
  pose proof (Z.log2_nonneg n) as Hk.
  exists (Z.log2 n). split.
  - split; [lia|].
    apply (Z.pow_lt_mono_r_iff 2); [lia|lia|].
    unfold wordsz in Hn. lia.
  - destruct (Z.eq_dec n (2 ^ Z.log2 n)) as [|Hne]; [assumption|exfalso].
    assert (Hb1 : Z.testbit n (Z.log2 n) = true) by (apply Z.bit_log2; lia).
    assert (Hlog : Z.log2 (n - 1) = Z.log2 n).
    { apply Z.log2_unique; [lia|]. lia. }
    assert (Hb2 : Z.testbit (n - 1) (Z.log2 n) = true).
    { rewrite <- Hlog. apply Z.bit_log2.
      assert (0 < 2 ^ Z.log2 n) by (apply Z.pow_pos_nonneg; lia). lia. }
    assert (Hb : Z.testbit (Z.land n (n - 1)) (Z.log2 n) = true).
    { rewrite Z.land_spec, Hb1, Hb2. reflexivity. }
    rewrite Hland, Z.bits_0 in Hb. discriminate.
Qed.

(** Masking with [2^k - 1] is reduction modulo [2^k], also after a
    wrap-around of the index. *)
Lemma land_mask_mod k x :
  0 <= k < 64 -> Z.land x (wsub (2 ^ k) 1) = x mod 2 ^ k.
Proof.
  intros Hk.
  assert (0 < 2 ^ k) by (apply Z.pow_pos_nonneg; lia).
  assert (2 ^ k < 2 ^ 64) by (apply Z.pow_lt_mono_r; lia).
  rewrite wsub_small by (unfold wordsz; lia).
  change (2 ^ k - 1) with (Z.pred (2 ^ k)).
  rewrite <- Z.ones_equiv. apply Z.land_ones. lia.
Qed.

Lemma wrap_mod_pow2 k x : 0 <= k < 64 -> wrap x mod 2 ^ k = x mod 2 ^ k.
Proof.
  intros Hk. unfold wrap, wordsz.
  apply Z.mod_mod_divide.
  exists (2 ^ (64 - k)). rewrite <- Z.pow_add_r by lia. f_equal. lia.
Qed.

Global Opaque wordsz.
Global Arguments wrap : simpl never.
Global Arguments wadd : simpl never.
Global Arguments wsub : simpl never.

(** ** Well-formed rings *)

Lemma storage_ok_elim w :
  storage_ok w = true ->
  exists k arr,
    0 <= k < 64 /\ size (ring w) = 2 ^ k /\
    heap w !! queue (ring w) = Some arr /\
    Z.of_nat (length arr) = size (ring w).
Proof.
  unfold storage_ok. intros H.
  remember (is_power_of_2 (size (ring w))) as b eqn:Hb.
  repeat (apply andb_true_iff in H as [H ?]).
  subst b.
  destruct (heap w !! queue (ring w)) as [arr|] eqn:Harr; [|discriminate].
  assert (Hword : is_word (size (ring w))) by (split; lia).
  destruct (is_power_of_2_inv (size (ring w)) Hword H) as (k & Hk & Hsz).
  exists k, arr. repeat split; try lia.
Qed.

Lemma pow2_lt_wordsz k : 0 <= k < 64 -> 2 ^ k < wordsz.
Proof.
  intros Hk. rewrite wordsz_eq. change 18446744073709551616 with (2 ^ 64).
  apply Z.pow_lt_mono_r; lia.
Qed.

Lemma storage_ok_nonnull w : storage_ok w = true -> queue (ring w) <> NULL.
Proof.
  unfold storage_ok. intros H.
  remember (is_power_of_2 (size (ring w))) as b eqn:Hb.
  repeat (apply andb_true_iff in H as [H ?]).
  now apply Z.eqb_neq, negb_true_iff.
Qed.

Lemma storage_ok_intro w k arr :
  0 <= k < 64 -> size (ring w) = 2 ^ k ->
  queue (ring w) <> NULL ->
  heap w !! queue (ring w) = Some arr ->
  Z.of_nat (length arr) = size (ring w) ->
  storage_ok w = true.
Proof.
  intros Hk Hsz Hnn Harr Hlen. unfold storage_ok.
  apply Z.eqb_neq in Hnn. rewrite Hnn.
  rewrite Harr, Hsz, is_power_of_2_pow2 by lia. rewrite <- Hsz.
  pose proof (pow2_lt_wordsz k Hk).
  assert (0 < 2 ^ k) by (apply Z.pow_pos_nonneg; lia).
  repeat (apply andb_true_iff; split); try reflexivity; lia.
Qed.

Lemma ring_wf_storage w : ring_wf w = true -> storage_ok w = true.
Proof.
  unfold ring_wf. intros H.
  remember (storage_ok w) as b eqn:Hb.
  repeat (apply andb_true_iff in H as [H ?]). assumption.
Qed.

Lemma ring_wf_elim w :
  ring_wf w = true ->
  exists k arr,
    0 <= k < 64 /\ size (ring w) = 2 ^ k /\
    is_word (consumer_head (ring w)) /\ is_word (producer_tail (ring w)) /\
    producer_head (ring w) = producer_tail (ring w) /\
    occupied (ring w) < size (ring w) /\
    heap w !! queue (ring w) = Some arr /\
    Z.of_nat (length arr) = size (ring w).
Proof.
  intros H.
  destruct (storage_ok_elim w (ring_wf_storage w H)) as (k & arr & Hk & Hsz & Harr & Hlen).
  exists k, arr. unfold ring_wf in H.
  remember (storage_ok w) as b eqn:Hb.
  repeat (apply andb_true_iff in H as [H ?]).
  unfold is_word. repeat split; try assumption; lia.
Qed.

Lemma ring_wf_intro w k arr :
  0 <= k < 64 -> size (ring w) = 2 ^ k ->
  is_word (consumer_head (ring w)) -> is_word (producer_tail (ring w)) ->
  producer_head (ring w) = producer_tail (ring w) ->
  occupied (ring w) < size (ring w) ->
  queue (ring w) <> NULL ->
  heap w !! queue (ring w) = Some arr ->
  Z.of_nat (length arr) = size (ring w) ->
  ring_wf w = true.
Proof.
  intros Hk Hsz [? ?] [? ?] Hidle Hocc Hnn Harr Hlen. unfold ring_wf.
  rewrite (storage_ok_intro w k arr) by assumption.
  repeat (apply andb_true_iff; split); try reflexivity; lia.
Qed.

(** The slot of a logical index lies inside the array. *)
Lemma slot_bound k i : 0 <= k < 64 -> 0 <= Z.land i (wsub (2 ^ k) 1) < 2 ^ k.
Proof.
  intros Hk. rewrite land_mask_mod by assumption.
  apply Z.mod_pos_bound, Z.pow_pos_nonneg; lia.
Qed.

Lemma slot_wadd k c j :
  0 <= k < 64 -> Z.land (wadd c j) (wsub (2 ^ k) 1) = (c + j) mod 2 ^ k.
Proof.
  intros Hk. rewrite land_mask_mod by assumption. apply wrap_mod_pow2, Hk.
Qed.

(** Two logical indices less than a full lap apart use different slots. *)
Lemma slot_distinct s c i j :
  0 < s -> 0 <= i < j -> j < s -> (c + i) mod s <> (c + j) mod s.
Proof.
  intros Hs Hij Hj Heq.
  assert (H : (c + j - (c + i)) mod s = 0).
  { rewrite Zminus_mod, Heq, Z.sub_diag. apply Z.mod_0_l. lia. }
  replace (c + j - (c + i)) with (j - i) in H by lia.
  rewrite Z.mod_small in H by lia. lia.
Qed.

(** ** The operations on a well-formed ring, sequentially *)

Lemma produce_wait_never fuel p w :
  producer_tail (ring w) <> p -> produce_wait fuel p w = OutOfFuel.
Proof.
  intros Hne. induction fuel as [|fuel IH]; [reflexivity|].
  simpl. unfold bind, atomic_long_read. simpl.
  destruct (Z.eqb_spec (producer_tail (ring w)) p); [contradiction|exact IH].
Qed.

Lemma produce_full fuel v w :
  ~ wsub (producer_head (ring w)) (consumer_head (ring w)) < wsub (size (ring w)) 1 ->
  mpmc_ptr_ring_produce (S fuel) v w = Done (- ENOSPC) w.
Proof.
  intros Hfull. unfold mpmc_ptr_ring_produce, bind, read_size, atomic_long_read.
  simpl. unfold bind, atomic_long_read. simpl.
  destruct (Z.ltb_spec (wsub (producer_head (ring w)) (consumer_head (ring w)))
              (wsub (size (ring w)) 1)); [contradiction|].
  rewrite Z.eqb_refl. reflexivity.
Qed.

Lemma produce_room fuel v w :
  ring_wf w = true -> occupied (ring w) < size (ring w) - 1 ->
  mpmc_ptr_ring_produce (S fuel) v w = Done 0 (enqueued v w).
Proof.
  intros Hwf Hroom.
  destruct (ring_wf_elim w Hwf) as (k & arr & Hk & Hsz & Hc & Hp & Hidle & Hocc & Harr & Hlen).
  unfold occupied in *.
  destruct w as [[q sz ch ph pt] h tr]. simpl in *. subst ph sz.
  assert (Hpow : 0 < 2 ^ k) by (apply Z.pow_pos_nonneg; lia).
  assert (Hmask : wsub (2 ^ k) 1 = 2 ^ k - 1).
  { apply wsub_small. unfold is_word in *.
    assert (2 ^ k < 2 ^ 64) by (apply Z.pow_lt_mono_r; lia).
    rewrite wordsz_eq. change 18446744073709551616 with (2 ^ 64). lia. }
  unfold mpmc_ptr_ring_produce, bind, read_size, atomic_long_read. simpl.
  unfold bind, atomic_long_read, atomic_long_cmpxchg. simpl.
  destruct (Z.ltb_spec (wsub pt ch) (wsub (2 ^ k) 1)) as [_|Hge]; [|lia].
  rewrite Z.eqb_refl. simpl. rewrite Z.eqb_refl.
  unfold WRITE_ONCE_queue, ret. simpl. rewrite Harr.
  pose proof (slot_bound k pt Hk) as Hslot.
  destruct (decide (Z.to_nat (Z.land pt (wsub (2 ^ k) 1)) < length arr)%nat) as [_|Hout];
    [|exfalso; lia].
  simpl. rewrite Z.eqb_refl.
  unfold atomic_long_set, enqueued, set_ring, set_heap. simpl.
  f_equal. f_equal.
  apply map_eq. intros a. rewrite lookup_alter, lookup_insert.
  destruct (decide (q = a)) as [->|]; [|reflexivity].
  rewrite Harr. reflexivity.
Qed.

Lemma consume_empty fuel w :
  consumer_head (ring w) = producer_tail (ring w) ->
  mpmc_ptr_ring_consume (S fuel) w = Done NULL w.
Proof.
  intros Heq. unfold mpmc_ptr_ring_consume, bind, read_size. simpl.
  unfold bind, atomic_long_read. simpl. rewrite Heq, Z.eqb_refl. reflexivity.
Qed.

Lemma consume_nonempty fuel w :
  storage_ok w = true -> consumer_head (ring w) <> producer_tail (ring w) ->
  mpmc_ptr_ring_consume (S fuel) w
  = Done (element w (consumer_head (ring w))) (dequeued w).
Proof.
  intros Hwf Hne.
  destruct (storage_ok_elim w Hwf) as (k & arr & Hk & Hsz & Harr & Hlen).
  unfold mpmc_ptr_ring_consume, bind, read_size. simpl.
  unfold bind, atomic_long_read, READ_ONCE_queue, atomic_long_cmpxchg, element. simpl.
  destruct (Z.eqb_spec (producer_tail (ring w)) (consumer_head (ring w))) as [Heq|_];
    [congruence|].
  rewrite Harr. simpl.
  pose proof (slot_bound k (consumer_head (ring w)) Hk) as Hslot.
  rewrite <- Hsz in Hslot.
  destruct (lookup_lt_is_Some_2 arr (Z.to_nat (Z.land (consumer_head (ring w))
              (wsub (size (ring w)) 1)))) as [e He]; [lia|].
  rewrite He. simpl. rewrite Z.eqb_refl. simpl. rewrite Z.eqb_refl. reflexivity.
Qed.

Lemma occupied_bounds r : 0 <= occupied r < wordsz.
Proof. apply wrap_word. Qed.

Lemma occupied_zero r :
  is_word (consumer_head r) -> is_word (producer_tail r) ->
  (occupied r = 0 <-> consumer_head r = producer_tail r).
Proof.
  intros Hc Hp. split.
  - intros H0. rewrite <- (wadd_wsub (producer_tail r) (consumer_head r) Hp).
    fold (occupied r). rewrite H0. symmetry. now apply wadd_0_r.
  - intros Heq. unfold occupied. rewrite Heq. apply wsub_diag.
Qed.

Lemma occupied_enqueued v w :
  ring_wf w = true -> occupied (ring w) < size (ring w) - 1 ->
  occupied (ring (enqueued v w)) = occupied (ring w) + 1.
Proof.
  intros Hwf Hroom.
  destruct (ring_wf_elim w Hwf) as (k & arr & Hk & Hsz & Hc & Hp & Hidle & Hocc & Harr & Hlen).
  unfold occupied, enqueued. simpl. rewrite Hidle, wsub_wadd_1.
  pose proof (occupied_bounds (ring w)) as Hb. unfold occupied in *.
  pose proof (pow2_lt_wordsz k Hk).
  apply wrap_small. lia.
Qed.

Lemma occupied_dequeued w :
  ring_wf w = true -> consumer_head (ring w) <> producer_tail (ring w) ->
  occupied (ring (dequeued w)) = occupied (ring w) - 1.
Proof.
  intros Hwf Hne.
  destruct (ring_wf_elim w Hwf) as (k & arr & Hk & Hsz & Hc & Hp & Hidle & Hocc & Harr & Hlen).
  unfold occupied, dequeued. simpl. rewrite wsub_wadd_1_r.
  pose proof (occupied_bounds (ring w)) as Hb.
  pose proof (occupied_zero (ring w) Hc Hp) as Hz. unfold occupied in *.
  apply wrap_small. lia.
Qed.

Lemma enqueued_wf v w :
  ring_wf w = true -> occupied (ring w) < size (ring w) - 1 ->
  ring_wf (enqueued v w) = true.
Proof.
  intros Hwf Hroom.
  pose proof (occupied_enqueued v w Hwf Hroom) as Hocc'.
  destruct (ring_wf_elim w Hwf) as (k & arr & Hk & Hsz & Hc & Hp & Hidle & Hocc & Harr & Hlen).
  apply (ring_wf_intro _ k
           (<[Z.to_nat (Z.land (producer_head (ring w)) (wsub (size (ring w)) 1)) := v]> arr));
    simpl; try assumption; try apply wrap_word; try reflexivity.
  - change (occupied (ring (enqueued v w)) < size (ring w)). lia.
  - apply storage_ok_nonnull, ring_wf_storage, Hwf.
  - rewrite lookup_alter_eq, Harr. reflexivity.
  - rewrite length_insert. assumption.
Qed.

Lemma dequeued_wf w :
  ring_wf w = true -> consumer_head (ring w) <> producer_tail (ring w) ->
  ring_wf (dequeued w) = true.
Proof.
  intros Hwf Hne.
  pose proof (occupied_dequeued w Hwf Hne) as Hocc'.
  destruct (ring_wf_elim w Hwf) as (k & arr & Hk & Hsz & Hc & Hp & Hidle & Hocc & Harr & Hlen).
  apply (ring_wf_intro _ k arr); simpl; try assumption; try apply wrap_word.
  - change (occupied (ring (dequeued w)) < size (ring w)). lia.
  - apply storage_ok_nonnull, ring_wf_storage, Hwf.
Qed.

Lemma contents_length w : length (contents w) = Z.to_nat (occupied (ring w)).
Proof. unfold contents. now rewrite length_map, length_seq. Qed.

Lemma contents_lookup w (j : nat) :
  (j < Z.to_nat (occupied (ring w)))%nat ->
  contents w !! j = Some (element w (wadd (consumer_head (ring w)) (Z.of_nat j))).
Proof.
  intros Hj. unfold contents.
  rewrite list_lookup_fmap, lookup_seq_lt by assumption. reflexivity.
Qed.

Lemma contents_enqueued v w :
  ring_wf w = true -> occupied (ring w) < size (ring w) - 1 ->
  contents (enqueued v w) = contents w ++ [v].
Proof.
  intros Hwf Hroom.
  pose proof (occupied_enqueued v w Hwf Hroom) as Hocc'.
  destruct (ring_wf_elim w Hwf) as (k & arr & Hk & Hsz & Hc & Hp & Hidle & Hocc & Harr & Hlen).
  pose proof (occupied_bounds (ring w)) as Hb.
  assert (Hpt : producer_head (ring w) = wadd (consumer_head (ring w)) (occupied (ring w))).
  { rewrite Hidle. symmetry. now apply wadd_wsub. }
  assert (Hpow : 0 < 2 ^ k) by (apply Z.pow_pos_nonneg; lia).
  unfold contents at 1. rewrite Hocc'.
  replace (Z.to_nat (occupied (ring w) + 1)) with (S (Z.to_nat (occupied (ring w)))) by lia.
  rewrite seq_S, map_app. simpl. f_equal.
  - unfold contents. apply map_ext_in. intros j Hj. apply in_seq in Hj.
    unfold element, enqueued. simpl.
    rewrite lookup_alter_eq, Harr. simpl.
    rewrite list_lookup_insert_ne; [reflexivity|].
    rewrite Hpt, Hsz, !slot_wadd by assumption.
    intros Heq. apply Z2Nat.inj in Heq;
      try (apply Z.mod_pos_bound; assumption).
    revert Heq. apply not_eq_sym, slot_distinct; lia.
  - f_equal. unfold element, enqueued. simpl.
    rewrite lookup_alter_eq, Harr. simpl.
    replace (Z.of_nat (Z.to_nat (occupied (ring w)))) with (occupied (ring w)) by lia.
    rewrite <- Hpt.
    rewrite list_lookup_insert_eq; [reflexivity|].
    pose proof (slot_bound k (producer_head (ring w)) Hk). rewrite Hsz. lia.
Qed.

Lemma contents_dequeued w :
  ring_wf w = true -> consumer_head (ring w) <> producer_tail (ring w) ->
  contents w = element w (consumer_head (ring w)) :: contents (dequeued w).
Proof.
  intros Hwf Hne.
  pose proof (occupied_dequeued w Hwf Hne) as Hocc'.
  destruct (ring_wf_elim w Hwf) as (k & arr & Hk & Hsz & Hc & Hp & Hidle & Hocc & Harr & Hlen).
  pose proof (occupied_bounds (ring w)) as Hb.
  pose proof (occupied_zero (ring w) Hc Hp) as Hz.
  unfold contents. rewrite Hocc'.
  replace (Z.to_nat (occupied (ring w))) with (S (Z.to_nat (occupied (ring w) - 1))) by lia.
  simpl. f_equal.
  - rewrite wadd_0_r by assumption. reflexivity.
  - rewrite <- seq_shift, map_map. apply map_ext. intros j.
    unfold element, dequeued. simpl. rewrite wadd_assoc.
    replace (1 + Z.of_nat j) with (Z.of_nat (S j)) by lia. reflexivity.
Qed.

Lemma contents_nil w :
  ring_wf w = true ->
  (contents w = [] <-> consumer_head (ring w) = producer_tail (ring w)).
Proof.
  intros Hwf.
  destruct (ring_wf_elim w Hwf) as (k & arr & Hk & Hsz & Hc & Hp & Hidle & Hocc & Harr & Hlen).
  rewrite <- (occupied_zero (ring w) Hc Hp).
  pose proof (occupied_bounds (ring w)) as Hb.
  pose proof (contents_length w) as Hl. split.
  - intros Hnil. rewrite Hnil in Hl. simpl in Hl. lia.
  - intros H0. apply length_zero_iff_nil. lia.
Qed.

(** ** Construction *)

Lemma fresh_addr_nonnull h : fresh_addr h <> NULL.
Proof.
  unfold fresh_addr. intros Heq.
  pose proof (is_fresh ({[NULL]} ∪ dom h)) as Hf. rewrite Heq in Hf.
  apply Hf. set_solver.
Qed.

Lemma fresh_addr_free (h : gmap Z (list Z)) : h !! fresh_addr h = None.
Proof.
  unfold fresh_addr.
  pose proof (is_fresh ({[NULL]} ∪ dom h)) as Hf.
  apply not_elem_of_dom. set_solver.
Qed.

Lemma init_invalid sz ok w :
  is_power_of_2 (int_to_size_t sz) = false ->
  mpmc_ptr_ring_init sz ok w = Done (- EINVAL) w.
Proof. intros H. unfold mpmc_ptr_ring_init. rewrite H. reflexivity. Qed.

Lemma init_allocated sz w :
  is_power_of_2 (int_to_size_t sz) = true ->
  int_to_size_t sz * 8 < wordsz ->
  mpmc_ptr_ring_init sz true w = Done 0 (initialised (int_to_size_t sz) w).
Proof.
  intros H Hfit. unfold mpmc_ptr_ring_init. rewrite H. simpl.
  unfold bind, set_size, atomic_long_set, kcalloc, set_queue. simpl.
  destruct (Z.ltb_spec (int_to_size_t sz * 8) wordsz) as [_|]; [|lia].
  simpl.
  destruct (Z.eqb_spec (fresh_addr (heap w)) NULL) as [Hnull|_].
  - now apply fresh_addr_nonnull in Hnull.
  - reflexivity.
Qed.

Lemma init_enomem sz ok w :
  is_power_of_2 (int_to_size_t sz) = true ->
  ok && (int_to_size_t sz * 8 <? wordsz) = false ->
  mpmc_ptr_ring_init sz ok w = Done (- ENOMEM) (init_failed (int_to_size_t sz) w).
Proof.
  intros H Hfail. unfold mpmc_ptr_ring_init. rewrite H. simpl.
  unfold bind, set_size, atomic_long_set, kcalloc, set_queue. simpl.
  rewrite Hfail. reflexivity.
Qed.

Lemma initialised_wf k w :
  0 <= k < 64 -> ring_wf (initialised (2 ^ k) w) = true.
Proof.
  intros Hk.
  assert (Hpow : 0 < 2 ^ k) by (apply Z.pow_pos_nonneg; lia).
  apply (ring_wf_intro _ k (replicate (Z.to_nat (2 ^ k)) NULL)); simpl;
    try assumption; try reflexivity.
  - split; [lia|apply wordsz_pos].
  - split; [lia|apply wordsz_pos].
  - apply fresh_addr_nonnull.
  - apply lookup_insert_eq.
  - rewrite length_replicate. lia.
Qed.

Lemma initialised_contents n w : contents (initialised n w) = [].
Proof.
  unfold contents, occupied.
  change (producer_tail (ring (initialised n w))) with 0.
  change (consumer_head (ring (initialised n w))) with 0.
  rewrite wsub_diag. reflexivity.
Qed.

(** An [int] that is a power of two stays one as a [size_t]; one that is
    not (zero and the negative ones included) does not become one. *)
Lemma int_pow2_size_t k : 0 <= k < 31 -> int_to_size_t (2 ^ k) = 2 ^ k.
Proof.
  intros Hk. apply wrap_small.
  assert (0 < 2 ^ k) by (apply Z.pow_pos_nonneg; lia).
  pose proof (pow2_lt_wordsz k). lia.
Qed.

Lemma int_not_pow2_size_t sz :
  int_range sz -> ~ (exists k, 0 <= k /\ sz = 2 ^ k) ->
  is_power_of_2 (int_to_size_t sz) = false.
Proof.
  intros [Hlo Hhi] Hnot.
  destruct (is_power_of_2 (int_to_size_t sz)) eqn:Hp; [exfalso|reflexivity].
  destruct (is_power_of_2_inv _ (wrap_word sz) Hp) as (k & Hk & Heq).
  unfold int_to_size_t in Heq.
  destruct (Z_lt_le_dec sz 0) as [Hneg|Hpos].
  - unfold wrap in Heq.
    assert (Hw : sz mod wordsz = sz + wordsz).
    { symmetry. apply (Z.mod_unique _ _ (-1)); rewrite wordsz_eq in *; lia. }
    rewrite Hw in Heq.
    assert (2 ^ k <= 2 ^ 63) by (apply Z.pow_le_mono_r; lia).
    rewrite wordsz_eq in Heq.
    change (2 ^ 63) with 9223372036854775808 in *.
    change (2 ^ 31) with 2147483648 in *. lia.
  - rewrite wrap_small in Heq.
    + apply Hnot. exists k. split; [lia|assumption].
    + rewrite wordsz_eq. change (2 ^ 31) with 2147483648 in *. lia.
Qed.

(** ** Single-consumer peek *)


Lemma peek_empty w :
  consumer_head (ring w) = producer_tail (ring w) ->
  __mpmc_ptr_ring_peek w = Done NULL w.
Proof.
  intros Heq. unfold __mpmc_ptr_ring_peek, bind, read_size, atomic_long_read.
  simpl. rewrite Heq, Z.eqb_refl. reflexivity.
Qed.

Lemma peek_nonempty w :
  storage_ok w = true -> consumer_head (ring w) <> producer_tail (ring w) ->
  __mpmc_ptr_ring_peek w = Done (element w (consumer_head (ring w))) w.
Proof.
  intros Hwf Hne.
  destruct (storage_ok_elim w Hwf) as (k & arr & Hk & Hsz & Harr & Hlen).
  unfold __mpmc_ptr_ring_peek, bind, read_size, atomic_long_read, READ_ONCE_queue, element.
  simpl. destruct (Z.eqb_spec (consumer_head (ring w)) (producer_tail (ring w))) as [|_];
    [contradiction|].
  rewrite Harr. simpl.
  pose proof (slot_bound k (consumer_head (ring w)) Hk) as Hslot.
  rewrite <- Hsz in Hslot.
  destruct (lookup_lt_is_Some_2 arr (Z.to_nat (Z.land (consumer_head (ring w))
              (wsub (size (ring w)) 1)))) as [e He]; [lia|].
  rewrite He. reflexivity.
Qed.


(** ** Sequential executions against a reference queue *)

Lemma occupied_length w : occupied (ring w) = Z.of_nat (length (contents w)).
Proof.
  rewrite contents_length. pose proof (occupied_bounds (ring w)). lia.
Qed.

Lemma do_call_fifo fuel c w :
  ring_wf w = true ->
  exists w',
    do_call (S fuel) c w = Done (fst (fifo_call (size (ring w)) (contents w) c)) w' /\
    ring_wf w' = true /\ size (ring w') = size (ring w) /\
    contents w' = snd (fifo_call (size (ring w)) (contents w) c).
Proof.
  intros Hwf.
  destruct (ring_wf_elim w Hwf) as (k & arr & Hk & Hsz & Hc & Hp & Hidle & Hocc & Harr & Hlen).
  destruct c as [v| |]; simpl.
  - rewrite <- occupied_length.
    destruct (Z.ltb_spec (occupied (ring w)) (size (ring w) - 1)) as [Hroom|Hfull].
    + exists (enqueued v w). simpl.
      split; [now apply produce_room|].
      split; [now apply enqueued_wf|].
      split; [reflexivity|]. now apply contents_enqueued.
    + exists w. simpl. split; [|auto].
      apply produce_full. rewrite Hidle. fold (occupied (ring w)).
      rewrite Hsz in *. pose proof (pow2_lt_wordsz k Hk).
      assert (0 < 2 ^ k) by (apply Z.pow_pos_nonneg; lia).
      rewrite wsub_small by lia. lia.
  - destruct (Z.eq_dec (consumer_head (ring w)) (producer_tail (ring w))) as [Heq|Hne].
    + exists w. rewrite (proj2 (contents_nil w Hwf) Heq). simpl.
      split; [now apply consume_empty|auto].
    + exists (dequeued w). rewrite (contents_dequeued w Hwf Hne). simpl.
      split; [apply consume_nonempty; auto using ring_wf_storage|].
      split; [now apply dequeued_wf|]. split; reflexivity.
  - exists w.
    destruct (Z.eq_dec (consumer_head (ring w)) (producer_tail (ring w))) as [Heq|Hne].
    + rewrite (proj2 (contents_nil w Hwf) Heq). simpl.
      split; [now apply peek_empty|auto].
    + pose proof (contents_dequeued w Hwf Hne) as Hq.
      destruct (contents w) as [|x q]; [discriminate|].
      injection Hq as Hx _. subst x. simpl.
      split; [apply peek_nonempty; auto using ring_wf_storage|auto].
Qed.

Lemma do_calls_fifo fuel cs : forall w,
  ring_wf w = true ->
  exists w',
    do_calls (S fuel) cs w = Done (fst (fifo_calls (size (ring w)) (contents w) cs)) w' /\
    ring_wf w' = true /\ size (ring w') = size (ring w) /\
    contents w' = snd (fifo_calls (size (ring w)) (contents w) cs).
Proof.
  induction cs as [|c cs IH]; intros w Hwf.
  - exists w. simpl. auto.
  - destruct (do_call_fifo fuel c w Hwf) as (w1 & Hrun & Hwf1 & Hsz1 & Hq1).
    destruct (IH w1 Hwf1) as (w2 & Hrun2 & Hwf2 & Hsz2 & Hq2).
    exists w2. cbn [do_calls fifo_calls]. unfold bind. rewrite Hrun, Hrun2.
    rewrite Hsz1, Hq1 in *.
    destruct (fifo_call (size (ring w)) (contents w) c) as [r q'].
    simpl in *. destruct (fifo_calls (size (ring w)) q' cs) as [rs q''].
    simpl in *. split; [reflexivity|]. split; [assumption|]. split; congruence.
Qed.

(** ** What a call can return, on any ring *)

(** A completed sequential produce either reports [-ENOSPC] and changes
    nothing, or found [producer_tail = producer_head], wrote one slot and
    advanced both producer counters by one. *)
Lemma produce_cases fuel v w rc w' :
  mpmc_ptr_ring_produce fuel v w = Done rc w' ->
  (rc = - ENOSPC /\ w' = w /\
   ~ wsub (producer_head (ring w)) (consumer_head (ring w)) < wsub (size (ring w)) 1)
  \/
  (rc = 0 /\
   wsub (producer_head (ring w)) (consumer_head (ring w)) < wsub (size (ring w)) 1 /\
   producer_tail (ring w) = producer_head (ring w) /\
   w' = enqueued v w).
Proof.
  destruct fuel as [|fuel]; [discriminate|].
  unfold mpmc_ptr_ring_produce, bind, read_size, atomic_long_read. simpl.
  unfold bind, atomic_long_read, atomic_long_cmpxchg. simpl.
  destruct (Z.ltb_spec (wsub (producer_head (ring w)) (consumer_head (ring w)))
              (wsub (size (ring w)) 1)) as [Hroom|Hfull].
  - rewrite Z.eqb_refl. simpl. rewrite Z.eqb_refl.
    unfold WRITE_ONCE_queue. simpl.
    destruct (heap w !! queue (ring w)) as [arr|] eqn:Harr; [|discriminate].
    destruct (decide _) as [Hin|]; [|discriminate]. simpl.
    destruct (Z.eqb_spec (producer_tail (ring w)) (producer_head (ring w))) as [Heq|Hne].
    + intros H. inversion H. subst. right. repeat split; try assumption.
      unfold enqueued, atomic_long_set, set_ring, set_heap. simpl. f_equal.
      apply map_eq. intros a. rewrite lookup_alter, lookup_insert.
      destruct (decide (queue (ring w) = a)) as [<-|]; [|reflexivity].
      rewrite Harr. reflexivity.
    + rewrite produce_wait_never by (simpl; assumption). discriminate.
  - rewrite Z.eqb_refl. intros H. inversion H. subst. left.
    repeat split; lia.
Qed.

(** A completed sequential consume either found the ring empty and changed
    nothing, or returned the head slot and advanced [consumer_head]. *)
Lemma consume_cases fuel w x w' :
  mpmc_ptr_ring_consume fuel w = Done x w' ->
  (consumer_head (ring w) = producer_tail (ring w) /\ x = NULL /\ w' = w)
  \/
  (consumer_head (ring w) <> producer_tail (ring w) /\
   x = element w (consumer_head (ring w)) /\ w' = dequeued w).
Proof.
  destruct fuel as [|fuel]; [discriminate|].
  unfold mpmc_ptr_ring_consume, bind, read_size. simpl.
  unfold bind, atomic_long_read, READ_ONCE_queue, atomic_long_cmpxchg, element. simpl.
  destruct (Z.eqb_spec (producer_tail (ring w)) (consumer_head (ring w))) as [Heq|Hne].
  - intros H. inversion H. subst. left. auto.
  - destruct (heap w !! queue (ring w)) as [arr|]; [|discriminate]. simpl.
    destruct (arr !! _) as [e|]; [|discriminate]. simpl.
    rewrite Z.eqb_refl. simpl. rewrite Z.eqb_refl.
    intros H. inversion H. subst. right. auto.
Qed.

Lemma demo_ring_wf : ring_wf demo_ring = true.
Proof. vm_compute. reflexivity. Qed.

Lemma demo_ring_78_wf : ring_wf demo_ring_78 = true.
Proof. vm_compute. reflexivity. Qed.

(** C5: [init] with capacity 0, 3, 5 or any other [int] that is not a power
    of two returns [-EINVAL] and leaves the world (ring, heap, allocator
    trace) as it was; [init] with 1, 2, 4, 1024 or any other power of two
    never returns [-EINVAL]: it returns 0 with a fresh zeroed array when the
    allocation succeeds and [-ENOMEM] when it does not. *)
Theorem init_capacity_validation (sz : Z) (ok : bool) (w : world) :
  int_range sz ->
  (In sz [0; 3; 5] \/ ~ (exists k, 0 <= k /\ sz = 2 ^ k) ->
   mpmc_ptr_ring_init sz ok w = Done (- EINVAL) w) /\
  (In sz [1; 2; 4; 1024] \/ (exists k, 0 <= k /\ sz = 2 ^ k) ->
   mpmc_ptr_ring_init sz ok w
   = if ok then Done 0 (initialised sz w) else Done (- ENOMEM) (init_failed sz w)).
Proof.
  intros Hint. split.
  - intros Hbad. apply init_invalid, int_not_pow2_size_t; [assumption|].
    destruct Hbad as [Hin|Hnot]; [|assumption].
    intros (k & Hk & Heq).
    assert (Hk3 : k < 3).
    { apply (Z.pow_lt_mono_r_iff 2); [lia|lia|].
      change (2 ^ 3) with 8. simpl in Hin. lia. }
    assert (Hk' : k = 0 \/ k = 1 \/ k = 2) by lia.
    simpl in Hin.
    destruct Hk' as [-> | [-> | ->]]; simpl in Heq; lia.
  - intros Hgood.
    assert (Hpow : exists k, 0 <= k < 31 /\ sz = 2 ^ k).
    { destruct Hgood as [Hin|(k & Hk & Heq)].
      - simpl in Hin.
        destruct Hin as [H|[H|[H|[H|H]]]]; try contradiction; subst sz;
          [exists 0|exists 1|exists 2|exists 10]; split; (lia || reflexivity).
      - exists k. split; [|assumption]. split; [lia|].
        apply (Z.pow_lt_mono_r_iff 2); [lia|lia|].
        destruct Hint. lia. }
    destruct Hpow as (k & Hk & ->).
    assert (H31 : 2 ^ k < 2 ^ 31) by (apply Z.pow_lt_mono_r; lia).
    change (2 ^ 31) with 2147483648 in H31.
    pose proof (int_pow2_size_t k Hk) as Hconv.
    assert (Hp2 : is_power_of_2 (int_to_size_t (2 ^ k)) = true).
    { rewrite Hconv. apply is_power_of_2_pow2. lia. }
    assert (Hfit : int_to_size_t (2 ^ k) * 8 < wordsz).
    { rewrite Hconv, wordsz_eq. lia. }
    destruct ok.
    + rewrite init_allocated by assumption. now rewrite Hconv.
    + rewrite (init_enomem _ false) by (assumption || reflexivity).
      now rewrite Hconv.
Qed.

Lemma init_capacity_validation_witness :
  mpmc_ptr_ring_init 3 true blank = Done (- EINVAL) blank /\
  mpmc_ptr_ring_init 1024 true blank = Done 0 (initialised 1024 blank).
Proof.
  assert (H3 : int_range 3) by (unfold int_range; lia).
  assert (H1024 : int_range 1024) by (unfold int_range; lia).
  split.
  - apply (proj1 (init_capacity_validation 3 true blank H3)).
    left. simpl. tauto.
  - apply (proj2 (init_capacity_validation 1024 true blank H1024)).
    left. simpl. tauto.
Defined.

(** C7, as stated, fails: an [init] whose allocation fails has already
    overwritten [size] and the three counters, and then stores the null
    result in [queue]. *)
Lemma init_enomem_overwrites_ring :
  exists w',
    mpmc_ptr_ring_init 4 false stale = Done (- ENOMEM) w' /\
    ring w' <> ring stale /\
    ring w' = Ring NULL 4 0 0 0.
Proof.
  exists (init_failed 4 stale). split; [reflexivity|].
  split; [discriminate|reflexivity].
Qed.

(** C7, amended: when [init] returns [-ENOMEM] nothing has been allocated
    (the heap is as before and [queue] is null) and the only outside effect
    is the failed [kcalloc] call; the ring structure itself has been
    overwritten: [size] holds the requested capacity and the three counters
    are 0. *)
Theorem init_enomem_state (sz : Z) (ok : bool) (w w' : world) :
  mpmc_ptr_ring_init sz ok w = Done (- ENOMEM) w' ->
  ring w' = Ring NULL (int_to_size_t sz) 0 0 0 /\
  heap w' = heap w /\
  trace w' = trace w ++ [EvKcalloc (int_to_size_t sz) NULL].
Proof.
  unfold mpmc_ptr_ring_init.
  destruct (is_power_of_2 (int_to_size_t sz)); simpl; [|discriminate].
  unfold bind, set_size, atomic_long_set, kcalloc, set_queue. simpl.
  destruct (ok && (int_to_size_t sz * 8 <? wordsz)); simpl.
  - destruct (Z.eqb_spec (fresh_addr (heap w)) NULL) as [Hnull|_].
    + now apply fresh_addr_nonnull in Hnull.
    + discriminate.
  - intros H. inversion H. subst. simpl. auto.
Qed.

Lemma init_enomem_state_witness :
  ring (init_failed 4 stale) = Ring NULL (int_to_size_t 4) 0 0 0 /\
  heap (init_failed 4 stale) = heap stale /\
  trace (init_failed 4 stale) = trace stale ++ [EvKcalloc (int_to_size_t 4) NULL].
Proof.
  apply (init_enomem_state 4 false stale (init_failed 4 stale)). reflexivity.
Defined.



(** ** The reference queue on runs of produces and of consumes *)

Lemma fifo_produce_zeros cap vs : forall q,
  fst (fifo_calls cap q (map Produce vs)) = repeat 0 (length vs) ->
  snd (fifo_calls cap q (map Produce vs)) = q ++ vs /\
  Z.of_nat (length (q ++ vs)) <= Z.max (Z.of_nat (length q)) (cap - 1).
Proof.
  induction vs as [|v vs IH]; intros q H.
  - simpl. rewrite app_nil_r. split; [reflexivity|lia].
  - cbn [map fifo_calls fifo_call] in *.
    destruct (Z.ltb_spec (Z.of_nat (length q)) (cap - 1)) as [Hroom|Hfull].
    + destruct (fifo_calls cap (q ++ [v]) (map Produce vs)) as [rs q'] eqn:Hrec.
      simpl in H. injection H as H.
      specialize (IH (q ++ [v])). rewrite Hrec in IH. simpl in IH.
      destruct (IH H) as [Hq Hlen]. simpl.
      rewrite <- app_assoc in Hq, Hlen. simpl in Hq, Hlen.
      split; [assumption|]. rewrite length_app in Hlen. simpl in Hlen.
      rewrite !length_app in *. simpl in *. lia.
    + destruct (fifo_calls cap q (map Produce vs)) as [rs q'].
      simpl in H. discriminate.
Qed.

Lemma fifo_produce_room cap vs : forall q,
  Z.of_nat (length q + length vs) <= cap - 1 ->
  fifo_calls cap q (map Produce vs) = (repeat 0 (length vs), q ++ vs).
Proof.
  induction vs as [|v vs IH]; intros q H.
  - simpl. now rewrite app_nil_r.
  - cbn [map fifo_calls fifo_call]. simpl in H.
    destruct (Z.ltb_spec (Z.of_nat (length q)) (cap - 1)) as [_|Hfull]; [|lia].
    rewrite IH by (rewrite length_app; simpl; lia).
    rewrite <- app_assoc. reflexivity.
Qed.

Lemma fifo_consume_all cap q :
  fifo_calls cap q (repeat Consume (length q)) = (q, []).
Proof.
  induction q as [|x q IH]; [reflexivity|].
  cbn [length repeat fifo_calls fifo_call]. rewrite IH. reflexivity.
Qed.

(** A capacity-1 queue never accepts anything. *)
Lemma fifo_capacity_one cs :
  fifo_calls 1 [] cs
  = (map (fun c => match c with Produce _ => - ENOSPC | _ => NULL end) cs, []).
Proof.
  induction cs as [|c cs IH]; [reflexivity|].
  cbn [fifo_calls map]. destruct c; simpl; rewrite IH; reflexivity.
Qed.

Lemma produce_size_one fuel v w :
  size (ring w) = 1 -> mpmc_ptr_ring_produce (S fuel) v w = Done (- ENOSPC) w.
Proof.
  intros Hsz. apply produce_full. rewrite Hsz, wsub_diag.
  pose proof (wrap_word (producer_head (ring w) - consumer_head (ring w))) as [H0 _].
  unfold wsub. lia.
Qed.

Lemma do_calls_size_one fuel cs w :
  size (ring w) = 1 -> consumer_head (ring w) = producer_tail (ring w) ->
  do_calls (S fuel) cs w
  = Done (map (fun c => match c with Produce _ => - ENOSPC | _ => NULL end) cs) w.
Proof.
  intros Hsz Hempty. induction cs as [|c cs IH]; [reflexivity|].
  cbn [do_calls map]. unfold bind.
  destruct c as [v| |]; cbn [do_call].
  - rewrite produce_size_one by assumption. rewrite IH. reflexivity.
  - rewrite consume_empty by assumption. rewrite IH. reflexivity.
  - rewrite peek_empty by assumption. rewrite IH. reflexivity.
Qed.

(** C10: [init] with capacity 1 succeeds, yet on a ring of size 1 every
    produce returns [-ENOSPC] and changes nothing, whatever the counters,
    the heap and the history are: the room test compares an unsigned
    difference against [size - 1 = 0].  Hence after [init(1)] any sequence
    of produce, consume and peek calls leaves the ring as constructed and
    empty: produces answer [-ENOSPC], consumes and peeks answer [NULL]. *)
Theorem capacity_one_always_full (fuel : nat) (v : Z) (w : world)
    (q ch ph pt : Z) (h : gmap Z (list Z)) (tr : list event) (cs : list call) :
  mpmc_ptr_ring_init 1 true w = Done 0 (initialised 1 w) /\
  mpmc_ptr_ring_produce (S fuel) v (World (Ring q 1 ch ph pt) h tr)
  = Done (- ENOSPC) (World (Ring q 1 ch ph pt) h tr) /\
  do_calls (S fuel) cs (initialised 1 w)
  = Done (map (fun c => match c with Produce _ => - ENOSPC | _ => NULL end) cs)
         (initialised 1 w) /\
  contents (initialised 1 w) = [].
Proof.
  split; [|split; [|split]].
  - apply (init_allocated 1 w); [reflexivity|]. rewrite wordsz_eq. reflexivity.
  - now apply produce_size_one.
  - now apply do_calls_size_one.
  - apply initialised_contents.
Qed.

Lemma do_calls_done_inv fuel cs w rs w' :
  ring_wf w = true ->
  do_calls (S fuel) cs w = Done rs w' ->
  rs = fst (fifo_calls (size (ring w)) (contents w) cs) /\
  ring_wf w' = true /\ size (ring w') = size (ring w) /\
  contents w' = snd (fifo_calls (size (ring w)) (contents w) cs).
Proof.
  intros Hwf Hrun.
  destruct (do_calls_fifo fuel cs w Hwf) as (u & Hu & Hrest).
  rewrite Hu in Hrun. inversion Hrun. subst. auto.
Qed.

(** C1: in a sequential execution the ring is a first-in first-out queue.
    If the produces of [v1 .. vn] on a well-formed ring all return 0, the
    following consumes return what the ring held before, then [v1 .. vn] in
    that order, and leave the ring empty (the next consume returns [NULL]);
    on an empty ring they return exactly [v1 .. vn].  In particular a
    successful [produce(v)] on an empty ring followed by [consume()] returns
    [v], and that produce does succeed when the ring has at least two slots.
    More generally every sequence of produce, consume and peek calls answers
    as the reference queue does. *)
Theorem fifo_order (fuel : nat) (w w1 : world) (vs : list Z) :
  ring_wf w = true ->
  do_calls (S fuel) (map Produce vs) w = Done (repeat 0 (length vs)) w1 ->
  (exists w2,
     do_calls (S fuel) (repeat Consume (length (contents w ++ vs))) w1
     = Done (contents w ++ vs) w2 /\
     contents w2 = [] /\
     mpmc_ptr_ring_consume (S fuel) w2 = Done NULL w2) /\
  (contents w = [] ->
   (exists w2, do_calls (S fuel) (repeat Consume (length vs)) w1 = Done vs w2) /\
   (forall v u, mpmc_ptr_ring_produce (S fuel) v w = Done 0 u ->
      exists u', mpmc_ptr_ring_consume (S fuel) u = Done v u' /\ contents u' = []) /\
   (2 <= size (ring w) ->
      forall v, mpmc_ptr_ring_produce (S fuel) v w = Done 0 (enqueued v w))) /\
  (forall cs, exists w',
     do_calls (S fuel) cs w = Done (fst (fifo_calls (size (ring w)) (contents w) cs)) w' /\
     contents w' = snd (fifo_calls (size (ring w)) (contents w) cs)).
Proof.
  intros Hwf Hprod.
  destruct (do_calls_done_inv _ _ _ _ _ Hwf Hprod) as (Hrs & Hwf1 & Hsz1 & Hq1).
  destruct (fifo_produce_zeros _ _ _ (eq_sym Hrs)) as [Hsnd _].
  rewrite Hsnd in Hq1.
  assert (Hdrain : exists w2,
     do_calls (S fuel) (repeat Consume (length (contents w ++ vs))) w1
     = Done (contents w ++ vs) w2 /\ contents w2 = [] /\
     mpmc_ptr_ring_consume (S fuel) w2 = Done NULL w2).
  { destruct (do_calls_fifo fuel (repeat Consume (length (contents w ++ vs))) w1 Hwf1)
      as (w2 & Hrun & Hwf2 & _ & Hq2).
    rewrite Hq1, fifo_consume_all in Hrun, Hq2. simpl in Hrun, Hq2.
    exists w2. split; [assumption|]. split; [assumption|].
    apply consume_empty. now apply contents_nil. }
  split; [exact Hdrain|]. split.
  - intros Hempty. rewrite Hempty in Hdrain. simpl in Hdrain.
    split; [destruct Hdrain as (w2 & H2 & _); now exists w2|]. split.
    + intros v u Hu.
      destruct (produce_cases _ _ _ _ _ Hu) as [(Hrc & _)|(_ & Hroom & Hidle & ->)];
        [discriminate|].
      assert (Hocc : occupied (ring w) < size (ring w) - 1).
      { destruct (ring_wf_elim w Hwf) as (k & arr & Hk & Hsz & Hc & Hp & Hid & _).
        unfold occupied. rewrite <- Hid. rewrite Hsz in *.
        pose proof (pow2_lt_wordsz k Hk).
        assert (0 < 2 ^ k) by (apply Z.pow_pos_nonneg; lia).
        rewrite (wsub_small (2 ^ k) 1) in Hroom by lia. exact Hroom. }
      pose proof (contents_enqueued v w Hwf Hocc) as Hq.
      pose proof (enqueued_wf v w Hwf Hocc) as Hwfu.
      rewrite Hempty in Hq. simpl in Hq.
      assert (Hne : consumer_head (ring (enqueued v w)) <> producer_tail (ring (enqueued v w))).
      { intros Heq. apply (contents_nil _ Hwfu) in Heq. congruence. }
      exists (dequeued (enqueued v w)).
      pose proof (contents_dequeued _ Hwfu Hne) as Hd. rewrite Hq in Hd.
      injection Hd as Hv Hnil.
      rewrite (consume_nonempty fuel _ (ring_wf_storage _ Hwfu) Hne).
      split; [f_equal; symmetry; exact Hv|]. now symmetry.
    + intros H2 v. apply produce_room; [assumption|].
      rewrite occupied_length, Hempty. simpl. lia.
  - intros cs. destruct (do_calls_fifo fuel cs w Hwf) as (w' & Hrun & _ & _ & Hq).
    exists w'. auto.
Qed.

Lemma fifo_order_witness :
  exists w2,
    do_calls 1 (repeat Consume 2) demo_ring_78 = Done [7; 8] w2 /\
    contents w2 = [] /\ mpmc_ptr_ring_consume 1 w2 = Done NULL w2.
Proof.
  apply (proj1 (fifo_order 0 demo_ring demo_ring_78 [7; 8] demo_ring_wf eq_refl)).
Defined.

(** C2: on a ring constructed with capacity [C = 2^k], the first [C - 1]
    produces (no consume in between) all return 0; the [C]-th returns
    [-ENOSPC] and leaves the world as it was; and when an element is held
    ([C >= 2]) one consume returns the oldest value, after which the next
    produce returns 0 again. *)
Theorem capacity_bound (fuel : nat) (k : Z) (vs : list Z) (v : Z) (w : world) :
  0 <= k < 31 -> Z.of_nat (length vs) = 2 ^ k - 1 ->
  mpmc_ptr_ring_init (2 ^ k) true w = Done 0 (initialised (2 ^ k) w) /\
  exists w1,
    do_calls (S fuel) (map Produce vs) (initialised (2 ^ k) w)
    = Done (repeat 0 (length vs)) w1 /\
    contents w1 = vs /\
    mpmc_ptr_ring_produce (S fuel) v w1 = Done (- ENOSPC) w1 /\
    (vs <> [] ->
     mpmc_ptr_ring_consume (S fuel) w1 = Done (hd NULL vs) (dequeued w1) /\
     mpmc_ptr_ring_produce (S fuel) v (dequeued w1)
     = Done 0 (enqueued v (dequeued w1)) /\
     contents (enqueued v (dequeued w1)) = tl vs ++ [v]).
Proof.
  intros Hk Hlen.
  assert (Hpow : 0 < 2 ^ k) by (apply Z.pow_pos_nonneg; lia).
  assert (H31 : 2 ^ k < 2 ^ 31) by (apply Z.pow_lt_mono_r; lia).
  change (2 ^ 31) with 2147483648 in H31.
  pose proof (int_pow2_size_t k Hk) as Hconv.
  split.
  { rewrite <- Hconv at 2. apply init_allocated.
    - rewrite Hconv. apply is_power_of_2_pow2. lia.
    - rewrite Hconv, wordsz_eq. lia. }
  pose proof (initialised_wf k w ltac:(lia)) as Hwf0.
  pose proof (initialised_contents (2 ^ k) w) as Hq0.
  destruct (do_calls_fifo fuel (map Produce vs) _ Hwf0) as (w1 & Hrun & Hwf1 & Hsz1 & Hq1).
  change (size (ring (initialised (2 ^ k) w))) with (2 ^ k) in *.
  rewrite Hq0, fifo_produce_room in Hrun, Hq1 by (simpl; lia).
  simpl in Hrun, Hq1.
  exists w1. split; [assumption|]. split; [assumption|].
  assert (Hocc1 : occupied (ring w1) = 2 ^ k - 1).
  { rewrite occupied_length, Hq1. assumption. }
  destruct (ring_wf_elim w1 Hwf1) as (k1 & arr & Hk1 & Hsz & Hc & Hp & Hidle & _).
  split.
  { apply produce_full. rewrite Hidle. fold (occupied (ring w1)).
    rewrite Hocc1, Hsz1. pose proof (pow2_lt_wordsz k ltac:(lia)).
    rewrite wsub_small by lia. lia. }
  intros Hne.
  assert (Hne1 : consumer_head (ring w1) <> producer_tail (ring w1)).
  { intros Heq. apply (contents_nil _ Hwf1) in Heq. congruence. }
  pose proof (contents_dequeued w1 Hwf1 Hne1) as Hd.
  pose proof (dequeued_wf w1 Hwf1 Hne1) as Hwf2.
  pose proof (occupied_dequeued w1 Hwf1 Hne1) as Hocc2.
  assert (Hroom : occupied (ring (dequeued w1)) < size (ring (dequeued w1)) - 1).
  { change (size (ring (dequeued w1))) with (size (ring w1)). lia. }
  rewrite Hq1 in Hd.
  split; [|split].
  - rewrite (consume_nonempty fuel w1 (ring_wf_storage _ Hwf1) Hne1).
    rewrite Hd. reflexivity.
  - now apply produce_room.
  - rewrite (contents_enqueued v _ Hwf2 Hroom), Hd. reflexivity.
Qed.

Lemma capacity_bound_witness :
  exists w1,
    do_calls 1 (map Produce [7; 8; 9]) (initialised (2 ^ 2) blank)
    = Done (repeat 0 3) w1 /\
    contents w1 = [7; 8; 9] /\
    mpmc_ptr_ring_produce 1 10 w1 = Done (- ENOSPC) w1 /\
    mpmc_ptr_ring_produce 1 10 (dequeued w1) = Done 0 (enqueued 10 (dequeued w1)).
Proof.
  destruct (capacity_bound 0 2 [7; 8; 9] 10 blank ltac:(lia) eq_refl)
    as (_ & w1 & Hrun & Hq & Hfull & Hnext).
  exists w1. repeat split; try assumption.
  apply Hnext. discriminate.
Defined.

(** C9: produce does not look at the pointer it is given: on a well-formed
    ring [produce(NULL)] returns whatever [produce(v)] returns for any other
    [v]; when it succeeds the null pointer is held as an element, and the
    consume that dequeues it returns [NULL] having advanced [consumer_head],
    which is also what consume returns, without advancing, on the empty
    ring. *)
Theorem null_is_enqueued (fuel : nat) (v : Z) (w : world) :
  ring_wf w = true ->
  (forall rc u, mpmc_ptr_ring_produce (S fuel) v w = Done rc u ->
     exists u0, mpmc_ptr_ring_produce (S fuel) NULL w = Done rc u0) /\
  (contents w = [] -> 2 <= size (ring w) ->
   mpmc_ptr_ring_produce (S fuel) NULL w = Done 0 (enqueued NULL w) /\
   contents (enqueued NULL w) = [NULL] /\
   mpmc_ptr_ring_consume (S fuel) (enqueued NULL w)
   = Done NULL (dequeued (enqueued NULL w)) /\
   occupied (ring (enqueued NULL w)) = 1 /\
   occupied (ring (dequeued (enqueued NULL w))) = 0 /\
   mpmc_ptr_ring_consume (S fuel) w = Done NULL w).
Proof.
  intros Hwf. split.
  - intros rc u Hu.
    destruct (do_call_fifo fuel (Produce v) w Hwf) as (u1 & H1 & _).
    destruct (do_call_fifo fuel (Produce NULL) w Hwf) as (u0 & H0 & _).
    cbn [do_call] in H0, H1. rewrite Hu in H1. inversion H1. subst.
    exists u0. rewrite H0. simpl.
    destruct (Z.of_nat (length (contents w)) <? size (ring w) - 1); reflexivity.
  - intros Hempty Hsz.
    assert (Hroom : occupied (ring w) < size (ring w) - 1).
    { rewrite occupied_length, Hempty. simpl. lia. }
    pose proof (contents_enqueued NULL w Hwf Hroom) as Hq.
    pose proof (enqueued_wf NULL w Hwf Hroom) as Hwfu.
    pose proof (occupied_enqueued NULL w Hwf Hroom) as Hocc.
    rewrite Hempty in Hq. simpl in Hq.
    assert (Hne : consumer_head (ring (enqueued NULL w))
                  <> producer_tail (ring (enqueued NULL w))).
    { intros Heq. apply (contents_nil _ Hwfu) in Heq. congruence. }
    pose proof (contents_dequeued _ Hwfu Hne) as Hd. rewrite Hq in Hd.
    injection Hd as Hv _.
    pose proof (occupied_dequeued _ Hwfu Hne) as Hocc'.
    assert (Hocc0 : occupied (ring w) = 0).
    { rewrite occupied_length, Hempty. reflexivity. }
    split; [now apply produce_room|]. split; [assumption|].
    split; [|split; [lia|split; [lia|]]].
    + rewrite (consume_nonempty fuel _ (ring_wf_storage _ Hwfu) Hne).
      f_equal. symmetry. exact Hv.
    + apply consume_empty. now apply contents_nil.
Qed.

Lemma null_is_enqueued_witness :
  mpmc_ptr_ring_produce 1 NULL demo_ring = Done 0 (enqueued NULL demo_ring) /\
  mpmc_ptr_ring_consume 1 (enqueued NULL demo_ring)
  = Done NULL (dequeued (enqueued NULL demo_ring)) /\
  mpmc_ptr_ring_consume 1 demo_ring = Done NULL demo_ring.
Proof.
  destruct (proj2 (null_is_enqueued 0 NULL demo_ring demo_ring_wf))
    as (Hp & _ & Hc & _ & _ & He).
  - reflexivity.
  - vm_compute. discriminate.
  - auto.
Defined.

Lemma counters_ordered_occupied r :
  counters_ordered r -> occupied r = producer_tail r - consumer_head r.
Proof.
  intros (H0 & Hcp & Hpp & Hw). unfold occupied. apply wsub_small. lia.
Qed.

(** ** Teardown: proofs *)

Lemma cleanup_loop_drains cf : forall (q : list Z) (fuel : nat) (w : world),
  ring_wf w = true -> contents w = q ->
  Forall (fun x => x <> NULL) q ->
  (length q < fuel)%nat ->
  cleanup_loop fuel (S cf) w = Done tt (drained w).
Proof.
  induction q as [|x q IH]; intros fuel w Hwf Hq Hnn Hfuel.
  - destruct fuel as [|fuel]; [simpl in Hfuel; lia|].
    pose proof (proj1 (contents_nil w Hwf) Hq) as Hempty.
    cbn [cleanup_loop]. unfold bind.
    rewrite consume_empty by assumption. simpl.
    unfold ret, drained. rewrite Hq, <- Hempty. simpl. rewrite app_nil_r.
    destruct w as [[a sz ch ph pt] h tr]. reflexivity.
  - destruct fuel as [|fuel]; [simpl in Hfuel; lia|].
    assert (Hne : consumer_head (ring w) <> producer_tail (ring w)).
    { intros Heq. apply (contents_nil w Hwf) in Heq. congruence. }
    pose proof (contents_dequeued w Hwf Hne) as Hd. rewrite Hq in Hd.
    injection Hd as Hx Hq'.
    apply Forall_cons in Hnn as [Hxn Hnn].
    cbn [cleanup_loop]. unfold bind.
    rewrite (consume_nonempty cf w (ring_wf_storage _ Hwf) Hne), <- Hx.
    destruct (Z.eqb_spec x NULL) as [|_]; [contradiction|].
    unfold call_destroy.
    rewrite (IH fuel (log (EvDestroy x) (dequeued w))).
    + unfold drained. f_equal.
      change (contents (log (EvDestroy x) (dequeued w))) with (contents (dequeued w)).
      rewrite <- Hq', Hq. simpl. rewrite <- app_assoc. reflexivity.
    + change (ring_wf (log (EvDestroy x) (dequeued w))) with (ring_wf (dequeued w)).
      now apply dequeued_wf.
    + symmetry. exact Hq'.
    + assumption.
    + simpl in Hfuel. lia.
Qed.

(** C6, as stated, fails: without a destructor nothing is consumed, the
    ring still holds its two elements when the array is freed. *)
Lemma cleanup_without_destroy_keeps_elements :
  exists w',
    mpmc_ptr_ring_cleanup 3 false demo_ring_78 = Done tt w' /\
    contents demo_ring_78 = [7; 8] /\
    ring w' = ring demo_ring_78 /\
    occupied (ring w') = 2 /\
    trace w' = trace demo_ring_78 ++ [EvKfree (queue (ring demo_ring_78))].
Proof.
  eexists. split; [vm_compute; reflexivity|].
  repeat split; vm_compute; reflexivity.
Qed.

(** C6, amended: on a quiescent well-formed ring holding [K] non-null
    elements, teardown with a destructor drains the ring to empty by
    repeated consume and calls the destructor exactly [K] times, once on
    each held element, oldest first, and only then frees the backing array;
    teardown without a destructor consumes nothing and only frees the
    backing array. *)
Theorem cleanup_drains_and_destroys (fuel : nat) (w : world) :
  ring_wf w = true ->
  Forall (fun x => x <> NULL) (contents w) ->
  (length (contents w) < fuel)%nat ->
  mpmc_ptr_ring_cleanup fuel true w
  = Done tt (World (store ConsumerHead (producer_tail (ring w)) (ring w))
                   (delete (queue (ring w)) (heap w))
                   (trace w ++ map EvDestroy (contents w)
                            ++ [EvKfree (queue (ring w))])) /\
  mpmc_ptr_ring_cleanup fuel false w
  = Done tt (World (ring w)
                   (delete (queue (ring w)) (heap w))
                   (trace w ++ [EvKfree (queue (ring w))])).
Proof.
  intros Hwf Hnn Hfuel.
  pose proof (ring_wf_storage w Hwf) as Hst.
  pose proof (storage_ok_nonnull w Hst) as Hq.
  destruct (storage_ok_elim w Hst) as (k & arr & Hk & Hsz & Harr & Hlen).
  apply Z.eqb_neq in Hq.
  split.
  - unfold mpmc_ptr_ring_cleanup, bind.
    destruct fuel as [|fuel]; [lia|].
    rewrite (cleanup_loop_drains fuel (contents w) (S fuel) w) by auto.
    unfold read_queue, kfree, drained.
    cbn [ring heap trace queue store].
    rewrite Hq, Harr. unfold log, set_heap. simpl.
    rewrite <- app_assoc. reflexivity.
  - unfold mpmc_ptr_ring_cleanup, bind, ret, read_queue, kfree.
    rewrite Hq, Harr. reflexivity.
Qed.

Lemma cleanup_drains_and_destroys_witness :
  mpmc_ptr_ring_cleanup 3 true demo_ring_78
  = Done tt (World (store ConsumerHead (producer_tail (ring demo_ring_78))
                      (ring demo_ring_78))
                   (delete (queue (ring demo_ring_78)) (heap demo_ring_78))
                   (trace demo_ring_78 ++ map EvDestroy (contents demo_ring_78)
                      ++ [EvKfree (queue (ring demo_ring_78))])).
Proof.
  apply (cleanup_drains_and_destroys 3 demo_ring_78 demo_ring_78_wf).
  - vm_compute. repeat constructor; discriminate.
  - vm_compute. lia.
Defined.

(** A held null pointer ends the drain loop early: the null element is
    consumed, but neither it nor the elements behind it reach [destroy]. *)
Example cleanup_stops_at_null :
  let w := enqueued 9 (enqueued NULL (enqueued 7 demo_ring)) in
  contents w = [7; NULL; 9] /\
  exists w',
    mpmc_ptr_ring_cleanup 5 true w = Done tt w' /\
    trace w' = trace w ++ [EvDestroy 7; EvKfree (queue (ring w))] /\
    occupied (ring w') = 1.
Proof.
  split; [vm_compute; reflexivity|].
  eexists. split; [vm_compute; reflexivity|].
  split; vm_compute; reflexivity.
Qed.

(** * Concurrent consumers: proofs *)

Lemma thread_inv_mono w0 k k' t :
  (k <= k')%nat -> thread_inv w0 k t -> thread_inv w0 k' t.
Proof.
  intros Hk. destruct t; simpl; auto.
  - intros (Hm & j & Hj & Hc). split; [assumption|]. exists j. split; [lia|assumption].
  - intros (Hm & j & Hj & Hc). split; [assumption|]. exists j. split; [lia|assumption].
  - intros (Hm & j & Hj & Hc). split; [assumption|]. exists j. split; [lia|assumption].
Qed.

Lemma successes_app rs tid r :
  successes (rs ++ [(tid, r)])
  = successes rs ++ match r with
                    | RetElement element => [element]
                    | RetEmpty => []
                    end.
Proof.
  unfold successes. rewrite omap_app. simpl. destruct r; reflexivity.
Qed.

Lemma wsub_wadd_r p c j : wsub p (wadd c j) = wrap (wsub p c - j).
Proof.
  unfold wadd, wsub, wrap.
  rewrite Zminus_mod_idemp_r, Zminus_mod_idemp_l. f_equal. lia.
Qed.

Lemma occupied_advance k w :
  (k <= length (contents w))%nat ->
  occupied (ring (advance k w)) = occupied (ring w) - Z.of_nat k.
Proof.
  intros Hk. rewrite contents_length in Hk.
  pose proof (occupied_bounds (ring w)) as Hb.
  unfold occupied, advance in *. simpl. rewrite wsub_wadd_r.
  apply wrap_small. lia.
Qed.

Lemma contents_advance k w :
  (k <= length (contents w))%nat ->
  contents (advance k w) = drop k (contents w).
Proof.
  intros Hk. pose proof (occupied_advance k w Hk) as Hocc.
  rewrite contents_length in Hk.
  unfold contents at 1. rewrite Hocc.
  unfold contents. rewrite <- fmap_drop, drop_seq. simpl.
  replace (Z.to_nat (occupied (ring w) - Z.of_nat k))
    with (Z.to_nat (occupied (ring w)) - k)%nat by lia.
  rewrite <- (Nat.add_0_r k) at 2. rewrite <- fmap_add_seq.
  rewrite <- list_fmap_compose. apply map_ext. intros i.
  unfold element, advance, compose. simpl. rewrite wadd_assoc.
  replace (Z.of_nat k + Z.of_nat i) with (Z.of_nat (k + i)) by lia. reflexivity.
Qed.

Lemma sys_inv_silent w0 s tid t' :
  sys_inv w0 s ->
  thread_inv w0 (length (successes (returned s))) t' ->
  sys_inv w0 (System (shared s) (<[tid := t']> (threads s)) (returned s ++ [])).
Proof.
  intros [Hsh Hb Hp Ht He] Ht'. rewrite app_nil_r.
  constructor; simpl; try assumption. now apply Forall_insert.
Qed.

Lemma sys_inv_empty_return w0 s tid :
  sys_inv w0 s ->
  length (successes (returned s)) = length (contents w0) ->
  sys_inv w0 (System (shared s) (<[tid := CIdle]> (threads s))
                     (returned s ++ [(tid, RetEmpty)])).
Proof.
  intros [Hsh Hb Hp Ht He] Hk.
  constructor; simpl; rewrite ?successes_app; simpl; rewrite ?app_nil_r;
    try assumption.
  - apply Forall_insert; [assumption|exact I].
  - intros _. assumption.
Qed.

Lemma sys_inv_success w0 s tid e :
  sys_inv w0 s ->
  contents w0 !! length (successes (returned s)) = Some e ->
  sys_inv w0 (System (advance (S (length (successes (returned s)))) w0)
                     (<[tid := CIdle]> (threads s))
                     (returned s ++ [(tid, RetElement e)])).
Proof.
  intros [Hsh Hb Hp Ht He] Hlook.
  pose proof (lookup_lt_Some _ _ _ Hlook) as Hlt.
  assert (Hsucc : successes (returned s ++ [(tid, RetElement e)])
                  = successes (returned s) ++ [e]).
  { now rewrite successes_app. }
  assert (Hlen : length (successes (returned s ++ [(tid, RetElement e)]))
                 = S (length (successes (returned s)))).
  { rewrite Hsucc, length_app. simpl. lia. }
  constructor; simpl; rewrite ?Hlen.
  - reflexivity.
  - lia.
  - rewrite Hsucc, (take_S_r _ _ _ Hlook), <- Hp. reflexivity.
  - apply Forall_insert; [|exact I].
    eapply Forall_impl; [exact Ht|].
    intros t. apply thread_inv_mono. lia.
  - rewrite map_app, in_app_iff. simpl. intros [Hin|[Heq|[]]].
    + apply He in Hin. lia.
    + discriminate.
Qed.

Lemma sched_step_inv w0 tid s :
  ring_wf w0 = true ->
  sys_inv w0 s ->
  (tid < length (threads s))%nat ->
  exists s',
    sched_step tid s = Some s' /\ sys_inv w0 s' /\
    length (threads s') = length (threads s).
Proof.
  intros Hwf Hinv Htid.
  destruct (ring_wf_elim w0 Hwf) as (kk & arr & Hkk & Hsz & Hc & Hp & Hidle & Hocc & Harr & Hlen).
  pose proof (occupied_length w0) as Hm.
  pose proof (occupied_bounds (ring w0)) as Hmb.
  assert (Hpt : producer_tail (ring w0)
                = wadd (consumer_head (ring w0)) (Z.of_nat (length (contents w0)))).
  { rewrite <- Hm. symmetry. now apply wadd_wsub. }
  destruct (lookup_lt_is_Some_2 _ _ Htid) as [t Hlook].
  pose proof (Forall_lookup_1 _ _ _ _ (inv_threads _ _ Hinv) Hlook) as Ht.
  pose proof (inv_shared _ _ Hinv) as Hsh.
  pose proof (inv_bound _ _ Hinv) as Hb.
  unfold sched_step. rewrite Hlook.
  set (k := length (successes (returned s))) in *.
  destruct t as [|mask|mask c|mask c|mask c e]; simpl in Ht.
  - (* entering a call *)
    eexists. split; [reflexivity|]. split; [|simpl; apply length_insert].
    apply sys_inv_silent; [assumption|]. simpl. rewrite Hsh. reflexivity.
  - (* reading consumer_head *)
    eexists. split; [reflexivity|]. split; [|simpl; apply length_insert].
    apply sys_inv_silent; [assumption|]. simpl. split; [assumption|].
    exists k. split; [lia|]. rewrite Hsh. reflexivity.
  - (* reading producer_tail and testing for emptiness *)
    destruct Ht as (Hmask & j & Hj & ->).
    unfold consume_step, atomic_long_read. rewrite Hsh. simpl. rewrite Hpt.
    destruct (Z.eqb_spec (wadd (consumer_head (ring w0)) (Z.of_nat (length (contents w0))))
                (wadd (consumer_head (ring w0)) (Z.of_nat j))) as [Heq|Hne].
    + apply wadd_inj in Heq; [|split; lia|split; lia].
      eexists. split; [reflexivity|]. split; [|simpl; apply length_insert].
      rewrite <- Hsh. apply sys_inv_empty_return; [assumption|]. fold k. lia.
    + eexists. split; [reflexivity|]. split; [|simpl; apply length_insert].
      rewrite <- Hsh. apply sys_inv_silent; [assumption|]. simpl.
      split; [assumption|]. exists j. split; [lia|]. split; [|reflexivity].
      destruct (Nat.eq_dec j (length (contents w0))) as [->|]; [congruence|]. lia.
  - (* reading the slot *)
    destruct Ht as (Hmask & j & Hj & Hjm & ->).
    assert (Hel : contents w0 !! j
                  = Some (element w0 (wadd (consumer_head (ring w0)) (Z.of_nat j)))).
    { apply contents_lookup. rewrite <- contents_length. assumption. }
    unfold consume_step, READ_ONCE_queue. rewrite Hsh. simpl. rewrite Harr.
    pose proof (slot_bound kk (wadd (consumer_head (ring w0)) (Z.of_nat j)) Hkk) as Hslot.
    rewrite <- Hsz in Hslot. rewrite <- Hmask in Hslot.
    destruct (lookup_lt_is_Some_2 arr (Z.to_nat (Z.land
                (wadd (consumer_head (ring w0)) (Z.of_nat j)) mask))) as [e He]; [lia|].
    rewrite He.
    eexists. split; [reflexivity|]. split; [|simpl; apply length_insert].
    rewrite <- Hsh. apply sys_inv_silent; [assumption|]. simpl.
    split; [assumption|]. exists j. split; [assumption|]. split; [|reflexivity].
    rewrite Hel. f_equal. unfold element. rewrite Harr. simpl.
    rewrite <- Hmask, He. reflexivity.
  - (* the compare-and-swap *)
    destruct Ht as (Hmask & j & Hj & Hel & ->).
    pose proof (lookup_lt_Some _ _ _ Hel) as Hjm.
    unfold consume_step, atomic_long_cmpxchg. rewrite Hsh. simpl.
    destruct (Z.eqb_spec (wadd (consumer_head (ring w0)) (Z.of_nat k))
                (wadd (consumer_head (ring w0)) (Z.of_nat j))) as [Heq|Hne].
    + apply wadd_inj in Heq; [|split; lia|split; lia].
      apply Nat2Z.inj in Heq. subst j. rewrite Z.eqb_refl.
      eexists. split; [reflexivity|]. split; [|simpl; apply length_insert].
      assert (Hadv : set_ring
                (store ConsumerHead
                   (wadd (wadd (consumer_head (ring w0)) (Z.of_nat k)) 1)
                   (ring (advance k w0))) (advance k w0) = advance (S k) w0).
      { unfold advance, set_ring. simpl. rewrite wadd_assoc.
        replace (Z.of_nat k + 1) with (Z.of_nat (S k)) by lia. reflexivity. }
      match goal with
      | |- sys_inv _ (System ?x _ _) =>
          replace x with (advance (S k) w0) by (rewrite <- Hadv; reflexivity)
      end.
      apply sys_inv_success; assumption.
    + destruct (Z.eqb_spec (wadd (consumer_head (ring w0)) (Z.of_nat k))
                  (wadd (consumer_head (ring w0)) (Z.of_nat j))); [contradiction|].
      eexists. split; [reflexivity|]. split; [|simpl; apply length_insert].
      rewrite <- Hsh. apply sys_inv_silent; [assumption|]. exact Hmask.
Qed.

Lemma advance_0 w : is_word (consumer_head (ring w)) -> advance 0 w = w.
Proof.
  intros Hc. unfold advance. simpl. rewrite wadd_0_r by assumption.
  destruct w as [[q sz ch ph pt] h tr]. reflexivity.
Qed.

Lemma consumers_inv n w : ring_wf w = true -> sys_inv w (consumers n w).
Proof.
  intros Hwf.
  destruct (ring_wf_elim w Hwf) as (k & arr & Hk & Hsz & Hc & _).
  constructor; simpl.
  - symmetry. now apply advance_0.
  - lia.
  - reflexivity.
  - apply Forall_replicate. exact I.
  - intros [].
Qed.

Lemma run_schedule_inv w0 sched : forall s,
  ring_wf w0 = true ->
  sys_inv w0 s ->
  Forall (fun tid => (tid < length (threads s))%nat) sched ->
  exists s', run_schedule sched s = Some s' /\ sys_inv w0 s'.
Proof.
  induction sched as [|tid sched IH]; intros s Hwf Hinv Hsched.
  - exists s. auto.
  - apply Forall_cons in Hsched as [Htid Hsched].
    destruct (sched_step_inv w0 tid s Hwf Hinv Htid) as (s1 & Hstep & Hinv1 & Hlen).
    destruct (IH s1 Hwf Hinv1) as (s' & Hrun & Hinv').
    { rewrite Hlen. assumption. }
    exists s'. simpl. rewrite Hstep. auto.
Qed.

(** ** Every step brings a return nearer *)

Lemma weight_le w t : weight w t <= 4.
Proof. unfold weight. destruct (outdated w t); destruct t; simpl; lia. Qed.

Lemma weight_world w w' t : weight w t - 4 <= weight w' t.
Proof.
  unfold weight. destruct (outdated w t), (outdated w' t); lia.
Qed.

Lemma weights_le w ts : weights w ts <= 4 * Z.of_nat (length ts).
Proof.
  induction ts as [|t ts IH]; simpl; [lia|].
  pose proof (weight_le w t). lia.
Qed.

Lemma weights_world w w' ts :
  weights w ts - 4 * Z.of_nat (length ts) <= weights w' ts.
Proof.
  induction ts as [|t ts IH]; simpl; [lia|].
  pose proof (weight_world w w' t). lia.
Qed.

Lemma weights_insert w ts : forall i t t',
  ts !! i = Some t ->
  weights w (<[i := t']> ts) = weights w ts - weight w t + weight w t'.
Proof.
  induction ts as [|a ts IH]; intros [|i] t t' Hl; simpl in Hl; try discriminate.
  - inversion Hl. subst. simpl. lia.
  - simpl. rewrite (IH i t t' Hl). lia.
Qed.

Lemma weights_insert_world w w' ts : forall i t t',
  ts !! i = Some t ->
  weights w ts - weight w t + weight w' t' - 4 * (Z.of_nat (length ts) - 1)
  <= weights w' (<[i := t']> ts).
Proof.
  induction ts as [|a ts IH]; intros [|i] t t' Hl; simpl in Hl; try discriminate.
  - inversion Hl. subst.
    change (<[0%nat := t']> (t :: ts)) with (t' :: ts).
    change (weights w (t :: ts)) with (weight w t + weights w ts).
    change (weights w' (t' :: ts)) with (weight w' t' + weights w' ts).
    pose proof (weights_world w w' ts). rewrite length_cons. lia.
  - change (<[S i := t']> (a :: ts)) with (a :: <[i := t']> ts).
    change (weights w (a :: ts)) with (weight w a + weights w ts).
    change (weights w' (a :: <[i := t']> ts))
      with (weight w' a + weights w' (<[i := t']> ts)).
    pose proof (IH i t t' Hl). pose proof (weight_world w w' a).
    rewrite length_cons. lia.
Qed.

Lemma sched_step_count tid s s' :
  sched_step tid s = Some s' ->
  (step_count s + 1 <= step_count s') /\
  (length (threads s') = length (threads s))%nat.
Proof.
  unfold sched_step. destruct (threads s !! tid) as [t|] eqn:Hl; [|discriminate].
  destruct (consume_step t (shared s)) as [[[t' r] w']|] eqn:Hs; [|discriminate].
  intros Heq. inversion Heq. subst s'. clear Heq.
  split; [|simpl; apply length_insert].
  unfold step_count. cbn [shared threads returned].
  rewrite length_insert.
  destruct t as [|mask|mask c|mask c|mask c e]; simpl in Hs.
  - inversion Hs. subst. rewrite app_nil_r.
    rewrite (weights_insert _ _ _ _ _ Hl). unfold weight. simpl. lia.
  - inversion Hs. subst. rewrite app_nil_r.
    rewrite (weights_insert _ _ _ _ _ Hl). unfold weight, outdated. simpl.
    rewrite Z.eqb_refl. simpl. lia.
  - destruct (producer_tail (ring (shared s)) =? c); inversion Hs; subst.
    + rewrite successes_app, length_app, app_nil_r. simpl.
      rewrite (weights_insert _ _ _ _ _ Hl).
      pose proof (weight_le (shared s) (CReadTail mask c)).
      unfold weight at 2. simpl. lia.
    + rewrite app_nil_r. rewrite (weights_insert _ _ _ _ _ Hl).
      unfold weight, outdated. simpl. lia.
  - unfold READ_ONCE_queue in Hs.
    destruct (heap (shared s) !! queue (ring (shared s))) as [arr|]; [|discriminate].
    destruct (arr !! Z.to_nat (Z.land c mask)) as [e|]; [|discriminate].
    inversion Hs. subst. rewrite app_nil_r.
    rewrite (weights_insert _ _ _ _ _ Hl). unfold weight, outdated. simpl. lia.
  - unfold atomic_long_cmpxchg in Hs. cbn [load] in Hs.
    destruct (Z.eqb_spec (consumer_head (ring (shared s))) c) as [Hhit|Hmiss].
    + rewrite Hhit, Z.eqb_refl in Hs. inversion Hs. subst t' r w'. clear Hs.
      rewrite successes_app, !length_app. simpl.
      match goal with
      | |- context [weights ?u (<[tid := CIdle]> _)] =>
          pose proof (weights_insert_world (shared s) u (threads s) tid _ CIdle Hl) as Hw
      end.
      unfold weight at 1 2 in Hw. unfold outdated in Hw. simpl in Hw.
      rewrite Hhit, Z.eqb_refl in Hw. simpl in Hw. lia.
    + destruct (Z.eqb_spec (consumer_head (ring (shared s))) c) as [|_]; [contradiction|].
      inversion Hs. subst. rewrite app_nil_r.
      rewrite (weights_insert _ _ _ _ _ Hl). unfold weight, outdated. simpl.
      destruct (Z.eqb_spec c (consumer_head (ring (shared s)))) as [Heq|_];
        [symmetry in Heq; contradiction|]. simpl. lia.
Qed.

Lemma run_schedule_count sched : forall s s',
  run_schedule sched s = Some s' ->
  (step_count s + Z.of_nat (length sched) <= step_count s') /\
  (length (threads s') = length (threads s))%nat.
Proof.
  induction sched as [|tid sched IH]; intros s s' Hrun; simpl in Hrun.
  - inversion Hrun. subst. simpl. split; [lia|reflexivity].
  - destruct (sched_step tid s) as [s1|] eqn:Hstep; [|discriminate].
    destruct (sched_step_count _ _ _ Hstep) as [H1 Hl1].
    destruct (IH _ _ Hrun) as [H2 Hl2].
    split; [|congruence]. cbn [length]. lia.
Qed.

Lemma weights_idle w n : weights w (replicate n CIdle) = 0.
Proof. induction n as [|n IH]; simpl; [reflexivity|]. fold (weights w (replicate n CIdle)). rewrite IH. reflexivity. Qed.

Lemma empty_return_among rs :
  (length (successes rs) < length rs)%nat -> In RetEmpty (map snd rs).
Proof.
  induction rs as [|[tid r] rs IH]; simpl; [lia|].
  destruct r as [|e]; simpl.
  - intros _. left. reflexivity.
  - unfold successes in *. simpl. intros Hlt. right. apply IH. lia.
Qed.

(** C4: [n] consumer threads race, in any interleaving of their steps, over
    a backlog of [M] elements, with no producer running.  The run never
    leaves defined behaviour; the elements handed out by the consumes that
    won their compare-and-swap are, in the order of these, the first so
    many elements of the backlog, each handed out once and to one thread,
    and the rest is still in the ring; hence never more than [M] consumes
    succeed, and as soon as any call has reported the ring empty, or the
    ring is empty, exactly [M] have succeeded and every element has been
    delivered.  The calls do return: of the steps taken, at most five go to
    each call that has returned, four to each pass a thread lost to one of
    the successful consumes (at most [n - 1] passes for each of these) and
    four to the calls still running; so whichever threads are scheduled,
    once [(4 n + 1) (M + 1)] steps have been taken exactly [M] consumes have
    succeeded, the backlog has been delivered in order, the ring is empty,
    and a call has reported it empty. *)
Theorem no_duplicate_delivery (n : nat) (sched : list nat) (w : world) :
  ring_wf w = true ->
  Forall (fun tid => (tid < n)%nat) sched ->
  exists s,
    run_schedule sched (consumers n w) = Some s /\
    successes (returned s)
    = take (length (successes (returned s))) (contents w) /\
    contents (shared s) = drop (length (successes (returned s))) (contents w) /\
    (length (successes (returned s)) <= length (contents w))%nat /\
    (In RetEmpty (map snd (returned s)) ->
     successes (returned s) = contents w /\ contents (shared s) = []) /\
    (mpmc_ptr_ring_empty (shared s) = Done true (shared s) ->
     successes (returned s) = contents w) /\
    (Z.of_nat (length sched)
     <= 5 * Z.of_nat (length (returned s))
        + 4 * (Z.of_nat n - 1) * Z.of_nat (length (successes (returned s)))
        + 4 * Z.of_nat n) /\
    (((4 * n + 1) * (length (contents w) + 1) <= length sched)%nat ->
     length (successes (returned s)) = length (contents w) /\
     successes (returned s) = contents w /\
     contents (shared s) = [] /\
     In RetEmpty (map snd (returned s))).
Proof.
  intros Hwf Hsched.
  destruct (run_schedule_inv w sched (consumers n w) Hwf (consumers_inv n w Hwf))
    as (s & Hrun & [Hsh Hb Hp Ht He]).
  { simpl. rewrite length_replicate. assumption. }
  exists s. split; [assumption|]. split; [assumption|].
  assert (Hrest : contents (shared s)
                  = drop (length (successes (returned s))) (contents w)).
  { rewrite Hsh. now apply contents_advance. }
  assert (Hall : In RetEmpty (map snd (returned s)) ->
                 successes (returned s) = contents w /\ contents (shared s) = []).
  { intros Hin. specialize (He Hin).
    rewrite Hrest, Hp, He, firstn_all, drop_all. auto. }
  assert (Hcount : Z.of_nat (length sched)
     <= 5 * Z.of_nat (length (returned s))
        + 4 * (Z.of_nat n - 1) * Z.of_nat (length (successes (returned s)))
        + 4 * Z.of_nat n).
  { destruct (run_schedule_count _ _ _ Hrun) as [Hc Hlen].
    unfold step_count in Hc. cbn [consumers shared threads returned] in Hc, Hlen.
    rewrite weights_idle in Hc. rewrite length_replicate in Hlen.
    change (successes []) with (@nil Z) in Hc. cbn [length] in Hc.
    pose proof (weights_le (shared s) (threads s)) as Hw.
    rewrite Hlen in Hc, Hw. lia. }
  split; [assumption|]. split; [assumption|]. split; [exact Hall|]. split; [|split].
  - intros Hempty.
    assert (Hnil : contents (shared s) = []).
    { apply length_zero_iff_nil. rewrite contents_length.
      unfold mpmc_ptr_ring_empty, bind, atomic_long_read, ret in Hempty.
      simpl in Hempty. inversion Hempty as [Heq].
      apply Z.eqb_eq in Heq. unfold occupied. rewrite Heq, wsub_diag. reflexivity. }
    rewrite Hrest in Hnil.
    assert (Hk : length (successes (returned s)) = length (contents w)).
    { apply (f_equal length) in Hnil. rewrite length_drop in Hnil. simpl in Hnil. lia. }
    rewrite Hp, Hk. apply firstn_all.
  - exact Hcount.
  - intros Hlong.
    assert (Hin : In RetEmpty (map snd (returned s))).
    { apply empty_return_among.
      destruct n as [|n'].
      - destruct sched as [|tid sched']; [simpl in Hlong; lia|].
        apply Forall_cons in Hsched as [Htid _]. lia.
      - nia. }
    destruct (Hall Hin) as [Hs Hnil].
    split; [rewrite Hs; reflexivity|]. auto.
Qed.

(** Two threads and a backlog of two: after 27 steps, here with both
    threads losing and retrying, both elements have been handed out. *)
Lemma no_duplicate_delivery_witness :
  exists s,
    run_schedule [0; 1; 0; 1; 0; 1; 0; 1; 0; 1; 1; 1; 1; 1; 0; 0; 0; 1; 1; 1;
                  0; 1; 0; 1; 0; 1; 0]%nat
      (consumers 2 demo_ring_78) = Some s /\
    length (successes (returned s)) = length (contents demo_ring_78) /\
    successes (returned s) = contents demo_ring_78 /\
    contents (shared s) = [] /\
    In RetEmpty (map snd (returned s)).
Proof.
  destruct (no_duplicate_delivery 2
              [0; 1; 0; 1; 0; 1; 0; 1; 0; 1; 1; 1; 1; 1; 0; 0; 0; 1; 1; 1;
               0; 1; 0; 1; 0; 1; 0]%nat demo_ring_78 demo_ring_78_wf)
    as (s & Hrun & _ & _ & _ & _ & _ & _ & Hlong).
  { repeat (constructor; [lia|]). constructor. }
  exists s. split; [exact Hrun|]. apply Hlong. vm_compute. lia.
Defined.

(** The race of the witness, step by step: both threads read head 0 and
    the slot holding 7; thread 0 wins the compare-and-swap, thread 1 loses
    it, retries and takes 8; then both find the ring empty. *)
Example two_consumers_race :
  option_map returned
    (run_schedule [0; 1; 0; 1; 0; 1; 0; 1; 0; 1; 1; 1; 1; 1; 0; 0; 0; 1; 1; 1]%nat
       (consumers 2 demo_ring_78))
  = Some [(0%nat, RetElement 7); (1%nat, RetElement 8);
          (0%nat, RetEmpty); (1%nat, RetEmpty)].
Proof. vm_compute. reflexivity. Qed.

(** ** A thread running alone performs the sequential consume *)

Lemma sched_step_at tid t t' r w w' ts rs :
  ts !! tid = Some t ->
  consume_step t w = Some (t', r, w') ->
  sched_step tid (System w ts rs)
  = Some (System w' (<[tid := t']> ts)
                 (rs ++ match r with Some v => [(tid, v)] | None => [] end)).
Proof. intros Hl Hs. unfold sched_step. simpl. rewrite Hl, Hs. reflexivity. Qed.

(** X14: a consume that runs without interference needs at most five
    accesses to the ring: an idle consumer thread scheduled alone, three
    times on an empty ring and five times otherwise, ends its call with the
    pointer and in the world of the sequential consume. *)
Lemma solo_consume fuel tid w x w' ts rs :
  mpmc_ptr_ring_consume (S fuel) w = Done x w' ->
  ts !! tid = Some CIdle ->
  exists j r, (j <= 5)%nat /\ return_value r = x /\
    run_schedule (repeat tid j) (System w ts rs)
    = Some (System w' ts (rs ++ [(tid, r)])).
Proof.
  intros Hseq Hidle.
  pose proof (lookup_lt_Some _ _ _ Hidle) as Hlt.
  unfold mpmc_ptr_ring_consume, bind, read_size in Hseq. simpl in Hseq.
  unfold bind, atomic_long_read, READ_ONCE_queue, atomic_long_cmpxchg in Hseq.
  simpl in Hseq.
  destruct (Z.eqb_spec (producer_tail (ring w)) (consumer_head (ring w))) as [Heq|Hne].
  - inversion Hseq. subst. exists 3%nat, RetEmpty.
    split; [lia|]. split; [reflexivity|].
    cbn [repeat run_schedule].
    rewrite (sched_step_at tid CIdle _ _ _ _ ts rs Hidle eq_refl).
    erewrite sched_step_at;
      [|apply list_lookup_insert_eq; assumption|reflexivity].
    erewrite sched_step_at;
      [|apply list_lookup_insert_eq; rewrite length_insert; assumption|].
    2:{ simpl. unfold atomic_long_read. simpl. rewrite Heq, Z.eqb_refl. reflexivity. }
    rewrite !list_insert_insert_eq, list_insert_id by assumption.
    rewrite !app_nil_r. reflexivity.
  - destruct (heap w !! queue (ring w)) as [arr|] eqn:Harr; [|discriminate].
    simpl in Hseq.
    destruct (arr !! Z.to_nat (Z.land (consumer_head (ring w)) (wsub (size (ring w)) 1)))
      as [e|] eqn:He; [|discriminate].
    simpl in Hseq. rewrite Z.eqb_refl in Hseq. simpl in Hseq.
    rewrite Z.eqb_refl in Hseq. inversion Hseq. subst.
    exists 5%nat, (RetElement x). split; [lia|]. split; [reflexivity|].
    cbn [repeat run_schedule].
    rewrite (sched_step_at tid CIdle _ _ _ _ ts rs Hidle eq_refl).
    erewrite sched_step_at;
      [|apply list_lookup_insert_eq; assumption|reflexivity].
    erewrite sched_step_at;
      [|apply list_lookup_insert_eq; rewrite length_insert; assumption|].
    2:{ simpl. unfold atomic_long_read. simpl.
        destruct (Z.eqb_spec (producer_tail (ring w)) (consumer_head (ring w)));
          [contradiction|reflexivity]. }
    erewrite sched_step_at;
      [|apply list_lookup_insert_eq; rewrite !length_insert; assumption|].
    2:{ simpl. unfold READ_ONCE_queue. simpl. rewrite Harr, He. reflexivity. }
    erewrite sched_step_at;
      [|apply list_lookup_insert_eq; rewrite !length_insert; assumption|].
    2:{ simpl. unfold atomic_long_cmpxchg. simpl. rewrite !Z.eqb_refl. reflexivity. }
    rewrite !list_insert_insert_eq, list_insert_id by assumption.
    rewrite !app_nil_r. reflexivity.
Qed.

(** * Producers and consumers together: proofs *)

Lemma pool_inv_update w ts tid t t' w' :
  pool_inv (w, ts) ->
  ts !! tid = Some t ->
  counters_ordered (ring w') ->
  local_inv (ring w') t' ->
  (forall i u, i <> tid -> ts !! i = Some u -> local_inv (ring w') u) ->
  (forall p i u, claimed t' = Some p -> i <> tid -> ts !! i = Some u ->
                 claimed u = Some p -> False) ->
  pool_inv (w', <[tid := t']> ts).
Proof.
  intros [Hcnt Hloc Hdis] Hlook Hcnt' Hloc' Hothers Hfresh.
  pose proof (lookup_lt_Some _ _ _ Hlook) as Hlt.
  simpl in *. constructor; simpl.
  - assumption.
  - intros i u Hi.
    destruct (Nat.eq_dec i tid) as [->|Hne].
    + rewrite list_lookup_insert_eq in Hi by assumption.
      injection Hi as <-. assumption.
    + rewrite list_lookup_insert_ne in Hi by auto. eauto.
  - intros i j u u' p Hij Hi Hj Hu Hu'.
    destruct (Nat.eq_dec i tid) as [->|Hni]; destruct (Nat.eq_dec j tid) as [->|Hnj].
    + contradiction.
    + rewrite list_lookup_insert_eq in Hi by assumption. injection Hi as <-.
      rewrite list_lookup_insert_ne in Hj by auto. eauto.
    + rewrite list_lookup_insert_eq in Hj by assumption. injection Hj as <-.
      rewrite list_lookup_insert_ne in Hi by auto. eauto.
    + rewrite list_lookup_insert_ne in Hi, Hj by auto. eauto.
Qed.

(** A step that leaves the counters alone and claims nothing new. *)
Lemma pool_inv_silent w ts tid t t' w' :
  pool_inv (w, ts) ->
  ts !! tid = Some t ->
  ring w' = ring w ->
  local_inv (ring w) t' ->
  claimed t' = None \/ claimed t' = claimed t ->
  pool_inv (w', <[tid := t']> ts).
Proof.
  intros Hinv Hlook Hring Hloc Hclaim.
  pose proof Hinv as [Hcnt Hl Hdis]. simpl in *.
  apply (pool_inv_update w ts tid t); rewrite ?Hring; auto.
  { intros i u _ Hu. eauto. }
  intros p i u Hp Hi Hu Hcu.
  destruct Hclaim as [Hnone|Hsame]; [congruence|].
  rewrite Hsame in Hp. exact (Hdis tid i t u p (not_eq_sym Hi) Hlook Hu Hp Hcu).
Qed.

Lemma cmpxchg_hit a old new w :
  load a (ring w) = old ->
  atomic_long_cmpxchg a old new w = Done old (set_ring (store a new (ring w)) w).
Proof. intros H. unfold atomic_long_cmpxchg. rewrite H, Z.eqb_refl. reflexivity. Qed.

Lemma cmpxchg_miss a old new w :
  load a (ring w) <> old ->
  atomic_long_cmpxchg a old new w = Done (load a (ring w)) w.
Proof.
  intros H. unfold atomic_long_cmpxchg.
  destruct (Z.eqb_spec (load a (ring w)) old); [contradiction|reflexivity].
Qed.

Lemma pool_step_inv tid rq s s' :
  pool_inv s ->
  producer_head (ring (fst s)) + 1 < wordsz ->
  pool_step tid rq s = Some s' ->
  pool_inv s' /\
  producer_head (ring (fst s')) <= producer_head (ring (fst s)) + 1.
Proof.
  intros Hinv Hnowrap Hstep. destruct s as [w ts].
  pose proof Hinv as [Hcnt Hloc Hdis].
  unfold pool_step in Hstep. simpl in *.
  destruct (ts !! tid) as [t|] eqn:Hlook; [|discriminate].
  pose proof (Hloc tid t Hlook) as Ht.
  destruct Hcnt as (Hc0 & Hcp & Hpp & Hpw).
  destruct t as [|c|p]; cbn [thread_step] in Hstep.
  - (* entering a call *)
    unfold read_size in Hstep.
    destruct rq; injection Hstep as <-; simpl; (split; [|lia]);
      apply (pool_inv_silent w ts tid TIdle); simpl; auto.
  - destruct c as [|mask|mask c|mask c|mask c e]; cbn [consume_step] in Hstep;
      simpl in Ht.
    + unfold read_size in Hstep. injection Hstep as <-. simpl. split; [|lia].
      apply (pool_inv_silent w ts tid (TConsume CIdle)); simpl; auto.
    + unfold atomic_long_read in Hstep. injection Hstep as <-. simpl. split; [|lia].
      apply (pool_inv_silent w ts tid (TConsume (CReadHead mask))); simpl; auto. lia.
    + unfold atomic_long_read in Hstep. cbn [load] in Hstep.
      destruct (Z.eqb_spec (producer_tail (ring w)) c) as [Heq|Hne];
        injection Hstep as <-; simpl; (split; [|lia]).
      * apply (pool_inv_silent w ts tid (TConsume (CReadTail mask c))); simpl; auto.
      * apply (pool_inv_silent w ts tid (TConsume (CReadTail mask c))); simpl; auto. lia.
    + unfold READ_ONCE_queue in Hstep.
      destruct (heap w !! queue (ring w)) as [arr|]; [|discriminate].
      destruct (arr !! _); [|discriminate].
      injection Hstep as <-. simpl. split; [|lia].
      apply (pool_inv_silent w ts tid (TConsume (CReadSlot mask c))); simpl; auto.
    + destruct (Z.eq_dec (consumer_head (ring w)) c) as [Heq|Hne].
      * (* the consumer's compare-and-swap succeeds *)
        rewrite cmpxchg_hit, Z.eqb_refl in Hstep by assumption.
        injection Hstep as <-. simpl. split; [|lia].
        subst c. rewrite wadd_small by lia.
        apply (pool_inv_update w ts tid (TConsume (CCas mask (consumer_head (ring w)) e)));
          simpl; auto.
        -- unfold counters_ordered. simpl. lia.
        -- intros i u Hi Hu. specialize (Hloc i u Hu).
           destruct u as [|[]|[]]; simpl in *; auto. lia.
        -- discriminate.
      * rewrite cmpxchg_miss in Hstep by assumption. cbn [load] in Hstep.
        destruct (Z.eqb_spec (consumer_head (ring w)) c); [contradiction|].
        injection Hstep as <-. simpl. split; [|lia].
        apply (pool_inv_silent w ts tid (TConsume (CCas mask c e))); simpl; auto.
  - destruct p as [mask ptr|mask ptr p|mask ptr p|mask ptr p|mask ptr p|mask ptr p|mask ptr p];
      cbn [produce_step] in Hstep; simpl in Ht.
    + unfold atomic_long_read in Hstep. injection Hstep as <-. simpl. split; [|lia].
      apply (pool_inv_silent w ts tid (TProduce (PReadHead mask ptr))); simpl; auto.
    + unfold atomic_long_read in Hstep. cbn [load] in Hstep.
      destruct (wsub p (consumer_head (ring w)) <? mask);
        injection Hstep as <-; simpl; (split; [|lia]);
        apply (pool_inv_silent w ts tid (TProduce (PReadCons mask ptr p))); simpl; auto.
    + destruct (Z.eq_dec (producer_head (ring w)) p) as [Heq|Hne].
      * (* the producer's compare-and-swap succeeds: index [p] is claimed *)
        rewrite cmpxchg_hit, Z.eqb_refl in Hstep by assumption.
        injection Hstep as <-. simpl.
        subst p. rewrite wadd_small by lia. split; [|lia].
        apply (pool_inv_update w ts tid (TProduce (PCas mask ptr (producer_head (ring w)))));
          simpl; auto.
        -- unfold counters_ordered. simpl. lia.
        -- lia.
        -- intros i u Hi Hu. specialize (Hloc i u Hu).
           destruct u as [|[]|[]]; simpl in *; auto; lia.
        -- intros q i u Hq Hi Hu Hcu. injection Hq as <-.
           specialize (Hloc i u Hu).
           destruct u as [|[]|[]]; simpl in *; try discriminate;
             injection Hcu as ->; lia.
      * rewrite cmpxchg_miss in Hstep by assumption. cbn [load] in Hstep.
        destruct (Z.eqb_spec (producer_head (ring w)) p); [contradiction|].
        injection Hstep as <-. simpl. split; [|lia].
        apply (pool_inv_silent w ts tid (TProduce (PCas mask ptr p))); simpl; auto.
    + unfold atomic_long_read in Hstep. cbn [load] in Hstep.
      destruct (producer_head (ring w) =? p);
        injection Hstep as <-; simpl; (split; [|lia]).
      * apply (pool_inv_silent w ts tid (TProduce (PRecheck mask ptr p))); simpl; auto.
      * apply (pool_inv_silent w ts tid (TProduce (PRecheck mask ptr p))); simpl; auto.
    + unfold WRITE_ONCE_queue in Hstep.
      destruct (heap w !! queue (ring w)) as [arr|]; [|discriminate].
      destruct (decide _); [|discriminate].
      injection Hstep as <-. simpl. split; [|lia].
      apply (pool_inv_silent w ts tid (TProduce (PWrite mask ptr p))); simpl; auto.
    + unfold atomic_long_read in Hstep. cbn [load] in Hstep.
      destruct (Z.eqb_spec (producer_tail (ring w)) p) as [Heq|Hne];
        injection Hstep as <-; simpl; (split; [|lia]).
      * apply (pool_inv_silent w ts tid (TProduce (PWait mask ptr p))); simpl; auto. lia.
      * apply (pool_inv_silent w ts tid (TProduce (PWait mask ptr p))); simpl; auto.
    + (* the commit: [producer_tail] moves from [p] to [p + 1] *)
      unfold atomic_long_set in Hstep.
      injection Hstep as <-. simpl. split; [|lia].
      destruct Ht as [Hpt Hph]. rewrite wadd_small by lia.
      apply (pool_inv_update w ts tid (TProduce (PSetTail mask ptr p))); simpl; auto.
      * unfold counters_ordered. simpl. lia.
      * intros i u Hi Hu. pose proof (Hloc i u Hu) as Hlu.
        assert (Hnp : claimed u = Some p -> False).
        { intros Hcu. exact (Hdis tid i _ u p (not_eq_sym Hi) Hlook Hu eq_refl Hcu). }
        destruct u as [|[]|[]]; simpl in *; auto; try lia.
        -- assert (p0 <> p) by (intros ->; auto). lia.
        -- assert (p0 <> p) by (intros ->; auto). lia.
        -- destruct Hlu as [Heq _]. exfalso. apply Hnp. congruence.
      * discriminate.
Qed.

(** On a ring whose storage is in order no step is undefined. *)
Lemma thread_step_total rq t w :
  storage_ok w = true -> mask_ok (size (ring w)) t ->
  exists t' w',
    thread_step rq t w = Some (t', w') /\
    storage_ok w' = true /\ size (ring w') = size (ring w) /\
    mask_ok (size (ring w)) t'.
Proof.
  intros Hok Hmask.
  destruct (storage_ok_elim w Hok) as (k & arr & Hk & Hsz & Harr & Hlen).
  assert (Hslot : forall i, (Z.to_nat (Z.land i (wsub (size (ring w)) 1)) < length arr)%nat).
  { intros i. pose proof (slot_bound k i Hk). rewrite Hsz. lia. }
  destruct t as [|c|p].
  - destruct rq; do 2 eexists; (split; [reflexivity|]); simpl; auto.
  - destruct c as [|mask|mask c|mask c|mask c e]; simpl in Hmask; subst;
      cbn [thread_step consume_step].
    + do 2 eexists. split; [reflexivity|]. simpl. auto.
    + do 2 eexists. split; [reflexivity|]. simpl. auto.
    + unfold atomic_long_read. cbn [load].
      destruct (producer_tail (ring w) =? c);
        do 2 eexists; (split; [reflexivity|]); simpl; auto.
    + unfold READ_ONCE_queue. rewrite Harr.
      destruct (lookup_lt_is_Some_2 arr _ (Hslot c)) as [e He]. rewrite He.
      do 2 eexists. split; [reflexivity|]. simpl. auto.
    + unfold atomic_long_cmpxchg. cbn [load].
      destruct (consumer_head (ring w) =? c) eqn:Hcmp; rewrite ?Hcmp;
        do 2 eexists; (split; [reflexivity|]); simpl; auto.
  - destruct p as [mask ptr|mask ptr p|mask ptr p|mask ptr p|mask ptr p|mask ptr p|mask ptr p];
      simpl in Hmask; subst; cbn [thread_step produce_step].
    + do 2 eexists. split; [reflexivity|]. simpl. auto.
    + unfold atomic_long_read. cbn [load].
      destruct (wsub p (consumer_head (ring w)) <? wsub (size (ring w)) 1);
        do 2 eexists; (split; [reflexivity|]); simpl; auto.
    + unfold atomic_long_cmpxchg. cbn [load].
      destruct (producer_head (ring w) =? p) eqn:Hcmp; rewrite ?Hcmp;
        do 2 eexists; (split; [reflexivity|]); simpl; auto.
    + unfold atomic_long_read. cbn [load].
      destruct (producer_head (ring w) =? p);
        do 2 eexists; (split; [reflexivity|]); simpl; auto.
    + unfold WRITE_ONCE_queue. rewrite Harr.
      destruct (decide _) as [_|Hout]; [|exfalso; apply Hout, Hslot].
      do 2 eexists. split; [reflexivity|]. simpl. split; [|auto].
      apply (storage_ok_intro _ k
               (<[Z.to_nat (Z.land p (wsub (size (ring w)) 1)) := ptr]> arr));
        simpl; auto.
      * now apply storage_ok_nonnull.
      * apply lookup_insert_eq.
      * now rewrite length_insert.
    + unfold atomic_long_read. cbn [load].
      destruct (producer_tail (ring w) =? p);
        do 2 eexists; (split; [reflexivity|]); simpl; auto.
    + do 2 eexists. split; [reflexivity|]. simpl. auto.
Qed.

Lemma pool_step_total tid rq s :
  storage_ok (fst s) = true ->
  Forall (mask_ok (size (ring (fst s)))) (snd s) ->
  (tid < length (snd s))%nat ->
  exists s',
    pool_step tid rq s = Some s' /\
    storage_ok (fst s') = true /\
    size (ring (fst s')) = size (ring (fst s)) /\
    Forall (mask_ok (size (ring (fst s')))) (snd s') /\
    length (snd s') = length (snd s).
Proof.
  intros Hok Hmasks Htid. destruct s as [w ts]. simpl in *.
  destruct (lookup_lt_is_Some_2 _ _ Htid) as [t Hlook].
  pose proof (Forall_lookup_1 _ _ _ _ Hmasks Hlook) as Hm.
  destruct (thread_step_total rq t w Hok Hm) as (t' & w' & Hstep & Hok' & Hsz & Hm').
  exists (w', <[tid := t']> ts). unfold pool_step. simpl.
  rewrite Hlook, Hstep, Hsz.
  repeat split; auto using length_insert.
  now apply Forall_insert.
Qed.

Lemma pool_states_total sched : forall s,
  storage_ok (fst s) = true ->
  Forall (mask_ok (size (ring (fst s)))) (snd s) ->
  Forall (fun x => (fst x < length (snd s))%nat) sched ->
  exists states, pool_states sched s = Some states.
Proof.
  induction sched as [|[tid rq] sched IH]; intros s Hok Hmasks Hsched.
  - eexists. reflexivity.
  - apply Forall_cons in Hsched as [Htid Hsched]. simpl in Htid.
    destruct (pool_step_total tid rq s Hok Hmasks Htid)
      as (s1 & Hstep & Hok1 & Hsz1 & Hmasks1 & Hlen1).
    destruct (IH s1 Hok1 Hmasks1) as (states & Hrun).
    { rewrite Hlen1. assumption. }
    exists (s :: states). cbn [pool_states]. rewrite Hstep, Hrun. reflexivity.
Qed.

Lemma idle_pool_inv n w :
  counters_ordered (ring w) -> pool_inv (w, replicate n TIdle).
Proof.
  intros Hcnt. constructor; simpl.
  - assumption.
  - intros i t Hi. apply lookup_replicate_1 in Hi as [-> _]. exact I.
  - intros i j t t' p _ Hi _ Hc. apply lookup_replicate_1 in Hi as [-> _].
    discriminate.
Qed.

Lemma pool_states_inv sched : forall s states,
  pool_inv s ->
  producer_head (ring (fst s)) + Z.of_nat (length sched) < wordsz ->
  pool_states sched s = Some states ->
  Forall (fun s => counters_ordered (ring (fst s))) states.
Proof.
  induction sched as [|[tid rq] sched IH]; intros s states Hinv Hbound Hrun.
  - injection Hrun as <-. constructor; [apply Hinv|constructor].
  - cbn [pool_states] in Hrun. cbn [length] in Hbound.
    destruct (pool_step tid rq s) as [s1|] eqn:Hstep; [|discriminate].
    destruct (pool_states sched s1) as [rest|] eqn:Hrest; [|discriminate].
    injection Hrun as <-.
    destruct (pool_step_inv tid rq s s1 Hinv ltac:(lia) Hstep) as [Hinv1 Hph].
    constructor; [apply Hinv|].
    apply (IH s1); [assumption|lia|assumption].
Qed.

(** C3: away from counter wrap-around, [consumer_head <= producer_tail <=
    producer_head] holds as an inequality of integers after [init] (on any
    ring structure, whenever [init] got past the capacity check) and is
    kept by every completed produce and every completed consume; the number
    of held elements is [producer_tail - consumer_head], which a successful
    produce raises by one and a consume of a non-empty ring lowers by one
    (a consume advances [consumer_head] only when it differs from
    [producer_tail]); on a well-formed ring both calls do complete.  It
    also holds in every intermediate state of every interleaving of
    producer and consumer threads (none of whose steps is undefined), as
    long as the schedule is too short for [producer_head] to wrap. *)
Theorem counters_invariant (fuel : nat) (v : Z) (w : world) :
  counters_ordered (ring w) -> producer_head (ring w) + 1 < wordsz ->
  occupied (ring w) = producer_tail (ring w) - consumer_head (ring w) /\
  Z.of_nat (length (contents w)) = producer_tail (ring w) - consumer_head (ring w) /\
  (forall rc w', mpmc_ptr_ring_produce fuel v w = Done rc w' ->
     counters_ordered (ring w') /\
     producer_tail (ring w') - consumer_head (ring w')
     = producer_tail (ring w) - consumer_head (ring w) + (if rc =? 0 then 1 else 0)) /\
  (forall x w', mpmc_ptr_ring_consume fuel w = Done x w' ->
     counters_ordered (ring w') /\
     producer_tail (ring w') - consumer_head (ring w')
     = producer_tail (ring w) - consumer_head (ring w)
       - (if consumer_head (ring w) =? producer_tail (ring w) then 0 else 1)) /\
  (forall u sz ok rc u', mpmc_ptr_ring_init sz ok u = Done rc u' ->
     rc <> - EINVAL ->
     counters_ordered (ring u') /\
     producer_tail (ring u') - consumer_head (ring u') = 0 /\
     contents u' = []) /\
  (ring_wf w = true ->
   (exists rc w', mpmc_ptr_ring_produce (S fuel) v w = Done rc w') /\
   (exists x w', mpmc_ptr_ring_consume (S fuel) w = Done x w')) /\
  (forall n sched,
     storage_ok w = true ->
     Forall (fun x => (fst x < n)%nat) sched ->
     producer_head (ring w) + Z.of_nat (length sched) < wordsz ->
     exists states,
       pool_states sched (w, replicate n TIdle) = Some states /\
       Forall (fun s => counters_ordered (ring (fst s))) states).
Proof.
  intros Hord Hnowrap.
  pose proof (counters_ordered_occupied _ Hord) as Hocc.
  destruct Hord as (H0 & Hcp & Hpp & Hw).
  split; [assumption|]. split; [rewrite <- occupied_length; assumption|].
  split; [|split; [|split; [|split]]].
  - intros rc w' Hrun.
    destruct (produce_cases _ _ _ _ _ Hrun) as [(-> & -> & _)|(-> & _ & Hidle & ->)].
    + split; [unfold counters_ordered; auto|]. simpl. lia.
    + unfold counters_ordered, enqueued. simpl.
      rewrite wadd_small by lia. lia.
  - intros x w' Hrun.
    destruct (consume_cases _ _ _ _ Hrun) as [(Heq & _ & ->)|(Hne & _ & ->)].
    + split; [unfold counters_ordered; auto|].
      rewrite Heq, Z.eqb_refl. lia.
    + destruct (Z.eqb_spec (consumer_head (ring w)) (producer_tail (ring w)));
        [contradiction|].
      unfold counters_ordered, dequeued. simpl.
      rewrite wadd_small by lia. lia.
  - intros u sz ok rc u' Hinit Hrc. unfold mpmc_ptr_ring_init in Hinit.
    destruct (is_power_of_2 (int_to_size_t sz)); simpl in Hinit.
    2:{ inversion Hinit. congruence. }
    unfold bind, set_size, atomic_long_set, kcalloc, set_queue in Hinit.
    simpl in Hinit.
    assert (Hcnt : consumer_head (ring u') = 0 /\ producer_head (ring u') = 0 /\
                   producer_tail (ring u') = 0).
    { destruct (ok && (int_to_size_t sz * 8 <? wordsz)); simpl in Hinit.
      - destruct (fresh_addr (heap u) =? NULL); inversion Hinit; subst; simpl; auto.
      - inversion Hinit; subst; simpl; auto. }
    destruct Hcnt as (Hc & Hh & Ht).
    unfold counters_ordered, contents, occupied. rewrite Hc, Hh, Ht, wsub_diag.
    pose proof wordsz_pos. repeat split; try lia.
  - intros Hwf. split.
    + destruct (do_call_fifo fuel (Produce v) w Hwf) as (w' & Hrun & _). eauto.
    + destruct (do_call_fifo fuel Consume w Hwf) as (w' & Hrun & _). eauto.
  - intros n sched Hok Hsched Hbound.
    destruct (pool_states_total sched (w, replicate n TIdle)) as (states & Hrun).
    + assumption.
    + apply Forall_replicate. exact I.
    + simpl. rewrite length_replicate. assumption.
    + exists states. split; [assumption|].
      apply (pool_states_inv sched (w, replicate n TIdle)); try assumption.
      apply idle_pool_inv. unfold counters_ordered. auto.
Qed.

Lemma counters_invariant_witness :
  counters_ordered (ring (enqueued 9 demo_ring_78)) /\
  producer_tail (ring (enqueued 9 demo_ring_78))
  - consumer_head (ring (enqueued 9 demo_ring_78)) = 3 /\
  counters_ordered (ring (dequeued demo_ring_78)).
Proof.
  assert (Hord : counters_ordered (ring demo_ring_78)).
  { unfold counters_ordered. rewrite wordsz_eq. vm_compute.
    repeat split; discriminate. }
  assert (Hnw : producer_head (ring demo_ring_78) + 1 < wordsz).
  { rewrite wordsz_eq. vm_compute. reflexivity. }
  destruct (counters_invariant 1 9 demo_ring_78 Hord Hnw) as (_ & _ & Hp & Hc & _).
  destruct (Hp 0 (enqueued 9 demo_ring_78) eq_refl) as [Hp1 Hp2].
  destruct (Hc 7 (dequeued demo_ring_78) eq_refl) as [Hc1 _].
  split; [exact Hp1|]. split; [exact Hp2|exact Hc1].
Defined.

(** Two producers and a consumer on the demo ring.  Thread 1 loses the
    race for index 0 and, as the claim loop keeps its stale [p] after a
    failed compare-and-swap, only gets a fresh index after the consumer
    has moved [consumer_head] past it.  Listed: [consumer_head],
    [producer_tail], [producer_head] in every state of the run. *)
Example producers_and_consumer_race :
  option_map
    (map (fun s : pool => (consumer_head (ring (fst s)),
                           producer_tail (ring (fst s)),
                           producer_head (ring (fst s)))))
    (pool_states race_schedule (demo_ring, replicate 3 TIdle))
  = Some [(0, 0, 0); (0, 0, 0); (0, 0, 0); (0, 0, 0); (0, 0, 0); (0, 0, 0);
          (0, 0, 0); (0, 0, 1); (0, 0, 1); (0, 0, 1); (0, 0, 1); (0, 0, 1);
          (0, 0, 1); (0, 1, 1); (0, 1, 1); (0, 1, 1); (0, 1, 1); (0, 1, 1);
          (1, 1, 1); (1, 1, 1); (1, 1, 1); (1, 1, 1); (1, 1, 2); (1, 1, 2);
          (1, 1, 2); (1, 2, 2)].
Proof. vm_compute. reflexivity. Qed.


(** The claim loop does not refresh [p] after a failed compare-and-swap:
    as long as the room test passes for the stale [p] and no other thread
    moves the counters, every further attempt fails as well. *)
Lemma produce_claim_stale_spins fuel mask p w :
  producer_head (ring w) <> p ->
  wsub p (consumer_head (ring w)) < mask ->
  produce_claim fuel mask p w = OutOfFuel.
Proof.
  intros Hstale Hroom. induction fuel as [|fuel IH]; [reflexivity|].
  cbn [produce_claim]. unfold bind, atomic_long_read. cbn [load].
  destruct (Z.ltb_spec (wsub p (consumer_head (ring w))) mask) as [_|]; [|lia].
  rewrite cmpxchg_miss by assumption. cbn [load].
  destruct (Z.eqb_spec (producer_head (ring w)) p); [contradiction|exact IH].
Qed.

Lemma solo_consume_witness :
  exists j r, (j <= 5)%nat /\ return_value r = 7 /\
    run_schedule (repeat 1%nat j) (consumers 2 demo_ring_78)
    = Some (System (dequeued demo_ring_78) (replicate 2 CIdle) [(1%nat, r)]).
Proof.
  apply (solo_consume 0 1 demo_ring_78 7 (dequeued demo_ring_78) (replicate 2 CIdle) []);
    reflexivity.
Defined.

(** * Further properties of the header *)

(** ** Emptiness check, fresh rings *)

Lemma wadd_1_neq c : is_word c -> wadd c 1 <> c.
Proof.
  intros [H0 Hw] Heq. unfold wadd, wrap in Heq. pose proof wordsz_pos.
  destruct (Z.eq_dec c (wordsz - 1)) as [->|Hne].
  - replace (wordsz - 1 + 1) with (1 * wordsz) in Heq by lia.
    rewrite Z.mod_mul in Heq by lia. rewrite wordsz_eq in Heq. lia.
  - rewrite Z.mod_small in Heq by lia. lia.
Qed.

(** X1: on a well-formed ring [mpmc_ptr_ring_empty] answers [true] exactly
    when no element is held, also when the counters have wrapped, and it
    leaves the world as it was. *)
Theorem empty_iff_no_contents (w : world) :
  ring_wf w = true ->
  mpmc_ptr_ring_empty w
  = Done (match contents w with [] => true | _ :: _ => false end) w.
Proof.
  intros Hwf. unfold mpmc_ptr_ring_empty, bind, atomic_long_read, ret. cbn [load].
  pose proof (contents_nil w Hwf) as Hnil.
  destruct (Z.eqb_spec (consumer_head (ring w)) (producer_tail (ring w))) as [Heq|Hne].
  - rewrite (proj2 Hnil Heq). reflexivity.
  - destruct (contents w); [|reflexivity]. exfalso. apply Hne, Hnil. reflexivity.
Qed.

Lemma empty_iff_no_contents_witness :
  mpmc_ptr_ring_empty demo_ring_78
  = Done (match contents demo_ring_78 with [] => true | _ :: _ => false end)
         demo_ring_78.
Proof. apply (empty_iff_no_contents demo_ring_78 demo_ring_78_wf). Defined.

(** X2: right after a successful [init] the array holds only null
    pointers, [mpmc_ptr_ring_empty] answers [true], and consume and peek
    return [NULL]; none of the three changes anything. *)
Theorem fresh_ring_is_empty (fuel : nat) (k : Z) (w : world) :
  0 <= k < 31 ->
  mpmc_ptr_ring_init (2 ^ k) true w = Done 0 (initialised (2 ^ k) w) /\
  heap (initialised (2 ^ k) w) !! queue (ring (initialised (2 ^ k) w))
  = Some (replicate (Z.to_nat (2 ^ k)) NULL) /\
  mpmc_ptr_ring_empty (initialised (2 ^ k) w) = Done true (initialised (2 ^ k) w) /\
  mpmc_ptr_ring_consume (S fuel) (initialised (2 ^ k) w)
  = Done NULL (initialised (2 ^ k) w) /\
  __mpmc_ptr_ring_peek (initialised (2 ^ k) w) = Done NULL (initialised (2 ^ k) w).
Proof.
  intros Hk.
  assert (H31 : 2 ^ k < 2 ^ 31) by (apply Z.pow_lt_mono_r; lia).
  change (2 ^ 31) with 2147483648 in H31.
  assert (Hpow : 0 < 2 ^ k) by (apply Z.pow_pos_nonneg; lia).
  pose proof (int_pow2_size_t k Hk) as Hconv.
  split.
  { rewrite <- Hconv at 2. apply init_allocated.
    - rewrite Hconv. apply is_power_of_2_pow2. lia.
    - rewrite Hconv, wordsz_eq. lia. }
  split; [apply lookup_insert_eq|].
  split; [reflexivity|].
  split; [now apply consume_empty|now apply peek_empty].
Qed.

Lemma fresh_ring_is_empty_witness :
  mpmc_ptr_ring_consume 1 (initialised (2 ^ 2) blank)
  = Done NULL (initialised (2 ^ 2) blank).
Proof.
  apply (fresh_ring_is_empty 0 2 blank). lia.
Defined.

(** ** Single-consumer peek and discard *)

(** X3: on a non-empty ring whose storage is in order, peek followed by
    discard-one returns the same pointer and leaves the same world as one
    consume: the single-consumer pair is a consume without the
    compare-and-swap. *)
Theorem peek_discard_is_consume (fuel : nat) (w : world) :
  storage_ok w = true ->
  consumer_head (ring w) <> producer_tail (ring w) ->
  (let* v := __mpmc_ptr_ring_peek in
   run __mpmc_ptr_ring_discard_one ;; ret v) w
  = mpmc_ptr_ring_consume (S fuel) w /\
  mpmc_ptr_ring_consume (S fuel) w
  = Done (element w (consumer_head (ring w))) (dequeued w).
Proof.
  intros Hok Hne.
  rewrite (consume_nonempty fuel w Hok Hne). split; [|reflexivity].
  unfold bind. rewrite (peek_nonempty w Hok Hne). reflexivity.
Qed.

Lemma peek_discard_is_consume_witness :
  (let* v := __mpmc_ptr_ring_peek in
   run __mpmc_ptr_ring_discard_one ;; ret v) demo_ring_78
  = mpmc_ptr_ring_consume 1 demo_ring_78.
Proof.
  apply (peek_discard_is_consume 0 demo_ring_78).
  - vm_compute. reflexivity.
  - vm_compute. discriminate.
Defined.

(** X4: discard-one does not test for emptiness.  On an empty well-formed
    ring it moves [consumer_head] past [producer_tail]; from then on the
    ring counts [2^64 - 1] held elements: [mpmc_ptr_ring_empty] answers
    [false], every produce returns [-ENOSPC], and consume hands out the
    slot under the old head although nothing was produced into it. *)
Theorem discard_on_empty_ring (fuel : nat) (v : Z) (w : world) :
  ring_wf w = true -> contents w = [] ->
  __mpmc_ptr_ring_discard_one w = Done tt (dequeued w) /\
  occupied (ring (dequeued w)) = wordsz - 1 /\
  mpmc_ptr_ring_empty (dequeued w) = Done false (dequeued w) /\
  mpmc_ptr_ring_produce (S fuel) v (dequeued w) = Done (- ENOSPC) (dequeued w) /\
  mpmc_ptr_ring_consume (S fuel) (dequeued w)
  = Done (element w (wadd (consumer_head (ring w)) 1)) (dequeued (dequeued w)).
Proof.
  intros Hwf Hempty.
  destruct (ring_wf_elim w Hwf) as (k & arr & Hk & Hsz & Hc & Hp & Hidle & Hocc & Harr & Hlen).
  pose proof (proj1 (contents_nil w Hwf) Hempty) as Heq.
  pose proof (wadd_1_neq _ Hc) as Hne.
  assert (Hocc' : occupied (ring (dequeued w)) = wordsz - 1).
  { unfold occupied, dequeued. simpl. rewrite wsub_wadd_1_r, <- Heq, wsub_diag.
    unfold wrap. pose proof wordsz_pos.
    symmetry. apply (Z.mod_unique _ _ (-1)); lia. }
  split; [reflexivity|]. split; [assumption|]. split; [|split].
  - unfold mpmc_ptr_ring_empty, bind, atomic_long_read, ret, dequeued. simpl.
    rewrite <- Heq.
    destruct (Z.eqb_spec (wadd (consumer_head (ring w)) 1) (consumer_head (ring w)));
      [contradiction|reflexivity].
  - apply produce_full.
    change (size (ring (dequeued w))) with (size (ring w)).
    change (producer_head (ring (dequeued w))) with (producer_head (ring w)).
    rewrite Hidle.
    change (wsub (producer_tail (ring w)) (consumer_head (ring (dequeued w))))
      with (occupied (ring (dequeued w))).
    rewrite Hocc'. pose proof (wrap_word (size (ring w) - 1)) as [_ Hm].
    unfold wsub. lia.
  - rewrite consume_nonempty.
    + reflexivity.
    + exact (ring_wf_storage w Hwf).
    + simpl. rewrite <- Heq. assumption.
Qed.

Lemma discard_on_empty_ring_witness :
  mpmc_ptr_ring_empty (dequeued demo_ring) = Done false (dequeued demo_ring) /\
  mpmc_ptr_ring_produce 1 7 (dequeued demo_ring)
  = Done (- ENOSPC) (dequeued demo_ring).
Proof.
  destruct (discard_on_empty_ring 0 7 demo_ring demo_ring_wf eq_refl)
    as (_ & _ & He & Hp & _).
  split; assumption.
Defined.

(** ** What produce and consume leave alone *)

(** X5: a completed produce changes at most [producer_head],
    [producer_tail] and the one slot [producer_head & (size - 1)] of the
    ring's array: [consumer_head], [size], [queue], every other slot, every
    other heap object and the trace are as before, and the array keeps its
    length.  A completed consume changes nothing but [consumer_head]. *)
Theorem calls_frame (fuel : nat) (v : Z) (w : world) :
  (forall rc w', mpmc_ptr_ring_produce fuel v w = Done rc w' ->
     consumer_head (ring w') = consumer_head (ring w) /\
     size (ring w') = size (ring w) /\
     queue (ring w') = queue (ring w) /\
     trace w' = trace w /\
     (forall a, a <> queue (ring w) -> heap w' !! a = heap w !! a) /\
     (forall arr, heap w !! queue (ring w) = Some arr ->
        exists arr', heap w' !! queue (ring w) = Some arr' /\
          length arr' = length arr /\
          forall i : nat,
            i <> Z.to_nat (Z.land (producer_head (ring w)) (wsub (size (ring w)) 1)) ->
            arr' !! i = arr !! i)) /\
  (forall x w', mpmc_ptr_ring_consume fuel w = Done x w' ->
     heap w' = heap w /\ trace w' = trace w /\
     size (ring w') = size (ring w) /\ queue (ring w') = queue (ring w) /\
     producer_head (ring w') = producer_head (ring w) /\
     producer_tail (ring w') = producer_tail (ring w)).
Proof.
  split.
  - intros rc w' Hrun.
    destruct (produce_cases _ _ _ _ _ Hrun) as [(_ & -> & _)|(_ & _ & _ & ->)].
    + repeat split; auto. intros arr Harr. exists arr. auto.
    + unfold enqueued. simpl. repeat split.
      * intros a Ha. apply lookup_alter_ne. auto.
      * intros arr Harr. eexists. rewrite lookup_alter_eq, Harr. simpl.
        split; [reflexivity|]. split; [apply length_insert|].
        intros i Hi. apply list_lookup_insert_ne. auto.
  - intros x w' Hrun.
    destruct (consume_cases _ _ _ _ Hrun) as [(_ & _ & ->)|(_ & _ & ->)];
      repeat split; reflexivity.
Qed.

Lemma calls_frame_witness :
  consumer_head (ring (enqueued 9 demo_ring_78)) = consumer_head (ring demo_ring_78) /\
  heap (dequeued demo_ring_78) = heap demo_ring_78.
Proof.
  destruct (calls_frame 1 9 demo_ring_78) as [Hp Hc]. split.
  - apply (Hp 0 (enqueued 9 demo_ring_78)). reflexivity.
  - apply (Hc 7 (dequeued demo_ring_78)). reflexivity.
Defined.

(** ** Counter wrap-around *)

(** X7: the counters may wrap.  On a well-formed ring whose
    [producer_head] is [2^64 - 1] a produce with room succeeds, leaves both
    producer counters at 0 (below [consumer_head] when the ring was not
    empty), and the ring is again well-formed with the new value behind the
    old contents; the order of the three counters as integers is lost, the
    queue is not. *)
Theorem produce_across_wrap (fuel : nat) (v : Z) (w : world) :
  ring_wf w = true ->
  occupied (ring w) < size (ring w) - 1 ->
  producer_head (ring w) = wordsz - 1 ->
  exists w',
    mpmc_ptr_ring_produce (S fuel) v w = Done 0 w' /\
    producer_head (ring w') = 0 /\ producer_tail (ring w') = 0 /\
    ring_wf w' = true /\
    contents w' = contents w ++ [v] /\
    (contents w <> [] -> ~ counters_ordered (ring w')).
Proof.
  intros Hwf Hroom Hmax.
  destruct (ring_wf_elim w Hwf) as (k & arr & Hk & Hsz & Hc & Hp & Hidle & Hocc & Harr & Hlen).
  assert (Hz : wadd (producer_head (ring w)) 1 = 0).
  { rewrite Hmax. unfold wadd, wrap.
    replace (wordsz - 1 + 1) with (1 * wordsz) by lia.
    apply Z.mod_mul. pose proof wordsz_pos. lia. }
  exists (enqueued v w).
  split; [now apply produce_room|].
  split; [exact Hz|]. split; [exact Hz|].
  split; [now apply enqueued_wf|].
  split; [now apply contents_enqueued|].
  intros Hne (H0 & Hcp & _). simpl in H0, Hcp. rewrite Hz in Hcp.
  assert (Hch : consumer_head (ring w) = 0) by lia.
  apply Hne. apply length_zero_iff_nil.
  rewrite contents_length. unfold occupied in *.
  rewrite Hch, <- Hidle, Hmax in *.
  rewrite wsub_small in Hroom by (pose proof wordsz_pos; lia).
  pose proof (pow2_lt_wordsz k Hk). lia.
Qed.

Lemma produce_across_wrap_witness :
  exists w',
    mpmc_ptr_ring_produce 1 9
      (World (Ring 1 4 (wordsz - 2) (wordsz - 1) (wordsz - 1))
             {[1 := [0; 0; 7; 0]]} []) = Done 0 w' /\
    producer_head (ring w') = 0 /\
    contents w' = [7; 9].
Proof.
  destruct (produce_across_wrap 0 9
              (World (Ring 1 4 (wordsz - 2) (wordsz - 1) (wordsz - 1))
                     {[1 := [0; 0; 7; 0]]} []))
    as (w' & Hrun & Hph & _ & _ & Hq & _).
  - vm_compute. reflexivity.
  - vm_compute. reflexivity.
  - reflexivity.
  - exists w'. split; [assumption|]. split; [assumption|].
    rewrite Hq. vm_compute. reflexivity.
Defined.

(** ** Construction and teardown, misused *)

(** X8: [init] never looks at the old contents of the structure.  Called
    on a ring that is already initialised it succeeds with a fresh array
    and an empty ring; the old array is neither freed nor referenced any
    more (it stays allocated, unchanged), and whatever the ring held is
    gone. *)
Theorem init_again_leaks (k : Z) (w : world) :
  0 <= k < 31 -> storage_ok w = true ->
  exists w',
    mpmc_ptr_ring_init (2 ^ k) true w = Done 0 w' /\
    queue (ring w') <> queue (ring w) /\
    heap w' !! queue (ring w) = heap w !! queue (ring w) /\
    is_Some (heap w' !! queue (ring w)) /\
    trace w' = trace w ++ [EvKcalloc (2 ^ k) (queue (ring w'))] /\
    ring_wf w' = true /\ contents w' = [].
Proof.
  intros Hk Hok.
  destruct (storage_ok_elim w Hok) as (k0 & arr & Hk0 & Hsz & Harr & Hlen).
  assert (H31 : 2 ^ k < 2 ^ 31) by (apply Z.pow_lt_mono_r; lia).
  change (2 ^ 31) with 2147483648 in H31.
  assert (Hpow : 0 < 2 ^ k) by (apply Z.pow_pos_nonneg; lia).
  pose proof (int_pow2_size_t k Hk) as Hconv.
  assert (Hfresh : fresh_addr (heap w) <> queue (ring w)).
  { intros Heq. pose proof (fresh_addr_free (heap w)) as Hf.
    rewrite Heq, Harr in Hf. discriminate. }
  exists (initialised (2 ^ k) w).
  split.
  { rewrite <- Hconv at 2. apply init_allocated.
    - rewrite Hconv. apply is_power_of_2_pow2. lia.
    - rewrite Hconv, wordsz_eq. lia. }
  split; [exact Hfresh|].
  assert (Hold : heap (initialised (2 ^ k) w) !! queue (ring w)
                 = heap w !! queue (ring w)).
  { simpl. apply lookup_insert_ne. exact Hfresh. }
  split; [exact Hold|]. split; [rewrite Hold, Harr; eauto|].
  split; [reflexivity|].
  split; [apply initialised_wf; lia|apply initialised_contents].
Qed.

Lemma init_again_leaks_witness :
  exists w',
    mpmc_ptr_ring_init (2 ^ 1) true demo_ring_78 = Done 0 w' /\
    heap w' !! queue (ring demo_ring_78) = Some [7; 8; 0; 0] /\
    contents w' = [].
Proof.
  destruct (init_again_leaks 1 demo_ring_78) as (w' & Hrun & _ & Hold & _ & _ & _ & Hq).
  - lia.
  - vm_compute. reflexivity.
  - exists w'. split; [assumption|]. split; [|assumption].
    rewrite Hold. vm_compute. reflexivity.
Defined.

Lemma dangling_read i w :
  heap w !! queue (ring w) = None -> READ_ONCE_queue i w = Undefined.
Proof. intros H. unfold READ_ONCE_queue. now rewrite H. Qed.

(** X9: teardown frees the array and leaves the pointer in [r->queue].
    After a teardown of a well-formed ring every later access to a slot is
    undefined behaviour: a produce that finds room, a consume or a peek of
    a ring that still counts elements, and a second teardown (a double
    free). *)
Theorem use_after_cleanup (fuel : nat) (d : bool) (v : Z) (w : world) :
  ring_wf w = true ->
  let w' := World (ring w) (delete (queue (ring w)) (heap w))
                  (trace w ++ [EvKfree (queue (ring w))]) in
  mpmc_ptr_ring_cleanup fuel false w = Done tt w' /\
  mpmc_ptr_ring_cleanup (S fuel) d w' = Undefined /\
  (occupied (ring w) < size (ring w) - 1 ->
   mpmc_ptr_ring_produce (S fuel) v w' = Undefined) /\
  (contents w <> [] ->
   mpmc_ptr_ring_consume (S fuel) w' = Undefined /\
   __mpmc_ptr_ring_peek w' = Undefined).
Proof.
  intros Hwf w'.
  pose proof (ring_wf_storage w Hwf) as Hst.
  pose proof (storage_ok_nonnull w Hst) as Hq.
  destruct (ring_wf_elim w Hwf) as (k & arr & Hk & Hsz & Hc & Hp & Hidle & Hocc & Harr & Hlen).
  assert (Hgone : heap w' !! queue (ring w') = None) by apply lookup_delete_eq.
  assert (Hqb : (queue (ring w) =? NULL) = false) by now apply Z.eqb_neq.
  assert (Hcons : consumer_head (ring w) <> producer_tail (ring w) ->
                  mpmc_ptr_ring_consume (S fuel) w' = Undefined).
  { intros Hne. unfold mpmc_ptr_ring_consume, bind, read_size. cbn [consume_loop].
    unfold bind, atomic_long_read. cbn [load ring w'].
    destruct (Z.eqb_spec (producer_tail (ring w)) (consumer_head (ring w)));
      [congruence|].
    rewrite dangling_read by exact Hgone. reflexivity. }
  split; [|split; [|split]].
  - unfold mpmc_ptr_ring_cleanup, bind, ret, read_queue, kfree.
    rewrite Hqb, Harr. reflexivity.
  - unfold mpmc_ptr_ring_cleanup, bind.
    assert (Hfree : forall u, ring u = ring w -> heap u = heap w' ->
                              (let* q := read_queue in kfree q) u = Undefined).
    { intros u Hr Hh. unfold bind, read_queue, kfree. rewrite Hr, Hqb, Hh.
      unfold w'. simpl. rewrite lookup_delete_eq. reflexivity. }
    destruct d; [|exact (Hfree w' eq_refl eq_refl)].
    cbn [cleanup_loop]. unfold bind.
    destruct (Z.eq_dec (consumer_head (ring w)) (producer_tail (ring w))) as [Heq|Hne].
    + rewrite (consume_empty fuel w' Heq).
      exact (Hfree w' eq_refl eq_refl).
    + rewrite Hcons by assumption. reflexivity.
  - intros Hroom.
    unfold mpmc_ptr_ring_produce, bind, read_size, atomic_long_read. cbn [load].
    cbn [produce_claim]. unfold bind, atomic_long_read. cbn [load ring w'].
    assert (Hlt : wsub (producer_head (ring w)) (consumer_head (ring w))
                  < wsub (size (ring w)) 1).
    { rewrite Hidle. fold (occupied (ring w)). rewrite Hsz in *.
      pose proof (pow2_lt_wordsz k Hk).
      assert (0 < 2 ^ k) by (apply Z.pow_pos_nonneg; lia).
      rewrite (wsub_small (2 ^ k) 1) by lia. lia. }
    destruct (Z.ltb_spec (wsub (producer_head (ring w)) (consumer_head (ring w)))
                (wsub (size (ring w)) 1)) as [_|]; [|lia].
    rewrite cmpxchg_hit by reflexivity. rewrite Z.eqb_refl. unfold ret.
    unfold WRITE_ONCE_queue. simpl. rewrite lookup_delete_eq. reflexivity.
  - intros Hne.
    assert (Hne' : consumer_head (ring w) <> producer_tail (ring w)).
    { intros Heq. apply Hne. now apply contents_nil. }
    split; [now apply Hcons|].
    unfold __mpmc_ptr_ring_peek, bind, read_size, atomic_long_read. cbn [load ring w'].
    destruct (Z.eqb_spec (consumer_head (ring w)) (producer_tail (ring w)));
      [contradiction|].
    now apply dangling_read.
Qed.

Lemma use_after_cleanup_witness :
  mpmc_ptr_ring_cleanup 1 true
    (World (ring demo_ring_78) (delete (queue (ring demo_ring_78)) (heap demo_ring_78))
           (trace demo_ring_78 ++ [EvKfree (queue (ring demo_ring_78))]))
  = Undefined.
Proof.
  apply (use_after_cleanup 0 true 0 demo_ring_78 demo_ring_78_wf).
Defined.

Lemma advance_S k w : advance (S k) w = dequeued (advance k w).
Proof.
  unfold advance, dequeued, set_ring. simpl. rewrite wadd_assoc.
  replace (Z.of_nat k + 1) with (Z.of_nat (S k)) by lia. reflexivity.
Qed.

Lemma ring_advance_dequeued k e w :
  ring (advance k (log e (dequeued w))) = ring (advance (S k) w).
Proof.
  unfold advance, dequeued, log, set_ring. simpl. rewrite wadd_assoc.
  replace (1 + Z.of_nat k) with (Z.of_nat (S k)) by lia. reflexivity.
Qed.

Lemma cleanup_loop_null cf : forall (pre post : list Z) (fuel : nat) (w : world),
  ring_wf w = true -> contents w = pre ++ NULL :: post ->
  Forall (fun x => x <> NULL) pre ->
  (length pre < fuel)%nat ->
  cleanup_loop fuel (S cf) w
  = Done tt (World (ring (advance (S (length pre)) w)) (heap w)
                   (trace w ++ map EvDestroy pre)).
Proof.
  induction pre as [|x pre IH]; intros post fuel w Hwf Hq Hnn Hfuel;
    (destruct fuel as [|fuel]; [simpl in Hfuel; lia|]);
    assert (Hne : consumer_head (ring w) <> producer_tail (ring w))
      by (intros Heq; apply (contents_nil w Hwf) in Heq; rewrite Heq in Hq;
          exact (app_cons_not_nil _ _ _ Hq));
    pose proof (contents_dequeued w Hwf Hne) as Hd; rewrite Hq in Hd;
    simpl in Hd; injection Hd as Hx Hq';
    destruct (ring_wf_elim w Hwf) as (k & arr & _ & _ & Hc & _);
    cbn [cleanup_loop]; unfold bind;
    rewrite (consume_nonempty cf w (ring_wf_storage _ Hwf) Hne), <- Hx.
  - cbn [length map]. rewrite app_nil_r, advance_S, advance_0 by assumption.
    reflexivity.
  - apply Forall_cons in Hnn as [Hxn Hnn].
    destruct (Z.eqb_spec x NULL) as [|_]; [contradiction|].
    unfold call_destroy.
    rewrite (IH post fuel (log (EvDestroy x) (dequeued w))).
    + rewrite ring_advance_dequeued. cbn [length map heap trace log dequeued set_ring].
      rewrite <- app_assoc. reflexivity.
    + change (ring_wf (log (EvDestroy x) (dequeued w))) with (ring_wf (dequeued w)).
      now apply dequeued_wf.
    + symmetry. exact Hq'.
    + assumption.
    + simpl in Hfuel. lia.
Qed.

(** X10: the drain loop of teardown takes the first null pointer consume
    returns for the end of the ring.  On a well-formed ring holding
    [pre ++ NULL :: post] with [pre] free of nulls, teardown with a
    destructor calls it on the elements of [pre] only, consumes the null
    element as well, and frees the array while the elements of [post]
    are still counted as held and were never passed to the destructor. *)
Theorem cleanup_stops_at_first_null (fuel : nat) (w : world) (pre post : list Z) :
  ring_wf w = true ->
  contents w = pre ++ NULL :: post ->
  Forall (fun x => x <> NULL) pre ->
  (length pre < fuel)%nat ->
  mpmc_ptr_ring_cleanup fuel true w
  = Done tt (World (ring (advance (S (length pre)) w))
                   (delete (queue (ring w)) (heap w))
                   (trace w ++ map EvDestroy pre ++ [EvKfree (queue (ring w))])) /\
  occupied (ring (advance (S (length pre)) w)) = Z.of_nat (length post).
Proof.
  intros Hwf Hq Hnn Hfuel.
  pose proof (ring_wf_storage w Hwf) as Hst.
  pose proof (storage_ok_nonnull w Hst) as Hqn.
  destruct (storage_ok_elim w Hst) as (k & arr & Hk & Hsz & Harr & Hlen).
  apply Z.eqb_neq in Hqn.
  split.
  - unfold mpmc_ptr_ring_cleanup, bind.
    destruct fuel as [|fuel]; [lia|].
    rewrite (cleanup_loop_null fuel pre post (S fuel) w) by auto.
    unfold read_queue, kfree. cbn [ring heap trace queue advance set_ring store].
    rewrite Hqn, Harr. unfold log, set_heap. simpl.
    rewrite <- app_assoc. reflexivity.
  - rewrite occupied_advance.
    + rewrite occupied_length, Hq, length_app. simpl. lia.
    + rewrite Hq, length_app. simpl. lia.
Qed.

Lemma cleanup_stops_at_first_null_witness :
  mpmc_ptr_ring_cleanup 5 true (enqueued 9 (enqueued NULL (enqueued 7 demo_ring)))
  = Done tt
      (World (ring (advance 2 (enqueued 9 (enqueued NULL (enqueued 7 demo_ring)))))
             (delete (queue (ring demo_ring))
                     (heap (enqueued 9 (enqueued NULL (enqueued 7 demo_ring)))))
             (trace demo_ring ++ map EvDestroy [7] ++ [EvKfree (queue (ring demo_ring))])).
Proof.
  apply (proj1 (cleanup_stops_at_first_null 5
                  (enqueued 9 (enqueued NULL (enqueued 7 demo_ring))) [7] [9]
                  ltac:(vm_compute; reflexivity) ltac:(vm_compute; reflexivity)
                  ltac:(repeat constructor; discriminate) ltac:(simpl; lia))).
Defined.

(** * The pool, step by step *)

Lemma thread_step_tstep rq t w t' w' :
  thread_step rq t w = Some (t', w') -> tstep w t t' w'.
Proof.
  intros Hstep.
  destruct t as [|c|p]; cbn [thread_step] in Hstep.
  - unfold read_size in Hstep. destruct rq; injection Hstep as <- <-; constructor.
  - destruct c as [|mask|mask c|mask c|mask c e]; cbn [consume_step] in Hstep.
    + unfold read_size in Hstep. injection Hstep as <- <-. constructor.
    + unfold atomic_long_read in Hstep. injection Hstep as <- <-. constructor.
    + unfold atomic_long_read in Hstep. cbn [load] in Hstep.
      destruct (Z.eqb_spec (producer_tail (ring w)) c);
        injection Hstep as <- <-; now constructor.
    + unfold READ_ONCE_queue in Hstep.
      destruct (heap w !! queue (ring w)) as [arr|] eqn:Harr; [|discriminate].
      destruct (arr !! _) as [e|] eqn:He; [|discriminate].
      injection Hstep as <- <-. now apply (st_c_slot w mask c arr e).
    + destruct (Z.eq_dec (consumer_head (ring w)) c) as [Heq|Hne].
      * rewrite cmpxchg_hit, Z.eqb_refl in Hstep by assumption.
        injection Hstep as <- <-. now constructor.
      * rewrite cmpxchg_miss in Hstep by assumption. cbn [load] in Hstep.
        destruct (Z.eqb_spec (consumer_head (ring w)) c); [contradiction|].
        injection Hstep as <- <-. now constructor.
  - destruct p as [mask ptr|mask ptr p|mask ptr p|mask ptr p|mask ptr p|mask ptr p|mask ptr p];
      cbn [produce_step] in Hstep.
    + unfold atomic_long_read in Hstep. injection Hstep as <- <-. constructor.
    + unfold atomic_long_read in Hstep. cbn [load] in Hstep.
      destruct (Z.ltb_spec (wsub p (consumer_head (ring w))) mask);
        injection Hstep as <- <-; constructor; lia.
    + destruct (Z.eq_dec (producer_head (ring w)) p) as [Heq|Hne].
      * rewrite cmpxchg_hit, Z.eqb_refl in Hstep by assumption.
        injection Hstep as <- <-. now constructor.
      * rewrite cmpxchg_miss in Hstep by assumption. cbn [load] in Hstep.
        destruct (Z.eqb_spec (producer_head (ring w)) p); [contradiction|].
        injection Hstep as <- <-. now constructor.
    + unfold atomic_long_read in Hstep. cbn [load] in Hstep.
      destruct (Z.eqb_spec (producer_head (ring w)) p);
        injection Hstep as <- <-; now constructor.
    + unfold WRITE_ONCE_queue in Hstep.
      destruct (heap w !! queue (ring w)) as [arr|] eqn:Harr; [|discriminate].
      destruct (decide _) as [Hin|]; [|discriminate].
      injection Hstep as <- <-. now apply (st_p_write w mask ptr p arr).
    + unfold atomic_long_read in Hstep. cbn [load] in Hstep.
      destruct (Z.eqb_spec (producer_tail (ring w)) p);
        injection Hstep as <- <-; now constructor.
    + unfold atomic_long_set in Hstep. injection Hstep as <- <-. constructor.
Qed.

Lemma mod_distinct s a b : 0 < s -> 0 < b - a < s -> a mod s <> b mod s.
Proof.
  intros Hs Hab. pose proof (slot_distinct s a 0 (b - a) Hs) as H.
  rewrite Z.add_0_r in H. replace (a + (b - a)) with b in H by lia.
  apply H; lia.
Qed.

Lemma element_slot w k arr i :
  0 <= k < 64 -> size (ring w) = 2 ^ k ->
  heap w !! queue (ring w) = Some arr ->
  element w i = default NULL (arr !! Z.to_nat (i mod 2 ^ k)).
Proof.
  intros Hk Hsz Harr. unfold element. rewrite Harr, Hsz. simpl.
  now rewrite land_mask_mod.
Qed.

(** The world after [WRITE_ONCE(r->queue[p & mask], ptr)]. *)
Lemma element_written w k arr p ptr i :
  0 <= k < 64 -> size (ring w) = 2 ^ k ->
  heap w !! queue (ring w) = Some arr ->
  Z.of_nat (length arr) = size (ring w) ->
  element (set_heap (<[queue (ring w) :=
                        <[Z.to_nat (Z.land p (wsub (size (ring w)) 1)) := ptr]> arr]>
                       (heap w)) w) i
  = if decide (i mod 2 ^ k = p mod 2 ^ k) then ptr else element w i.
Proof.
  intros Hk Hsz Harr Hlen.
  assert (Hpow : 0 < 2 ^ k) by (apply Z.pow_pos_nonneg; lia).
  rewrite (element_slot w k arr i) by assumption.
  rewrite (element_slot _ k (<[Z.to_nat (Z.land p (wsub (size (ring w)) 1)) := ptr]> arr) i);
    [|assumption|exact Hsz|apply lookup_insert_eq].
  rewrite Hsz, land_mask_mod by assumption.
  pose proof (Z.mod_pos_bound i (2 ^ k) Hpow).
  pose proof (Z.mod_pos_bound p (2 ^ k) Hpow).
  destruct (decide (i mod 2 ^ k = p mod 2 ^ k)) as [Heq|Hne].
  - rewrite Heq, list_lookup_insert_eq by lia. reflexivity.
  - rewrite list_lookup_insert_ne; [reflexivity|]. intros Heq.
    apply Hne. symmetry. apply Z2Nat.inj; lia.
Qed.

(** The held elements when the counters have not wrapped. *)
Lemma contents_ordered w :
  counters_ordered (ring w) ->
  contents w
  = map (fun j => element w (consumer_head (ring w) + Z.of_nat j))
        (seq 0 (Z.to_nat (producer_tail (ring w) - consumer_head (ring w)))).
Proof.
  intros Hord. pose proof (counters_ordered_occupied _ Hord) as Hocc.
  destruct Hord as (H0 & Hcp & Hpp & Hw).
  unfold contents. rewrite Hocc. apply map_ext_in. intros j Hj.
  apply in_seq in Hj. rewrite wadd_small by lia. reflexivity.
Qed.

Lemma contents_after_win w :
  counters_ordered (ring w) ->
  consumer_head (ring w) < producer_tail (ring w) ->
  contents w
  = element w (consumer_head (ring w))
    :: contents (set_ring (store ConsumerHead (consumer_head (ring w) + 1) (ring w)) w).
Proof.
  intros Hord Hlt. pose proof Hord as (H0 & Hcp & Hpp & Hw).
  rewrite (contents_ordered w Hord), contents_ordered
    by (unfold counters_ordered; simpl; lia).
  simpl.
  replace (Z.to_nat (producer_tail (ring w) - consumer_head (ring w)))
    with (S (Z.to_nat (producer_tail (ring w) - (consumer_head (ring w) + 1)))) by lia.
  cbn [seq map]. rewrite Z.add_0_r. f_equal.
  rewrite <- seq_shift, map_map. apply map_ext. intros j.
  replace (consumer_head (ring w) + 1 + Z.of_nat j)
    with (consumer_head (ring w) + Z.of_nat (S j)) by lia.
  reflexivity.
Qed.

Lemma contents_after_commit w :
  counters_ordered (ring w) ->
  producer_tail (ring w) < producer_head (ring w) ->
  contents (set_ring (store ProducerTail (producer_tail (ring w) + 1) (ring w)) w)
  = contents w ++ [element w (producer_tail (ring w))].
Proof.
  intros Hord Hlt. pose proof Hord as (H0 & Hcp & Hpp & Hw).
  rewrite (contents_ordered w Hord), contents_ordered
    by (unfold counters_ordered; simpl; lia).
  simpl.
  replace (Z.to_nat (producer_tail (ring w) + 1 - consumer_head (ring w)))
    with (S (Z.to_nat (producer_tail (ring w) - consumer_head (ring w)))) by lia.
  rewrite seq_S, map_app. cbn [map Nat.add]. f_equal. f_equal.
  replace (consumer_head (ring w)
           + Z.of_nat (Z.to_nat (producer_tail (ring w) - consumer_head (ring w))))
    with (producer_tail (ring w)) by lia.
  reflexivity.
Qed.

Lemma contents_after_write w k arr p ptr :
  0 <= k < 64 -> size (ring w) = 2 ^ k ->
  heap w !! queue (ring w) = Some arr ->
  Z.of_nat (length arr) = size (ring w) ->
  counters_ordered (ring w) ->
  producer_tail (ring w) <= p ->
  p - consumer_head (ring w) < size (ring w) ->
  contents (set_heap (<[queue (ring w) :=
                         <[Z.to_nat (Z.land p (wsub (size (ring w)) 1)) := ptr]> arr]>
                        (heap w)) w)
  = contents w.
Proof.
  intros Hk Hsz Harr Hlen Hord Hp Hroom.
  assert (Hpow : 0 < 2 ^ k) by (apply Z.pow_pos_nonneg; lia).
  rewrite (contents_ordered w Hord), contents_ordered by exact Hord.
  simpl. apply map_ext_in. intros j Hj. apply in_seq in Hj.
  rewrite (element_written w k arr p ptr) by assumption.
  destruct (decide _) as [Heq|_]; [|reflexivity].
  exfalso. revert Heq. apply mod_distinct; lia.
Qed.

(** What one step does to the data part of the invariant and to the queue
    of held elements. *)
Lemma tstep_data w ts tid t t' w' :
  lin_inv (w, ts) ->
  producer_head (ring w) + 1 < wordsz ->
  ts !! tid = Some t ->
  tstep w t t' w' ->
  producer_head (ring w') - consumer_head (ring w') <= size (ring w') - 1 /\
  data_local w' t' /\
  (forall i u, i <> tid -> ts !! i = Some u -> data_local w' u) /\
  contents w' = step_effect t w (contents w) /\
  (forall mask c e, t = TConsume (CCas mask c e) -> consumer_head (ring w) = c ->
                    head (contents w) = Some e).
Proof.
  intros [Hpool Hst Hmasks Hroom Hloc] Hnw Hlook Hstep. simpl in *.
  pose proof Hpool as [Hcnt Hl Hdis]. simpl in *.
  pose proof Hcnt as (H0 & Hcp & Hpp & Hw).
  destruct (storage_ok_elim w Hst) as (k & arr & Hk & Hsz & Harr & Hlen).
  assert (Hpow : 0 < 2 ^ k) by (apply Z.pow_pos_nonneg; lia).
  pose proof (pow2_lt_wordsz k Hk) as Hpw.
  assert (Hmask : wsub (size (ring w)) 1 = size (ring w) - 1).
  { rewrite Hsz. apply wsub_small. lia. }
  pose proof (Hl tid t Hlook) as Ht.
  pose proof (Hloc tid t Hlook) as Hd.
  pose proof (Forall_lookup_1 _ _ _ _ Hmasks Hlook) as Hm.
  assert (Hsilent : forall u, data_local w u ->
            step_effect t w (contents w) = contents w ->
            (forall mask c e, t = TConsume (CCas mask c e) ->
                              consumer_head (ring w) = c -> False) ->
            producer_head (ring w) - consumer_head (ring w) <= size (ring w) - 1 /\
            data_local w u /\
            (forall i u, i <> tid -> ts !! i = Some u -> data_local w u) /\
            contents w = step_effect t w (contents w) /\
            (forall mask c e, t = TConsume (CCas mask c e) ->
                              consumer_head (ring w) = c ->
                              head (contents w) = Some e)).
  { intros u Hu He Hno. repeat split; eauto.
    intros mask c e Heq Hc. exfalso. eauto. }
  revert Ht Hd Hm Hsilent.
  destruct Hstep as [ptr| | |mask|mask c Hc|mask c Hc|mask c arr0 e Harr0 He
                    |mask c e Hc|mask c e Hc
                    |mask ptr|mask ptr p Hr|mask ptr p Hr|mask ptr p Hp|mask ptr p Hp
                    |mask ptr p Hp|mask ptr p Hp|mask ptr p arr0 Harr0 Hin
                    |mask ptr p Hp|mask ptr p Hp|mask ptr p];
    intros Ht Hd Hm Hsilent; simpl in Ht, Hd, Hm;
    try (apply Hsilent; simpl; auto; try discriminate; fail).
  - (* the slot is read *)
    apply Hsilent; simpl; [|reflexivity|discriminate].
    split; [assumption|]. intros _.
    unfold element. rewrite Harr0. simpl. rewrite <- Hm, He. reflexivity.
  - (* the consumer wins its compare-and-swap *)
    subst c. destruct Hd as [_ Hel]. specialize (Hel eq_refl).
    rewrite wadd_small by lia.
    pose proof (contents_after_win w Hcnt Ht) as Hq.
    split; [simpl; lia|]. split; [exact I|]. split; [|split].
    + intros i u Hi Hu. pose proof (Hloc i u Hu) as Hdu.
      destruct u as [|[]|[]]; simpl in *; auto; try lia.
    + simpl. rewrite Z.eqb_refl, Hq. reflexivity.
    + intros mask0 c0 e0 Heq _. injection Heq as _ _ <-.
      rewrite Hq, Hel. reflexivity.
  - (* the consumer loses its compare-and-swap *)
    apply Hsilent; simpl; auto.
    + destruct (Z.eqb_spec (consumer_head (ring w)) c); [contradiction|reflexivity].
    + intros mask0 c0 e0 Heq Hc0. injection Heq as _ <- _. contradiction.
  - (* [producer_head] is read *)
    apply Hsilent; simpl; auto; try discriminate. lia.
  - (* the room test passes *)
    apply Hsilent; simpl; auto; try discriminate.
    split; [assumption|]. subst mask. rewrite Hmask in Hr.
    destruct (Z_lt_le_dec p (consumer_head (ring w))) as [Hlt|Hge]; [lia|].
    rewrite wsub_small in Hr by lia. lia.
  - (* the producer wins its compare-and-swap *)
    subst p. destruct Hd as [_ Hd]. rewrite wadd_small by lia.
    split; [simpl; lia|]. split; [exact I|]. split; [|split].
    + intros i u Hi Hu. pose proof (Hloc i u Hu) as Hdu.
      destruct u as [|[]|[]]; simpl in *; auto; lia.
    + reflexivity.
    + discriminate.
  - (* the producer loses its compare-and-swap *)
    apply Hsilent; simpl; auto; try discriminate. tauto.
  - (* full, but [producer_head] has moved *)
    apply Hsilent; simpl; auto; try discriminate. lia.
  - (* the slot is written *)
    rewrite Harr in Harr0. injection Harr0 as <-. subst mask.
    pose proof (element_written w k arr p ptr) as Hwr.
    split; [exact Hroom|]. split; [|split; [|split]].
    + simpl. rewrite Hwr by assumption.
      destruct (decide _); [reflexivity|contradiction].
    + intros i u Hi Hu. pose proof (Hloc i u Hu) as Hdu.
      pose proof (Hl i u Hu) as Hlu.
      assert (Hnp : claimed u = Some p -> False).
      { intros Hcu. exact (Hdis tid i _ u p (not_eq_sym Hi) Hlook Hu eq_refl Hcu). }
      destruct u as [|[]|[]]; simpl in *; auto.
      * destruct Hdu as [Hle Himp]. split; [assumption|]. intros Heq.
        rewrite Hwr by assumption.
        destruct (decide _) as [Hm2|_]; [|auto].
        exfalso. revert Hm2. apply mod_distinct; lia.
      * rewrite Hwr by assumption.
        destruct (decide _) as [Hm2|_]; [|assumption].
        exfalso. assert (p0 <> p) by (intros ->; auto).
        destruct (Z_lt_le_dec p0 p).
        -- revert Hm2. apply mod_distinct; lia.
        -- symmetry in Hm2. revert Hm2. apply mod_distinct; lia.
      * rewrite Hwr by assumption.
        destruct (decide _) as [Hm2|_]; [|assumption].
        exfalso. assert (p0 <> p) by (intros ->; auto).
        destruct (Z_lt_le_dec p0 p).
        -- revert Hm2. apply mod_distinct; lia.
        -- symmetry in Hm2. revert Hm2. apply mod_distinct; lia.
    + simpl. apply (contents_after_write w k arr p ptr); auto; lia.
    + discriminate.
  - (* the commit *)
    destruct Ht as [Hpt Hph]. subst p. rewrite wadd_small by lia.
    split; [exact Hroom|]. split; [exact I|]. split; [|split].
    + intros i u Hi Hu. pose proof (Hloc i u Hu) as Hdu.
      destruct u as [|[]|[]]; simpl in *; auto.
    + rewrite contents_after_commit by assumption. simpl. now rewrite Hd.
    + discriminate.
Qed.

Lemma lin_step tid rq s s' :
  lin_inv s ->
  producer_head (ring (fst s)) + 1 < wordsz ->
  pool_step tid rq s = Some s' ->
  lin_inv s' /\
  producer_head (ring (fst s')) <= producer_head (ring (fst s)) + 1 /\
  size (ring (fst s')) = size (ring (fst s)) /\
  length (snd s') = length (snd s) /\
  exists t,
    snd s !! tid = Some t /\
    contents (fst s') = step_effect t (fst s) (contents (fst s)) /\
    (forall mask c e, t = TConsume (CCas mask c e) ->
                      consumer_head (ring (fst s)) = c ->
                      head (contents (fst s)) = Some e).
Proof.
  intros Hinv Hnw Hstep.
  destruct (pool_step_inv tid rq s s' (linv_pool _ Hinv) Hnw Hstep) as [Hpool' Hph].
  destruct s as [w ts]. simpl in *.
  pose proof Hstep as Hstep0.
  unfold pool_step in Hstep. simpl in Hstep.
  destruct (ts !! tid) as [t|] eqn:Hlook; [|discriminate].
  destruct (thread_step rq t w) as [[t' w']|] eqn:Hts; [|discriminate].
  injection Hstep as <-.
  pose proof (lookup_lt_Some _ _ _ Hlook) as Htid.
  destruct (pool_step_total tid rq (w, ts) (linv_storage _ Hinv) (linv_masks _ Hinv) Htid)
    as (s2 & Hstep2 & Hst' & Hsz' & Hmasks' & Hlen').
  rewrite Hstep0 in Hstep2. injection Hstep2 as <-. simpl in *.
  destruct (tstep_data w ts tid t t' w' Hinv Hnw Hlook (thread_step_tstep _ _ _ _ _ Hts))
    as (Hroom' & Hd' & Hothers & Heff & Hhead).
  split; [|split; [assumption|split; [assumption|split; [assumption|]]]].
  - constructor; simpl; try assumption.
    intros i u Hi. destruct (Nat.eq_dec i tid) as [->|Hne].
    + rewrite list_lookup_insert_eq in Hi by assumption. injection Hi as <-. assumption.
    + rewrite list_lookup_insert_ne in Hi by auto. eauto.
  - exists t. auto.
Qed.

Lemma idle_lin_inv n w :
  ring_wf w = true -> consumer_head (ring w) <= producer_tail (ring w) ->
  lin_inv (w, replicate n TIdle).
Proof.
  intros Hwf Hle.
  destruct (ring_wf_elim w Hwf) as (k & arr & Hk & Hsz & Hc & Hp & Hidle & Hocc & Harr & Hlen).
  assert (Hord : counters_ordered (ring w)).
  { destruct Hc, Hp. unfold counters_ordered. lia. }
  constructor; simpl.
  - now apply idle_pool_inv.
  - now apply ring_wf_storage.
  - apply Forall_replicate. exact I.
  - rewrite (counters_ordered_occupied _ Hord) in Hocc. lia.
  - intros i t Hi. apply lookup_replicate_1 in Hi as [-> _]. exact I.
Qed.

Lemma pool_run_lin sched : forall s,
  lin_inv s ->
  Forall (fun x => (fst x < length (snd s))%nat) sched ->
  producer_head (ring (fst s)) + Z.of_nat (length sched) < wordsz ->
  exists s',
    pool_run sched s = Some s' /\ lin_inv s' /\
    producer_head (ring (fst s')) <= producer_head (ring (fst s)) + Z.of_nat (length sched) /\
    size (ring (fst s')) = size (ring (fst s)) /\
    length (snd s') = length (snd s).
Proof.
  induction sched as [|[tid rq] sched IH]; intros s Hinv Hsched Hbound.
  - exists s. cbn [pool_run length].
    split; [reflexivity|]. split; [assumption|]. split; [lia|]. auto.
  - apply Forall_cons in Hsched as [Htid Hsched]. simpl in Htid.
    cbn [length] in Hbound.
    destruct (pool_step_total tid rq s (linv_storage _ Hinv) (linv_masks _ Hinv) Htid)
      as (s1 & Hstep & _).
    destruct (lin_step tid rq s s1 Hinv ltac:(lia) Hstep)
      as (Hinv1 & Hph1 & Hsz1 & Hlen1 & _).
    destruct (IH s1 Hinv1) as (s' & Hrun & Hinv' & Hph' & Hsz' & Hlen').
    { rewrite Hlen1. assumption. }
    { lia. }
    exists s'. cbn [pool_run length]. rewrite Hstep.
    split; [assumption|]. split; [assumption|]. split; [lia|].
    split; congruence.
Qed.

(** ** Claimed slots *)

(** X11: in every state that producer and consumer threads can reach from
    a quiescent well-formed ring (counters not wrapping), at most
    [size - 1] indices are claimed or held, every index a producer has
    claimed and not committed lies in [[producer_tail, producer_head)],
    its slot is not the slot of any held element, and no two producers
    have claimed the same slot: a producer never overwrites an element that
    has not been consumed, nor the slot of another producer. *)
Theorem claimed_slots_disjoint (n : nat) (sched : list (nat * request)) (w : world) :
  ring_wf w = true ->
  consumer_head (ring w) <= producer_tail (ring w) ->
  Forall (fun x => (fst x < n)%nat) sched ->
  producer_head (ring w) + Z.of_nat (length sched) < wordsz ->
  exists s,
    pool_run sched (w, replicate n TIdle) = Some s /\
    producer_head (ring (fst s)) - consumer_head (ring (fst s)) <= size (ring w) - 1 /\
    forall i t p,
      snd s !! i = Some t -> claimed t = Some p ->
      producer_tail (ring (fst s)) <= p < producer_head (ring (fst s)) /\
      (forall j, consumer_head (ring (fst s)) <= j < producer_tail (ring (fst s)) ->
                 j mod size (ring w) <> p mod size (ring w)) /\
      (forall i' t' p', i' <> i -> snd s !! i' = Some t' -> claimed t' = Some p' ->
                        p' mod size (ring w) <> p mod size (ring w)).
Proof.
  intros Hwf Hle Hsched Hbound.
  destruct (pool_run_lin sched (w, replicate n TIdle) (idle_lin_inv n w Hwf Hle))
    as (s & Hrun & [Hpool Hst Hmasks Hroom Hloc] & _ & Hsz & _).
  { simpl. rewrite length_replicate. assumption. }
  { assumption. }
  simpl in Hsz. rewrite Hsz in Hroom.
  exists s. split; [assumption|]. split; [assumption|].
  destruct Hpool as [(H0 & Hcp & Hpp & Hw) Hl Hdis].
  destruct (storage_ok_elim _ Hst) as (k & arr & Hk & Hsz' & _).
  assert (Hpos : 0 < size (ring w)).
  { rewrite <- Hsz, Hsz'. apply Z.pow_pos_nonneg; lia. }
  assert (Hrange : forall i t p, snd s !! i = Some t -> claimed t = Some p ->
            producer_tail (ring (fst s)) <= p < producer_head (ring (fst s))).
  { intros i t p Hi Hc. pose proof (Hl i t Hi) as Hlt.
    destruct t as [|[]|[]]; simpl in *; try discriminate;
      injection Hc as ->; lia. }
  intros i t p Hi Hc. pose proof (Hrange i t p Hi Hc) as Hp.
  split; [assumption|]. split.
  - intros j Hj. apply mod_distinct; lia.
  - intros i' t' p' Hne Hi' Hc'. pose proof (Hrange i' t' p' Hi' Hc') as Hp'.
    assert (p' <> p).
    { intros ->. exact (Hdis i' i t' t p Hne Hi' Hi Hc' Hc). }
    destruct (Z_lt_le_dec p' p).
    + apply mod_distinct; lia.
    + apply not_eq_sym, mod_distinct; lia.
Qed.

Lemma claimed_slots_disjoint_witness :
  exists s,
    pool_run (take 10 race_schedule) (demo_ring, replicate 3 TIdle) = Some s /\
    producer_head (ring (fst s)) - consumer_head (ring (fst s))
    <= size (ring demo_ring) - 1 /\
    forall i t p,
      snd s !! i = Some t -> claimed t = Some p ->
      producer_tail (ring (fst s)) <= p < producer_head (ring (fst s)) /\
      (forall j, consumer_head (ring (fst s)) <= j < producer_tail (ring (fst s)) ->
                 j mod size (ring demo_ring) <> p mod size (ring demo_ring)) /\
      (forall i' t' p', i' <> i -> snd s !! i' = Some t' -> claimed t' = Some p' ->
                        p' mod size (ring demo_ring) <> p mod size (ring demo_ring)).
Proof.
  apply (claimed_slots_disjoint 3 (take 10 race_schedule) demo_ring demo_ring_wf).
  - vm_compute. discriminate.
  - vm_compute. repeat (constructor; [lia|]). constructor.
  - rewrite wordsz_eq. vm_compute. reflexivity.
Defined.

(** ** Linearisation *)

(** X12: after any schedule of producer and consumer threads on a
    quiescent well-formed ring (counters not wrapping), the next step of
    any thread is defined and acts on the queue of held elements in one of
    three ways: the commit of a producer ([producer_tail = p + 1]) appends
    that producer's pointer at the end; a consumer's winning
    compare-and-swap removes the oldest element, and the pointer that
    consumer is about to return is that element; every other step leaves
    the queue as it is.  So every produce that returns 0 has enqueued its
    pointer exactly once, at its commit, and every element leaves the ring
    once, at the front, to the consumer that won. *)
Theorem pool_linearises (n : nat) (sched : list (nat * request))
    (tid : nat) (rq : request) (w : world) :
  ring_wf w = true ->
  consumer_head (ring w) <= producer_tail (ring w) ->
  Forall (fun x => (fst x < n)%nat) sched -> (tid < n)%nat ->
  producer_head (ring w) + Z.of_nat (length sched) + 1 < wordsz ->
  exists s s' t,
    pool_run sched (w, replicate n TIdle) = Some s /\
    pool_step tid rq s = Some s' /\
    snd s !! tid = Some t /\
    contents (fst s') = step_effect t (fst s) (contents (fst s)) /\
    (forall mask c e, t = TConsume (CCas mask c e) ->
                      consumer_head (ring (fst s)) = c ->
                      head (contents (fst s)) = Some e).
Proof.
  intros Hwf Hle Hsched Htid Hbound.
  destruct (pool_run_lin sched (w, replicate n TIdle) (idle_lin_inv n w Hwf Hle))
    as (s & Hrun & Hinv & Hph & _ & Hlen).
  { simpl. rewrite length_replicate. assumption. }
  { simpl. lia. }
  simpl in Hph, Hlen. rewrite length_replicate in Hlen.
  destruct (pool_step_total tid rq s (linv_storage _ Hinv) (linv_masks _ Hinv))
    as (s' & Hstep & _); [lia|].
  destruct (lin_step tid rq s s' Hinv ltac:(lia) Hstep)
    as (_ & _ & _ & _ & t & Hlook & Heff & Hhead).
  exists s, s', t. auto.
Qed.

Lemma pool_linearises_witness :
  exists s s' t,
    pool_run (take 12 race_schedule) (demo_ring, replicate 3 TIdle) = Some s /\
    pool_step 0 (ReqProduce 7) s = Some s' /\
    snd s !! 0%nat = Some t /\
    contents (fst s') = step_effect t (fst s) (contents (fst s)) /\
    (forall mask c e, t = TConsume (CCas mask c e) ->
                      consumer_head (ring (fst s)) = c ->
                      head (contents (fst s)) = Some e).
Proof.
  apply (pool_linearises 3 (take 12 race_schedule) 0 (ReqProduce 7) demo_ring demo_ring_wf).
  - vm_compute. discriminate.
  - vm_compute. repeat (constructor; [lia|]). constructor.
  - lia.
  - rewrite wordsz_eq. vm_compute. reflexivity.
Defined.

(** The step of the witness is the commit of thread 0: the queue goes from
    empty to [[7]]. *)
Example commit_enqueues :
  option_map (fun s => (snd s !! 0%nat, contents (fst s)))
    (pool_run (take 12 race_schedule) (demo_ring, replicate 3 TIdle))
  = Some (Some (TProduce (PSetTail 3 7 0)), []) /\
  option_map (fun s => contents (fst s))
    (pool_run (take 13 race_schedule) (demo_ring, replicate 3 TIdle))
  = Some [7].
Proof. split; vm_compute; reflexivity. Qed.

(** ** Threads running alone *)

Lemma pool_step_at tid rq t t' w w' ts :
  ts !! tid = Some t ->
  thread_step rq t w = Some (t', w') ->
  pool_step tid rq (w, ts) = Some (w', <[tid := t']> ts).
Proof. intros Hl Hs. unfold pool_step. simpl. rewrite Hl, Hs. reflexivity. Qed.

(** X13: the claim loop of produce keeps its index [p] after a failed
    compare-and-swap instead of reading [producer_head] again.  A producer
    that holds a stale [p] for which the room test passes can therefore
    run for any number of steps without claiming anything or returning:
    alone it only alternates between the room test and the failing
    compare-and-swap, and the ring is left as it was.  (It resumes only
    once [consumer_head] has moved past [p].) *)
Theorem stale_producer_spins (n tid : nat) (rq : request) (w : world)
    (ts : list thread) (mask ptr p : Z) :
  ts !! tid = Some (TProduce (PReadCons mask ptr p)) ->
  producer_head (ring w) <> p ->
  wsub p (consumer_head (ring w)) < mask ->
  exists t,
    pool_run (repeat (tid, rq) n) (w, ts) = Some (w, <[tid := t]> ts) /\
    (t = TProduce (PReadCons mask ptr p) \/ t = TProduce (PCas mask ptr p)).
Proof.
  intros Hlook Hstale Hroom.
  assert (Hgen : forall n ts t0,
            ts !! tid = Some t0 ->
            t0 = TProduce (PReadCons mask ptr p) \/ t0 = TProduce (PCas mask ptr p) ->
            exists t,
              pool_run (repeat (tid, rq) n) (w, ts) = Some (w, <[tid := t]> ts) /\
              (t = TProduce (PReadCons mask ptr p) \/ t = TProduce (PCas mask ptr p))).
  { clear ts Hlook. intros m. induction m as [|m IH]; intros ts t0 Hl Ht0.
    - exists t0. cbn [repeat pool_run]. rewrite list_insert_id by assumption. auto.
    - pose proof (lookup_lt_Some _ _ _ Hl) as Hlt.
      assert (Hstep : exists t1,
                pool_step tid rq (w, ts) = Some (w, <[tid := t1]> ts) /\
                (t1 = TProduce (PReadCons mask ptr p) \/ t1 = TProduce (PCas mask ptr p))).
      { destruct Ht0 as [-> | ->].
        - exists (TProduce (PCas mask ptr p)). split; [|auto].
          apply (pool_step_at _ _ _ _ _ _ _ Hl).
          cbn [thread_step produce_step]. unfold atomic_long_read. cbn [load].
          destruct (Z.ltb_spec (wsub p (consumer_head (ring w))) mask); [reflexivity|lia].
        - exists (TProduce (PReadCons mask ptr p)). split; [|auto].
          apply (pool_step_at _ _ _ _ _ _ _ Hl).
          cbn [thread_step produce_step]. rewrite cmpxchg_miss by assumption.
          cbn [load].
          destruct (Z.eqb_spec (producer_head (ring w)) p); [contradiction|reflexivity]. }
      destruct Hstep as (t1 & Hstep & Ht1).
      destruct (IH (<[tid := t1]> ts) t1) as (t & Hrun & Ht).
      + now apply list_lookup_insert_eq.
      + assumption.
      + exists t. cbn [repeat pool_run]. rewrite Hstep, Hrun.
        rewrite list_insert_insert_eq. auto. }
  apply (Hgen n ts _ Hlook). auto.
Qed.

Lemma stale_producer_spins_witness :
  exists t,
    pool_run (repeat (1%nat, ReqProduce 8) 1000)
      (set_ring (store ProducerHead 1 (ring demo_ring)) demo_ring,
       [TProduce (PWrite 3 7 0); TProduce (PReadCons 3 8 0); TIdle])
    = Some (set_ring (store ProducerHead 1 (ring demo_ring)) demo_ring,
            <[1%nat := t]> [TProduce (PWrite 3 7 0); TProduce (PReadCons 3 8 0); TIdle]) /\
    (t = TProduce (PReadCons 3 8 0) \/ t = TProduce (PCas 3 8 0)).
Proof.
  apply stale_producer_spins.
  - reflexivity.
  - vm_compute. discriminate.
  - vm_compute. reflexivity.
Defined.

(** X15: a produce that runs without interference needs at most seven
    accesses to the ring: an idle thread scheduled alone on a ring whose
    storage is in order ends its call, after four steps when the ring is
    full and after seven otherwise, in the world of the sequential
    produce. *)
Theorem solo_produce (fuel tid : nat) (v rc : Z) (w w' : world) (ts : list thread) :
  storage_ok w = true ->
  mpmc_ptr_ring_produce (S fuel) v w = Done rc w' ->
  ts !! tid = Some TIdle ->
  exists j, (j <= 7)%nat /\
    pool_run (repeat (tid, ReqProduce v) j) (w, ts) = Some (w', ts).
Proof.
  intros Hok Hseq Hidle.
  pose proof (lookup_lt_Some _ _ _ Hidle) as Hlt.
  destruct (storage_ok_elim w Hok) as (k & arr & Hk & Hsz & Harr & Hlen).
  pose proof (slot_bound k (producer_head (ring w)) Hk) as Hslot.
  rewrite <- Hsz in Hslot.
  destruct (produce_cases _ _ _ _ _ Hseq) as [(_ & -> & Hfull)|(_ & Hroom & Htail & ->)].
  - exists 4%nat. split; [lia|]. cbn [repeat pool_run].
    erewrite pool_step_at; [|exact Hidle|reflexivity].
    erewrite pool_step_at;
      [|apply list_lookup_insert_eq; assumption|reflexivity].
    erewrite pool_step_at;
      [|apply list_lookup_insert_eq; rewrite !length_insert; assumption|].
    2:{ cbn [thread_step produce_step]. unfold atomic_long_read. cbn [load].
        destruct (Z.ltb_spec (wsub (producer_head (ring w)) (consumer_head (ring w)))
                    (wsub (size (ring w)) 1)); [contradiction|reflexivity]. }
    erewrite pool_step_at;
      [|apply list_lookup_insert_eq; rewrite !length_insert; assumption|].
    2:{ cbn [thread_step produce_step]. unfold atomic_long_read. cbn [load].
        rewrite Z.eqb_refl. reflexivity. }
    rewrite !list_insert_insert_eq, list_insert_id by assumption. reflexivity.
  - exists 7%nat. split; [lia|]. cbn [repeat pool_run].
    erewrite pool_step_at; [|exact Hidle|reflexivity].
    erewrite pool_step_at;
      [|apply list_lookup_insert_eq; assumption|reflexivity].
    erewrite pool_step_at;
      [|apply list_lookup_insert_eq; rewrite !length_insert; assumption|].
    2:{ cbn [thread_step produce_step]. unfold atomic_long_read. cbn [load].
        destruct (Z.ltb_spec (wsub (producer_head (ring w)) (consumer_head (ring w)))
                    (wsub (size (ring w)) 1)); [reflexivity|lia]. }
    erewrite pool_step_at;
      [|apply list_lookup_insert_eq; rewrite !length_insert; assumption|].
    2:{ cbn [thread_step produce_step]. rewrite cmpxchg_hit by reflexivity.
        rewrite Z.eqb_refl. reflexivity. }
    erewrite pool_step_at;
      [|apply list_lookup_insert_eq; rewrite !length_insert; assumption|].
    2:{ cbn [thread_step produce_step]. unfold WRITE_ONCE_queue. simpl.
        rewrite Harr.
        destruct (decide _) as [_|Hout]; [reflexivity|exfalso; apply Hout; lia]. }
    erewrite pool_step_at;
      [|apply list_lookup_insert_eq; rewrite !length_insert; assumption|].
    2:{ cbn [thread_step produce_step]. unfold atomic_long_read. simpl.
        rewrite Htail, Z.eqb_refl. reflexivity. }
    erewrite pool_step_at;
      [|apply list_lookup_insert_eq; rewrite !length_insert; assumption|reflexivity].
    rewrite !list_insert_insert_eq, (list_insert_id ts tid TIdle Hidle).
    f_equal. f_equal. unfold enqueued, atomic_long_set, set_ring, set_heap. simpl.
    f_equal. apply map_eq. intros a. rewrite lookup_alter, lookup_insert.
    destruct (decide (queue (ring w) = a)) as [<-|]; [|reflexivity].
    rewrite Harr. reflexivity.
Qed.

Lemma solo_produce_witness :
  exists j, (j <= 7)%nat /\
    pool_run (repeat (2%nat, ReqProduce 9) j) (demo_ring_78, replicate 3 TIdle)
    = Some (enqueued 9 demo_ring_78, replicate 3 TIdle).
Proof.
  apply (solo_produce 0 2 9 0 demo_ring_78 (enqueued 9 demo_ring_78) (replicate 3 TIdle)).
  - vm_compute. reflexivity.
  - reflexivity.
  - reflexivity.
Defined.

(** ** A producer waits for the tail *)

Lemma pool_wait_stays n tid rq w ts mask v p :
  ts !! tid = Some (TProduce (PWait mask v p)) ->
  producer_tail (ring w) <> p ->
  pool_run (repeat (tid, rq) n) (w, ts) = Some (w, ts).
Proof.
  intros Hl Hne. induction n as [|n IH]; [reflexivity|].
  cbn [repeat pool_run].
  erewrite pool_step_at; [|exact Hl|].
  2:{ cbn [thread_step produce_step]. unfold atomic_long_read. cbn [load].
      destruct (Z.eqb_spec (producer_tail (ring w)) p); [contradiction|reflexivity]. }
  rewrite list_insert_id by assumption. exact IH.
Qed.

(** X6: a produce that finds room claims its index, writes its slot and
    then waits for [producer_tail] to reach that index.  Run alone on a ring
    whose tail lags behind the head (an earlier producer claimed and never
    committed): the claim loop returns the index [p] it read, with
    [producer_head] moved to [p + 1]; the write puts the pointer into slot
    [p & mask]; the wait loop then runs out of every fuel, so that the call
    does not return; and in the step model the thread, after its five
    accesses up to the write, stays in the wait for any number of further
    steps, the ring being as the write left it. *)
Theorem produce_waits_for_tail (fuel steps : nat) (v : Z) (w : world)
    (tid : nat) (ts : list thread) :
  storage_ok w = true ->
  wsub (producer_head (ring w)) (consumer_head (ring w)) < wsub (size (ring w)) 1 ->
  producer_tail (ring w) <> producer_head (ring w) ->
  ts !! tid = Some TIdle ->
  let p := producer_head (ring w) in
  let mask := wsub (size (ring w)) 1 in
  let w1 := set_ring (store ProducerHead (wadd p 1) (ring w)) w in
  produce_claim (S fuel) mask p w = Done (Some p) w1 /\
  WRITE_ONCE_queue (Z.land p mask) v w1 = Done tt (written v w) /\
  element (written v w) p = v /\
  produce_wait fuel p (written v w) = OutOfFuel /\
  mpmc_ptr_ring_produce fuel v w = OutOfFuel /\
  pool_run (repeat (tid, ReqProduce v) (5 + steps)) (w, ts)
  = Some (written v w, <[tid := TProduce (PWait mask v p)]> ts).
Proof.
  intros Hok Hroom Hlag Hidle p mask w1.
  pose proof (lookup_lt_Some _ _ _ Hidle) as Hlt.
  destruct (storage_ok_elim w Hok) as (k & arr & Hk & Hsz & Harr & Hlen).
  pose proof (slot_bound k (producer_head (ring w)) Hk) as Hslot.
  rewrite <- Hsz in Hslot. fold p mask in Hslot.
  assert (Hclaim : produce_claim (S fuel) mask p w = Done (Some p) w1).
  { cbn [produce_claim]. unfold bind, atomic_long_read. cbn [load].
    destruct (Z.ltb_spec (wsub p (consumer_head (ring w))) mask) as [_|];
      [|unfold p, mask in *; lia].
    rewrite cmpxchg_hit by reflexivity. rewrite Z.eqb_refl. reflexivity. }
  assert (Hwrite : WRITE_ONCE_queue (Z.land p mask) v w1 = Done tt (written v w)).
  { unfold WRITE_ONCE_queue, w1. simpl. rewrite Harr.
    destruct (decide _) as [_|Hout]; [|exfalso; apply Hout; lia].
    unfold written, set_heap. simpl. f_equal. f_equal.
    apply map_eq. intros a. rewrite lookup_alter, lookup_insert.
    destruct (decide (queue (ring w) = a)) as [<-|]; [|reflexivity].
    rewrite Harr. reflexivity. }
  assert (Hwait : forall f, produce_wait f p (written v w) = OutOfFuel).
  { intros f. apply produce_wait_never. exact Hlag. }
  split; [exact Hclaim|]. split; [exact Hwrite|]. split; [|split; [apply Hwait|split]].
  - unfold element, written. simpl. rewrite lookup_alter, Harr.
    destruct (decide (queue (ring w) = queue (ring w))) as [_|]; [|contradiction].
    simpl. unfold p, mask in Hslot. unfold p.
    rewrite list_lookup_insert_eq by lia. reflexivity.
  - destruct fuel as [|fuel']; [reflexivity|].
    assert (Hclaim' : produce_claim (S fuel') mask p w = Done (Some p) w1).
    { cbn [produce_claim]. unfold bind, atomic_long_read. cbn [load].
      destruct (Z.ltb_spec (wsub p (consumer_head (ring w))) mask) as [_|];
        [|unfold p, mask in *; lia].
      rewrite cmpxchg_hit by reflexivity. rewrite Z.eqb_refl. reflexivity. }
    unfold mpmc_ptr_ring_produce, bind at 1 2 3, read_size, atomic_long_read.
    cbn [load]. fold p mask. rewrite Hclaim'.
    unfold bind at 1. rewrite Hwrite. unfold bind at 1. rewrite Hwait. reflexivity.
  - change (5 + steps)%nat with (S (S (S (S (S steps))))). cbn [repeat pool_run].
    erewrite pool_step_at; [|exact Hidle|reflexivity].
    erewrite pool_step_at;
      [|apply list_lookup_insert_eq; assumption|reflexivity].
    erewrite pool_step_at;
      [|apply list_lookup_insert_eq; rewrite !length_insert; assumption|].
    2:{ cbn [thread_step produce_step]. unfold atomic_long_read. cbn [load].
        destruct (Z.ltb_spec (wsub (producer_head (ring w)) (consumer_head (ring w)))
                    (wsub (size (ring w)) 1)); [reflexivity|lia]. }
    erewrite pool_step_at;
      [|apply list_lookup_insert_eq; rewrite !length_insert; assumption|].
    2:{ cbn [thread_step produce_step]. rewrite cmpxchg_hit by reflexivity.
        rewrite Z.eqb_refl. reflexivity. }
    erewrite pool_step_at;
      [|apply list_lookup_insert_eq; rewrite !length_insert; assumption|].
    2:{ cbn [thread_step produce_step]. fold p mask w1. rewrite Hwrite. reflexivity. }
    rewrite !list_insert_insert_eq.
    apply pool_wait_stays with (mask := mask) (v := v) (p := p).
    + apply list_lookup_insert_eq. assumption.
    + exact Hlag.
Qed.

Lemma produce_waits_for_tail_witness :
  mpmc_ptr_ring_produce 9 7 lagging = OutOfFuel /\
  pool_run (repeat (0%nat, ReqProduce 7) 105) (lagging, [TIdle])
  = Some (written 7 lagging, [TProduce (PWait 3 7 1)]).
Proof.
  destruct (produce_waits_for_tail 9 100 7 lagging 0 [TIdle])
    as (_ & _ & _ & _ & Hseq & Hpool).
  - vm_compute. reflexivity.
  - vm_compute. reflexivity.
  - vm_compute. discriminate.
  - reflexivity.
  - split; [exact Hseq|].
    etransitivity; [exact Hpool|]. vm_compute. reflexivity.
Defined.

(** ** Reporting empty *)

(** X16: with producers and other consumers running, a consume reports
    "empty" only when the ring holds nothing at that instant: after any
    schedule on a quiescent well-formed ring (counters not wrapping), if a
    consumer is about to read [producer_tail] and finds it equal to the
    [consumer_head] it read before, then no committed element is in the
    ring, and that step changes nothing. *)
Theorem empty_report_is_true (n : nat) (sched : list (nat * request))
    (tid : nat) (rq : request) (w : world) :
  ring_wf w = true ->
  consumer_head (ring w) <= producer_tail (ring w) ->
  Forall (fun x => (fst x < n)%nat) sched ->
  producer_head (ring w) + Z.of_nat (length sched) < wordsz ->
  exists s,
    pool_run sched (w, replicate n TIdle) = Some s /\
    forall mask c,
      snd s !! tid = Some (TConsume (CReadTail mask c)) ->
      producer_tail (ring (fst s)) = c ->
      contents (fst s) = [] /\
      pool_step tid rq s = Some (fst s, <[tid := TIdle]> (snd s)).
Proof.
  intros Hwf Hle Hsched Hbound.
  destruct (pool_run_lin sched (w, replicate n TIdle) (idle_lin_inv n w Hwf Hle))
    as (s & Hrun & [Hpool _ _ _ _] & _).
  { simpl. rewrite length_replicate. assumption. }
  { assumption. }
  exists s. split; [assumption|]. intros mask c Hlook Hpt.
  destruct Hpool as [Hcnt Hl _].
  pose proof (Hl tid _ Hlook) as Hc. simpl in Hc.
  pose proof Hcnt as (H0 & Hcp & _).
  split.
  - rewrite (contents_ordered _ Hcnt).
    replace (producer_tail (ring (fst s)) - consumer_head (ring (fst s))) with 0 by lia.
    reflexivity.
  - destruct s as [u ts]. simpl in *.
    apply (pool_step_at _ _ _ _ _ _ _ Hlook).
    cbn [thread_step consume_step]. unfold atomic_long_read. cbn [load].
    rewrite Hpt, Z.eqb_refl. reflexivity.
Qed.

Lemma empty_report_is_true_witness :
  exists s,
    pool_run [(0, ReqConsume); (0, ReqConsume)]%nat (demo_ring, replicate 1 TIdle)
    = Some s /\
    forall mask c,
      snd s !! 0%nat = Some (TConsume (CReadTail mask c)) ->
      producer_tail (ring (fst s)) = c ->
      contents (fst s) = [] /\
      pool_step 0 ReqConsume s = Some (fst s, <[0%nat := TIdle]> (snd s)).
Proof.
  apply (empty_report_is_true 1 _ 0 ReqConsume demo_ring demo_ring_wf).
  - vm_compute. discriminate.
  - repeat (constructor; [simpl; lia|]). constructor.
  - rewrite wordsz_eq. vm_compute. reflexivity.
Defined.
